(** * StudyMaster AI backend: scheduler, generation coordinator, sessions

    A shallow embedding of the parts of the server that carry
    invariants: the SM-2 scheduler [calculateSpacedRepetition] (the copy
    of the main server and the copy of [backend/server.js]), the
    request-coalescing layer of [POST /api/generate], the question-batch
    session handlers [POST /api/sessions] and [GET /api/sessions/:id/next],
    and the review handler [POST /api/spaced-repetition/review].

    JavaScript numbers are IEEE-754 binary64 values; they are modelled by
    Rocq's primitive [float], whose operations are the same binary64
    operations.  Timestamps and counters that the code only adds and
    compares as integers are modelled in [Z]. *)

From Stdlib Require Import ZArith Lia Bool List Ascii String.
From Stdlib Require Import Floats.
From stdpp Require Import base option list gmap strings pretty sorting.

Set Warnings "-inexact-float".
Local Open Scope Z_scope.

(** ** JavaScript number primitives used by the code *)

Module JS.

Definition number := float.

(** [Z] to binary64, round-to-nearest-even (exact below 2^53). *)
Definition of_Z (n : Z) : number :=
  SF2Prim (binary_normalize prec emax n 0 false).

(** [Math.round]: the integer closest to [x], ties towards +infinity;
    NaN, infinities, zeros and integral values are returned as they are;
    a result of zero keeps the sign of [x]. *)
Definition Math_round (x : number) : number :=
  match Prim2SF x with
  | S754_finite s m e =>
      if (0 <=? e)%Z then x
      else
        let twice := (if s then Z.neg m else Z.pos m) * 2 in
        let n := (twice + 2 ^ (- e)) / 2 ^ (1 - e) in
        if (n =? 0)%Z then (if s then neg_zero else zero) else of_Z n
  | _ => x
  end.

(** [Math.max] of two numbers: NaN if either is NaN, and +0 is larger
    than -0. *)
Definition Math_max (a b : number) : number :=
  if is_nan a || is_nan b then nan
  else if (a <? b)%float then b
  else if (b <? a)%float then a
  else if is_zero a && get_sign a then b
  else a.

(** [x || d] on numbers: [x] is falsy when it is 0 or NaN; an absent
    field ([undefined]) is falsy too. *)
Definition truthy (x : number) : bool :=
  negb (is_zero x || is_nan x).

Definition or_default (x : option number) (d : number) : number :=
  match x with
  | Some v => if truthy v then v else d
  | None => d
  end.

End JS.

(** ** Shapes of binary64 values used in the proofs *)

(** A value that is at least one: +infinity, or a positive normal number
    with exponent at least that of [1 = 2^52 * 2^-52]. *)
Definition ge_one (s : spec_float) : Prop :=
  s = S754_infinity false \/
  exists m e, s = S754_finite false m e /\
              Z.pos (digits2_pos m) = 53 /\ -52 <= e <= 971.

Definition SF_one : spec_float := S754_finite false 4503599627370496 (-52).

Definition finite_or_zero (s : spec_float) : bool :=
  match s with
  | S754_finite _ _ _ | S754_zero _ => true
  | _ => false
  end.

(** ** The SM-2 scheduler *)

Record review_state := ReviewState {
  repetitions : JS.number;
  interval : JS.number;
  easeFactor : JS.number;
  nextReview : JS.number   (** argument of [new Date(...)], in ms *)
}.

(** [easeFactor + (0.1 - (5 - quality) * (0.08 + (5 - quality) * 0.02))] *)
Definition ease_update (quality easeFactor : JS.number) : JS.number :=
  (easeFactor + (0.1 - (5 - quality) * (0.08 + (5 - quality) * 0.02)))%float.

Module Scheduler.

(** [calculateSpacedRepetition] of the main server; [now] is the value
    of [Date.now()]. *)
Definition calculateSpacedRepetition
    (now quality repetitions easeFactor interval : JS.number) : review_state :=
  let '(repetitions, interval) :=
    if (quality <? 3)%float then (0%float, 1%float)
    else
      let interval :=
        if (repetitions =? 0)%float then 1%float
        else if (repetitions =? 1)%float then 6%float
        else JS.Math_round (interval * easeFactor)%float in
      ((repetitions + 1)%float, interval) in
  let easeFactor := JS.Math_max 1.3%float (ease_update quality easeFactor) in
  ReviewState repetitions interval easeFactor
    (now + interval * 24 * 60 * 60 * 1000)%float.

End Scheduler.

Module Backend.

(** [calculateSpacedRepetition] of [backend/server.js]. *)
Definition calculateSpacedRepetition
    (now quality repetitions easeFactor interval : JS.number) : review_state :=
  let '(repetitions, interval) :=
    if (quality <? 3)%float then (0%float, 1%float)
    else
      let interval :=
        if (repetitions =? 0)%float then 1%float
        else if (repetitions =? 1)%float then 6%float
        else JS.Math_round (interval * easeFactor)%float in
      ((repetitions + 1)%float, interval) in
  let easeFactor := JS.Math_max 1.3%float (ease_update quality easeFactor) in
  ReviewState repetitions interval easeFactor
    (now + interval * 24 * 60 * 60 * 1000)%float.

End Backend.

(** A run of reviews of one card: each review, a pair of the clock and
    the quality, feeds the stored state back into
    [calculateSpacedRepetition]. *)
Fixpoint review_sequence (reviews : list (JS.number * Z))
    (card : review_state) : review_state :=
  match reviews with
  | [] => card
  | (now, q) :: rest =>
      review_sequence rest
        (Scheduler.calculateSpacedRepetition now (JS.of_Z q)
           (repetitions card) (easeFactor card) (interval card))
  end.

(** Defaults of a freshly generated flashcard. *)
Definition new_card (now : JS.number) : review_state :=
  ReviewState 0%float 1%float 2.5%float now.

(** ** [POST /api/spaced-repetition/review] *)

Module Review.

Inductive user := Demo | User (id : N).

(** A stored flashcard; a scheduling field may be absent. *)
Record card := Card {
  c_owner : N;
  c_repetitions : option JS.number;
  c_easeFactor : option JS.number;
  c_interval : option JS.number;
  c_nextReview : option JS.number;
  c_lastReview : option JS.number
}.

(** [flashcards] and, per user, [studyStats.cardsReviewed]. *)
Record state := State {
  flashcards : gmap N card;
  cardsReviewed : gmap N Z
}.

(** [cardId] is [None] when it is missing or not a valid ObjectId;
    [quality] is the body field after numeric coercion (an absent
    field is NaN). *)
Record request := Request {
  userId : user;
  cardId : option N;
  quality : JS.number
}.

Inductive response :=
| NotFound404                 (** [{ error: 'Card not found' }] *)
| Error500 (message : string) (** [{ error: error.message }] *).

(** [res.json({ nextReview, interval })] names two constants that are
    declared inside the preceding block; evaluating it throws. *)
Definition reference_error : string := "nextReview is not defined".

Definition find_card (st : state) (rq : request) : option (N * card) :=
  match userId rq, cardId rq with
  | User u, Some cid =>
      match flashcards st !! cid with
      | Some c => if (c_owner c =? u)%N then Some (cid, c) else None
      | None => None
      end
  | _, _ => None
  end.

(** [now] is [Date.now()] inside the scheduler, [later] the
    [new Date()] stamped as [lastReview]. *)
Definition review (st : state) (rq : request) (now later : JS.number)
    : state * response :=
  match userId rq with
  | Demo => (st, Error500 reference_error)
  | User u =>
      match find_card st rq with
      | None => (st, NotFound404)
      | Some (cid, c) =>
          let r := Scheduler.calculateSpacedRepetition now (quality rq)
                     (JS.or_default (c_repetitions c) 0%float)
                     (JS.or_default (c_easeFactor c) 2.5%float)
                     (JS.or_default (c_interval c) 1%float) in
          let c' := Card (c_owner c) (Some (repetitions r))
                      (Some (easeFactor r)) (Some (interval r))
                      (Some (nextReview r)) (Some later) in
          (State (<[cid := c']> (flashcards st))
                 (alter Z.succ u (cardsReviewed st)),
           Error500 reference_error)
      end
  end.

End Review.

(** ** Request coalescing and content cache of [POST /api/generate]

    Node runs every handler to its next [await] without interruption, so
    the handler is a sequence of atomic segments.  The events below are
    those segments, from the point where the request key is computed:
    a request reaching the coalescing check, the generation promise body
    finishing, a suspended handler resuming, and the periodic cache
    sweep.  [Date.now()] is the [now] carried by an event; events are
    only enabled when the clock does not go backwards. *)

Module Coordinator.

Record request := Request {
  userId : string;
  fileIds : list string;
  mode : string;
  textLength : N
}.

(** [fileIds.sort()]: ascending by code unit. *)
Fixpoint insert_sorted (x : string) (l : list string) : list string :=
  match l with
  | [] => [x]
  | y :: l' => if String.leb x y then x :: l else y :: insert_sorted x l'
  end.

Definition sort (l : list string) : list string :=
  fold_right insert_sorted [] l.

Definition string_le (a b : string) : Prop := String.leb a b = true.

(** [JSON.stringify] of an array of identifier strings (hexadecimal
    ObjectIds, nothing to escape). *)
Definition quote : string := String "034"%char EmptyString.

Definition JSON_stringify (l : list string) : string :=
  ("[" ++ String.concat "," (map (fun x => quote ++ x ++ quote) l) ++ "]")%string.

Definition generateRequestKey (userId : string) (fileIds : list string)
    (mode : string) (textLength : N) : string :=
  (userId ++ ":" ++ JSON_stringify (sort fileIds) ++ ":" ++ mode ++ ":"
     ++ pretty textLength)%string.

Definition requestKey (rq : request) : string :=
  generateRequestKey (userId rq) (fileIds rq) (mode rq) (textLength rq).

(** [{ sessionId, content }]; [content] maps a task name to what the
    task produced. *)
Record response_data := ResponseData {
  sessionId : N;
  content : list (string * string)
}.

Inductive outcome :=
| Fulfilled (d : response_data)
| Rejected (error : string).

Inductive status := Pending | Settled (o : outcome).

(** A generation promise: the key it is registered under, the request
    whose handler created it (its owner), its state, and whether the
    owner's continuation after [await generationPromise] (response and
    [finally] block) has run. *)
Record promise := Promise {
  p_key : string;
  p_owner : N;
  p_status : status;
  p_finalized : bool
}.

Record cache_entry := CacheEntry { data : response_data; timestamp : Z }.

Inductive source := FromCache | FromPromise (p : nat).

(** [res.json(d)] for [Fulfilled d], status 500 with the error's
    message for [Rejected e]. *)
Record response := Response { r_req : N; r_source : source; r_body : outcome }.

Record state := State {
  inflightRequests : gmap string nat;
  contentCache : gmap string cache_entry;
  promises : list promise;          (** every generation promise created *)
  waiters : list (N * nat);         (** handlers suspended at
                                        [await inflightRequests.get(key)] *)
  responses : list response;
  clock : Z
}.

Definition init : state := State ∅ ∅ [] [] [] 0.

Definition cache_ttl_ms : Z := 300000.
Definition sweep_interval_ms : Z := 600000.

(** The generation promise body.  The tasks run under
    [Promise.allSettled]: a rejected task only leaves its key out of
    [content].  [db.insertOne] may throw, which rejects the promise. *)
Definition fulfilled_tasks (settled : list (string * option string))
    : list (string * string) :=
  omap (fun '(k, r) => match r with Some v => Some (k, v) | None => None end)
       settled.

Definition generation_result (settled : list (string * option string))
    (insertOne : string + N) : outcome :=
  match insertOne with
  | inr insertedId => Fulfilled (ResponseData insertedId (fulfilled_tasks settled))
  | inl error => Rejected error
  end.

Inductive event :=
| Arrive (r : N) (rq : request) (now : Z)
| BodyDone (p : nat) (settled : list (string * option string))
           (insertOne : string + N) (now : Z)
| ResumeOwner (p : nat)
| ResumeWaiter (i : nat)
| Sweep (now : Z).

(** Start the generation promise, register it, suspend on it. *)
Definition start (s : state) (r : N) (k : string) (now : Z) : state :=
  let p := length (promises s) in
  State (<[k := p]> (inflightRequests s)) (contentCache s)
        (promises s ++ [Promise k r Pending false])
        (waiters s) (responses s) now.

Definition arrive (s : state) (r : N) (k : string) (now : Z) : state :=
  match inflightRequests s !! k with
  | Some p =>
      State (inflightRequests s) (contentCache s) (promises s)
            (waiters s ++ [(r, p)]) (responses s) now
  | None =>
      match contentCache s !! k with
      | Some c =>
          if (now - timestamp c <? cache_ttl_ms)%Z
          then State (inflightRequests s) (contentCache s) (promises s)
                     (waiters s)
                     (responses s ++ [Response r FromCache (Fulfilled (data c))])
                     now
          else start s r k now
      | None => start s r k now
      end
  end.

Definition body_done (s : state) (p : nat) (pr : promise) (o : outcome)
    (now : Z) : state :=
  State (inflightRequests s)
        (match o with
         | Fulfilled d => <[p_key pr := CacheEntry d now]> (contentCache s)
         | Rejected _ => contentCache s
         end)
        (<[p := Promise (p_key pr) (p_owner pr) (Settled o) (p_finalized pr)]>
           (promises s))
        (waiters s) (responses s) now.

(** The owner after [await generationPromise]: respond, then the
    [finally] block. *)
Definition resume_owner (s : state) (p : nat) (pr : promise) (o : outcome)
    : state :=
  State (delete (p_key pr) (inflightRequests s))
        (contentCache s)
        (<[p := Promise (p_key pr) (p_owner pr) (p_status pr) true]> (promises s))
        (waiters s)
        (responses s ++ [Response (p_owner pr) (FromPromise p) o])
        (clock s).

(** A coalesced caller after [await inflightRequests.get(requestKey)]. *)
Definition resume_waiter (s : state) (i : nat) (r : N) (p : nat) (o : outcome)
    : state :=
  State (inflightRequests s) (contentCache s) (promises s)
        (delete i (waiters s))
        (responses s ++ [Response r (FromPromise p) o])
        (clock s).

(** The [setInterval] callback. *)
Definition sweep (s : state) (now : Z) : state :=
  State (inflightRequests s)
        (filter (fun kv => (now - timestamp kv.2 <= cache_ttl_ms)%Z)
                (contentCache s))
        (promises s) (waiters s) (responses s) now.

Definition step (s : state) (ev : event) : option state :=
  match ev with
  | Arrive r rq now =>
      if (now <? clock s)%Z then None
      else Some (arrive s r (requestKey rq) now)
  | BodyDone p settled insertOne now =>
      if (now <? clock s)%Z then None
      else
        match promises s !! p with
        | Some pr =>
            match p_status pr with
            | Pending =>
                Some (body_done s p pr (generation_result settled insertOne) now)
            | Settled _ => None
            end
        | None => None
        end
  | ResumeOwner p =>
      match promises s !! p with
      | Some pr =>
          match p_status pr, p_finalized pr with
          | Settled o, false => Some (resume_owner s p pr o)
          | _, _ => None
          end
      | None => None
      end
  | ResumeWaiter i =>
      match waiters s !! i with
      | Some (r, p) =>
          match promises s !! p with
          | Some pr =>
              match p_status pr with
              | Settled o => Some (resume_waiter s i r p o)
              | Pending => None
              end
          | None => None
          end
      | None => None
      end
  | Sweep now =>
      if (now <? clock s)%Z then None else Some (sweep s now)
  end.

Fixpoint run (s : state) (evs : list event) : option state :=
  match evs with
  | [] => Some s
  | ev :: rest =>
      match step s ev with
      | Some s' => run s' rest
      | None => None
      end
  end.

(** Requests arriving one after another from time [t] on; each comes
    with its delay after the previous one. *)
Fixpoint arrivals (t : Z) (l : list (N * request * N)) : list event :=
  match l with
  | [] => []
  | (r, rq, d) :: rest =>
      Arrive r rq (t + Z.of_N d) :: arrivals (t + Z.of_N d) rest
  end.

Fixpoint last_arrival (t : Z) (l : list (N * request * N)) : Z :=
  match l with
  | [] => t
  | (_, _, d) :: rest => last_arrival (t + Z.of_N d) rest
  end.

(** Invocations of the generation promise body for key [k]. *)
Definition produced (s : state) (k : string) : nat :=
  length (List.filter (fun pr => String.eqb (p_key pr) k) (promises s)).

(** The body of promise [p], for key [k], has not finished. *)
Definition running (s : state) (p : nat) (k : string) : Prop :=
  exists pr, promises s !! p = Some pr /\ p_key pr = k /\ p_status pr = Pending.

(** A cache entry the handler would serve at time [now]. *)
Definition fresh (now : Z) (c : cache_entry) : Prop :=
  (now - timestamp c < cache_ttl_ms)%Z.

(** What holds of every state the event loop can reach. *)
Record invariant (s : state) : Prop := Invariant {
  inv_registered : forall k p,
    inflightRequests s !! k = Some p ->
    exists pr, promises s !! p = Some pr /\ p_key pr = k /\ p_finalized pr = false;
  inv_owner : forall p pr,
    promises s !! p = Some pr -> p_finalized pr = false ->
    inflightRequests s !! p_key pr = Some p;
  inv_pending : forall p pr,
    promises s !! p = Some pr -> p_status pr = Pending -> p_finalized pr = false;
  inv_cache : forall k c,
    contentCache s !! k = Some c ->
    exists p pr, promises s !! p = Some pr /\ p_key pr = k /\
                 p_status pr = Settled (Fulfilled (data c));
  inv_responses : forall resp p,
    resp ∈ responses s -> r_source resp = FromPromise p ->
    exists pr, promises s !! p = Some pr /\ p_status pr = Settled (r_body resp);
  inv_fresh : forall k p c,
    inflightRequests s !! k = Some p -> contentCache s !! k = Some c ->
    fresh (clock s) c ->
    exists pr, promises s !! p = Some pr /\
               p_status pr = Settled (Fulfilled (data c))
}.

End Coordinator.

(** ** Question-batch sessions: [POST /api/sessions] and
       [GET /api/sessions/:id/next]

    Two stores hold question status: the database collection
    [question_batches], and the in-memory [questionSessionCache] whose
    question objects the handlers mutate in place.  A document handed to
    [insertOne] is serialised at that point; later mutation of the
    in-memory objects does not reach the database. *)

Module Sessions.

Inductive qstatus := unseen | shown.

(** What the generator returns for one question; the handlers read only
    its [question] text. *)
Record payload := Payload {
  question : string;
  options : list string;
  correctAnswer : string;
  explanation : string
}.

Record session_question := SessionQuestion {
  q_id : N;
  q_payload : payload;
  status : qstatus;
  index : Z;
  seenAt : option Z
}.

Record batch := Batch {
  b_id : N;
  b_sessionId : N;
  batchNumber : Z;
  questions : list session_question;
  b_createdAt : Z
}.

Record session := Session {
  s_userId : string;
  topicKey : string;
  sourceFileIds : list N;
  contextSummary : string;
  currentBatch : Z;
  totalGenerated : Z;
  previousTopics : list string;
  createdAt : Z;
  updatedAt : Z
}.

Record file := File { f_id : N; f_userId : string; textContent : string }.

Record cached := Cached {
  c_contextSummary : string;
  c_topicKey : string;
  c_questions : list session_question
}.

Record state := State {
  study_sessions : gmap N session;
  question_batches : list batch;        (** in insertion order *)
  files : list file;
  questionSessionCache : gmap N cached;
  next_oid : N                          (** source of fresh ObjectIds *)
}.

(** [generateQuestionBatch(text, { contextSummary, previousTopics })];
    [None] when it throws (all retries failed). *)
Record gen_request := GenRequest {
  g_text : string;
  g_contextSummary : string;
  g_previousTopics : list string
}.

Definition generator := gen_request -> option (list payload).

Inductive response :=
| Questions (qs : list session_question) (remaining : Z)
            (newBatchGenerated : bool)
| NeedsNewBatch       (** [{ questions: [], remaining: 0, needsNewBatch: true }] *)
| NotFound404
| Error500.

Inductive create_response :=
| Created (sessionId : N) (initialQuestions : list session_question)
| CreateNotFound404
| CreateError500.

Definition is_unseen (q : session_question) : bool :=
  match status q with unseen => true | shown => false end.

Definition set_shown (seen : option Z) (q : session_question)
    : session_question :=
  SessionQuestion (q_id q) (q_payload q) shown (index q)
    (match seen with Some t => Some t | None => seenAt q end).

(** [l.slice(0, end)] *)
Definition slice0 {A} (l : list A) (end_ : Z) : list A :=
  if (end_ <? 0)%Z then take (Z.to_nat (Z.of_nat (length l) + end_)) l
  else take (Z.to_nat end_) l.

(** [parseInt(req.query.limit) || 5]; [parsed] is what [parseInt]
    returned, [None] for NaN. *)
Definition effective_limit (parsed : option Z) : Z :=
  match parsed with
  | Some n => if (n =? 0)%Z then 5 else n
  | None => 5
  end.

(** [selected.forEach(q => q.status = 'shown')] seen through the array
    the selected objects came from: the first [n] unseen elements. *)
Fixpoint mark_first_unseen (n : nat) (qs : list session_question)
    : list session_question :=
  match n, qs with
  | O, _ => qs
  | _, [] => []
  | S n', q :: rest =>
      if is_unseen q then set_shown None q :: mark_first_unseen n' rest
      else q :: mark_first_unseen n rest
  end.

(** The same for [arr.slice(0, limit)]: the first [n] elements. *)
Definition mark_prefix (n : nat) (qs : list session_question)
    : list session_question :=
  map (set_shown None) (take n qs) ++ drop n qs.

Definition newline2 : string :=
  String "010"%char (String "010"%char EmptyString).

Definition combined_text (fs : list file) : string :=
  String.concat newline2 (map textContent fs).

(** [questions.map((q, idx) => ({ _id: new ObjectId(), ...q,
    status: 'unseen', index: idx + offset }))] *)
Definition new_questions (first_id : N) (offset : Z) (qs : list payload)
    : list session_question :=
  imap (fun idx q =>
          SessionQuestion (first_id + N.of_nat idx) q unseen
            (Z.of_nat idx + offset) None) qs.

(** [questions.slice(0, 5).map(q => q.question.substring(0, 30))] *)
Definition topics_of (qs : list payload) : list string :=
  map (fun q => substring 0 30 (question q)) (take 5 qs).

Definition in_ids (ids : list N) (x : N) : bool :=
  existsb (N.eqb x) ids.

Definition create (gen : generator) (st : state) (userId : string)
    (fileIds : list N) (topic : option string) (now : Z)
    : state * create_response :=
  let found := List.filter
                 (fun f => in_ids fileIds (f_id f) && String.eqb (f_userId f) userId)
                 (files st) in
  match found with
  | [] => (st, CreateNotFound404)
  | _ =>
      let combinedText := combined_text found in
      let contextSummary := substring 0 800 combinedText in
      let topicKey :=
        match topic with
        | Some t => if String.eqb t "" then ("study_" ++ pretty now)%string else t
        | None => ("study_" ++ pretty now)%string
        end in
      let sid := next_oid st in
      let sess := Session userId topicKey fileIds contextSummary 1 0 [] now now in
      let inserted := <[sid := sess]> (study_sessions st) in
      match gen (GenRequest combinedText contextSummary []) with
      | None =>
          (State inserted (question_batches st) (files st)
                 (questionSessionCache st) (sid + 1),
           CreateError500)
      | Some qs =>
          let first_id := (sid + 1)%N in
          let bqs := new_questions first_id 0 qs in
          let bid := (first_id + N.of_nat (length qs))%N in
          let b := Batch bid sid 1 bqs now in
          let sess' := Session userId topicKey fileIds contextSummary 1 20
                         (topics_of qs) now now in
          (State (<[sid := sess']> inserted)
                 (question_batches st ++ [b]) (files st)
                 (<[sid := Cached contextSummary topicKey bqs]>
                    (questionSessionCache st))
                 (bid + 1),
           Created sid (take 5 bqs))
      end
  end.

(** [findOne({ sessionId, 'questions.status': 'unseen' })] *)
Definition find_unseen_batch (bs : list batch) (id : N) : option batch :=
  List.find (fun b => (b_sessionId b =? id)%N && existsb is_unseen (questions b)) bs.

(** [updateOne({ _id }, { $set: { 'questions.$[elem].status': 'shown',
    'questions.$[elem].seenAt': now } }, { arrayFilters: [{ 'elem._id':
    { $in: ids } }] })] *)
Fixpoint mark_in_batch (bs : list batch) (bid : N) (ids : list N) (now : Z)
    : list batch :=
  match bs with
  | [] => []
  | b :: rest =>
      if (b_id b =? bid)%N
      then Batch (b_id b) (b_sessionId b) (batchNumber b)
             (map (fun q => if in_ids ids (q_id q) then set_shown (Some now) q else q)
                  (questions b))
             (b_createdAt b) :: rest
      else b :: mark_in_batch rest bid ids now
  end.

Definition count_unseen (qs : list session_question) : Z :=
  Z.of_nat (length (List.filter is_unseen qs)).

(** The cache attempt at the top of the handler: [Some] when it
    responds. *)
Definition next_from_cache (st : state) (id : N) (limit : Z)
    : option (state * response) :=
  match questionSessionCache st !! id with
  | Some c =>
      let unseenQuestions := slice0 (List.filter is_unseen (c_questions c)) limit in
      match unseenQuestions with
      | [] => None
      | _ =>
          let n := length unseenQuestions in
          let qs' := mark_first_unseen n (c_questions c) in
          Some (State (study_sessions st) (question_batches st) (files st)
                      (<[id := Cached (c_contextSummary c) (c_topicKey c) qs']>
                         (questionSessionCache st))
                      (next_oid st),
                Questions (map (set_shown None) unseenQuestions)
                          (count_unseen qs' - Z.of_nat n) false)
      end
  | None => None
  end.

(** The branch taken when no batch of the session has an unseen
    question in the database. *)
Definition next_generate (gen : generator) (st : state) (id : N)
    (limit : Z) (now : Z) : state * response :=
  match study_sessions st !! id with
  | None => (st, NotFound404)
  | Some sess =>
      let found := List.filter (fun f => in_ids (sourceFileIds sess) (f_id f))
                               (files st) in
      let combinedText := combined_text found in
      match gen (GenRequest combinedText (contextSummary sess)
                            (previousTopics sess)) with
      | None => (st, Error500)
      | Some qs =>
          let first_id := next_oid st in
          let bqs := new_questions first_id (totalGenerated sess) qs in
          let bid := (first_id + N.of_nat (length qs))%N in
          let newBatch := Batch bid id (currentBatch sess + 1) bqs now in
          let sess' := Session (s_userId sess) (topicKey sess)
                         (sourceFileIds sess) (contextSummary sess)
                         (currentBatch sess + 1) (totalGenerated sess + 20)
                         (previousTopics sess ++ topics_of qs)
                         (createdAt sess) now in
          let returnQuestions := slice0 bqs limit in
          let n := length returnQuestions in
          (State (<[id := sess']> (study_sessions st))
                 (question_batches st ++ [newBatch]) (files st)
                 (<[id := Cached (contextSummary sess) (topicKey sess)
                            (mark_prefix n bqs)]>
                    (questionSessionCache st))
                 (bid + 1),
           Questions (map (set_shown None) returnQuestions) (20 - limit) true)
      end
  end.

Definition next_from_db (gen : generator) (st : state) (id : N)
    (limit : Z) (now : Z) : state * response :=
  match find_unseen_batch (question_batches st) id with
  | None => next_generate gen st id limit now
  | Some b =>
      let unseenQuestions := slice0 (List.filter is_unseen (questions b)) limit in
      match unseenQuestions with
      | [] => (st, NeedsNewBatch)
      | _ =>
          let questionIds := map q_id unseenQuestions in
          (State (study_sessions st)
                 (mark_in_batch (question_batches st) (b_id b) questionIds now)
                 (files st) (questionSessionCache st) (next_oid st),
           Questions unseenQuestions
                     (count_unseen (questions b) - Z.of_nat (length unseenQuestions))
                     false)
      end
  end.

(** [GET /api/sessions/:id/next?limit=...] *)
Definition next (gen : generator) (st : state) (id : N)
    (parsed_limit : option Z) (now : Z) : state * response :=
  let limit := effective_limit parsed_limit in
  match next_from_cache st id limit with
  | Some r => r
  | None => next_from_db gen st id limit now
  end.

Definition delivered (r : response) : list N :=
  match r with
  | Questions qs _ _ => map q_id qs
  | _ => []
  end.

(** Successive [next] calls on one session, collecting the ids each
    call delivered. *)
Fixpoint next_calls (gen : generator) (st : state) (id : N)
    (calls : list (option Z * Z)) : state * list (list N) :=
  match calls with
  | [] => (st, [])
  | (lim, now) :: rest =>
      let '(st1, r) := next gen st id lim now in
      let '(st2, ds) := next_calls gen st1 id rest in
      (st2, delivered r :: ds)
  end.

(** No batch of the session has an unseen question, in the cache or in
    the database. *)
Definition exhausted (st : state) (id : N) : Prop :=
  (forall c, questionSessionCache st !! id = Some c ->
             List.filter is_unseen (c_questions c) = []) /\
  find_unseen_batch (question_batches st) id = None.

End Sessions.

(** ** Concrete inputs for the examples below *)

Module Examples.

Definition stored_card : Review.card :=
  Review.Card 1 (Some 0%float) (Some 2.5%float) (Some 1%float) None None.

Definition review_db : Review.state :=
  Review.State {[ 7%N := stored_card ]} {[ 1%N := 0%Z ]}.

(** A review whose quality, 9, is outside 0..5. *)
Definition out_of_range_review : Review.request :=
  Review.Request (Review.User 1) (Some 7%N) 9%float.

Definition one_file_db : Sessions.state :=
  Sessions.State ∅ []
    [Sessions.File 1 "u1" "Photosynthesis converts light energy into chemical energy."]
    ∅ 100.

(** A generator that returns twenty questions. *)
Definition twenty_questions : Sessions.generator :=
  fun _ => Some (map (fun i => Sessions.Payload ("Question " ++ pretty i)%string
                                       ["A"; "B"; "C"; "D"] "A" "")
                     (seq 0 20)).

Definition failing_generator : Sessions.generator := fun _ => None.

(** The state after [POST /api/sessions] created session 100. *)
Definition created : Sessions.state :=
  fst (Sessions.create twenty_questions one_file_db "u1" [1%N] (Some "biology") 1000).

(** A session whose creation failed in the generator: the session
    document exists, with no batch and no cache entry. *)
Definition created_without_batch : Sessions.state :=
  fst (Sessions.create failing_generator one_file_db "u1" [1%N] (Some "biology") 1000).

(** Two requests of user [u1] for a summary of the same two files,
    listed in different orders. *)
Definition summary_request : Coordinator.request :=
  Coordinator.Request "u1" ["b2"; "a1"] "summary" 1500.

Definition summary_request_reordered : Coordinator.request :=
  Coordinator.Request "u1" ["a1"; "b2"] "summary" 1500.

(** One request has arrived and its generation is running. *)
Definition one_in_flight : list Coordinator.event :=
  [Coordinator.Arrive 1 summary_request 0].

(** Two coalesced requests served by one generation, in which the study
    plan task was rejected and the summary task fulfilled. *)
Definition generation_done : list Coordinator.event :=
  [Coordinator.Arrive 1 summary_request 0;
   Coordinator.Arrive 2 summary_request_reordered 5;
   Coordinator.BodyDone 0 [("summary", Some "S"); ("studyPlan", None)]
     (inr 77%N) 10;
   Coordinator.ResumeOwner 0;
   Coordinator.ResumeWaiter 0].

Definition state_after (evs : list Coordinator.event) : Coordinator.state :=
  default Coordinator.init (Coordinator.run Coordinator.init evs).

End Examples.

(** ** The database update of [next], one document at a time *)

Module SessionUpdate.

Import Sessions.

(** What [updateOne] with the [arrayFilters] of the handler does to one
    question of the matched batch. *)
Definition mark_by_id (ids : list N) (now : Z) (q : session_question)
    : session_question :=
  if in_ids ids (q_id q) then set_shown (Some now) q else q.

(** The matched batch after the update. *)
Definition updated (b : batch) (ids : list N) (now : Z) : batch :=
  Batch (b_id b) (b_sessionId b) (batchNumber b)
        (map (mark_by_id ids now) (questions b)) (b_createdAt b).

End SessionUpdate.

(** ** Session requests handled one at a time *)

Module SessionRuns.

Import Sessions.

Inductive call :=
| Create (userId : string) (fileIds : list N) (topic : option string) (now : Z)
| Next (id : N) (limit : option Z) (now : Z).

(** One request handled from its arrival to its response with no other
    request in between. *)
Definition handle (gen : generator) (st : state) (c : call) : state :=
  match c with
  | Create userId fileIds topic now => (create gen st userId fileIds topic now).1
  | Next id limit now => (next gen st id limit now).1
  end.

(** Requests handled in turn: each handler runs to its response before
    the next request is taken up.  The handlers await the database and
    the generator between their reads and their writes and hold no lock,
    so requests that overlap in time can interleave there; such
    executions are not of this form. *)
Definition handled_in_turn (gen : generator) (st : state) (calls : list call)
    : state :=
  fold_left (handle gen) calls st.

(** A database with the uploaded files only. *)
Definition empty_db (fs : list file) (first_oid : N) : state :=
  State ∅ [] fs ∅ first_oid.

(** The stored batches of a session, in insertion order, and the
    [index] fields of their questions. *)
Definition batches_of (bs : list batch) (id : N) : list batch :=
  List.filter (fun b => (b_sessionId b =? id)%N) bs.

Definition stored_indexes (bs : list batch) (id : N) : list (list Z) :=
  map (fun b => map index (questions b)) (batches_of bs id).

(** What holds of the stored sessions in every state reached from an
    empty database by requests handled in turn, when each generated
    batch has 20 questions. *)
Record indexed (st : state) : Prop := Indexed {
  ix_fresh : forall id,
    (next_oid st <= id)%N ->
    study_sessions st !! id = None /\ batches_of (question_batches st) id = [];
  ix_total : forall id sess,
    study_sessions st !! id = Some sess ->
    totalGenerated sess =
      (20 * Z.of_nat (length (batches_of (question_batches st) id)))%Z;
  ix_indexes : forall id sess,
    study_sessions st !! id = Some sess ->
    concat (stored_indexes (question_batches st) id) =
      map Z.of_nat (seq 0 (20 * length (batches_of (question_batches st) id)))
}.

End SessionRuns.

(** ** More concrete inputs *)

Module Scenarios.

(** Session 100 after the server was restarted: the database is as the
    creation left it and the in-memory cache is empty. *)
Definition after_restart : Sessions.state :=
  Sessions.State (Sessions.study_sessions Examples.created)
                 (Sessions.question_batches Examples.created)
                 (Sessions.files Examples.created) ∅
                 (Sessions.next_oid Examples.created).

(** The batch the creation stored for session 100. *)
Definition first_batch : Sessions.batch :=
  Sessions.Batch 121 100 1
    (Sessions.new_questions 101 0
       (map (fun i => Sessions.Payload ("Question " ++ pretty i)%string
                                       ["A"; "B"; "C"; "D"] "A" "")
            (seq 0 20)))
    1000.

End Scenarios.

(** ** Runs of the coordinator with and without a sweep *)

Module Sweeping.

Import Coordinator.

(** [s1] and [s2] differ at most in cache entries that no request can
    be served from any more: [s2] has swept them, [s1] still holds
    them. *)
Record swept (s1 s2 : state) : Prop := Swept {
  sw_inflight : inflightRequests s1 = inflightRequests s2;
  sw_promises : promises s1 = promises s2;
  sw_waiters : waiters s1 = waiters s2;
  sw_responses : responses s1 = responses s2;
  sw_clock : (clock s1 <= clock s2)%Z;
  sw_sub : forall k c,
    contentCache s2 !! k = Some c -> contentCache s1 !! k = Some c;
  sw_fresh : forall k c,
    contentCache s1 !! k = Some c -> fresh (clock s2) c ->
    contentCache s2 !! k = Some c
}.

End Sweeping.

(** ** [retryWithBackoff]

    The operation is an effect: its [n]-th invocation (counted from 0)
    either returns a value or throws.  The pause between attempts
    ([setTimeout] for a jittered delay of at most 2000 ms) changes only
    the time at which the next attempt is made. *)

Module Retry.

(** A thrown error (an object, as [new Error] and the API client
    throw) with the two places the loop looks for an HTTP status:
    [error.response?.status] and [error.status]; [None] when the
    property is absent. *)
Record error := Error {
  response_status : option Z;
  own_status : option Z;
  message : string
}.

(** [error.response?.status || error.status] *)
Definition status_of (e : error) : option Z :=
  match response_status e with
  | Some v => if (v =? 0)%Z then own_status e else Some v
  | None => own_status e
  end.

(** [status >= 400 && status < 500 && ![408, 429].includes(status)];
    a comparison with [undefined] is false. *)
Definition client_error (e : error) : bool :=
  match status_of e with
  | Some st =>
      (400 <=? st)%Z && (st <? 500)%Z && negb ((st =? 408)%Z || (st =? 429)%Z)
  | None => false
  end.

Definition operation (V : Type) := nat -> error + V.

Inductive result (V : Type) :=
| Returned (v : V)
| Threw (e : error)
| Undefined.         (** the loop ended without [return] or [throw] *)

Arguments Returned {V} v.
Arguments Threw {V} e.
Arguments Undefined {V}.

(** The [for] loop from [attempt] on, [calls] invocations having been
    made; [fuel] bounds the iterations left. *)
Fixpoint loop {V} (op : operation V) (maxRetries : Z) (fuel : nat)
    (attempt : Z) (calls : nat) : result V * nat :=
  match fuel with
  | O => (Undefined, calls)
  | S fuel' =>
      if (attempt <=? maxRetries)%Z then
        match op calls with
        | inr v => (Returned v, S calls)
        | inl e =>
            if (attempt =? maxRetries)%Z then (Threw e, S calls)
            else if client_error e then (Threw e, S calls)
            else loop op maxRetries fuel' (attempt + 1) (S calls)
        end
      else (Undefined, calls)
  end.

(** [retryWithBackoff(operation, maxRetries, baseDelay)]: the result and
    the number of times the operation was invoked.  The loop makes at
    most [maxRetries + 1] iterations. *)
Definition retryWithBackoff {V} (op : operation V) (maxRetries : Z)
    : result V * nat :=
  loop op maxRetries (Z.to_nat (maxRetries + 1)) 0 0.

(** The [j]-th invocation threw an error after which the loop goes on
    to the next attempt. *)
Definition retried {V} (op : operation V) (j : nat) : Prop :=
  exists e, op j = inl e /\ client_error e = false.

End Retry.

(** ** [retryWithBackoff] of [backend/server.js] *)

Module BackendRetry.

Import Retry.

(** The same loop without the status test: every error but that of
    the last attempt is followed by another attempt. *)
Fixpoint loop {V} (op : operation V) (maxRetries : Z) (fuel : nat)
    (attempt : Z) (calls : nat) : result V * nat :=
  match fuel with
  | O => (Undefined, calls)
  | S fuel' =>
      if (attempt <=? maxRetries)%Z then
        match op calls with
        | inr v => (Returned v, S calls)
        | inl e =>
            if (attempt =? maxRetries)%Z then (Threw e, S calls)
            else loop op maxRetries fuel' (attempt + 1) (S calls)
        end
      else (Undefined, calls)
  end.

Definition retryWithBackoff {V} (op : operation V) (maxRetries : Z)
    : result V * nat :=
  loop op maxRetries (Z.to_nat (maxRetries + 1)) 0 0.

End BackendRetry.

(** ** Token estimate and prompt truncation *)

Module Tokens.

(** [Math.ceil(text.length / 4)]: the quotient by 4 is exact in
    binary64, and its ceiling is the integer below. *)
Definition estimateTokens (text : string) : Z :=
  (Z.of_nat (String.length text) + 3) / 4.

Definition truncation_notice : string :=
  String "010"%char "[Content truncated for token optimization]".

(** [truncateToTokenLimit(text, maxTokens)]; [substring] treats a
    negative end as 0 and stops at the end of the text. *)
Definition truncateToTokenLimit (text : string) (maxTokens : Z) : string :=
  if (estimateTokens text <=? maxTokens)%Z then text
  else (substring 0 (Z.to_nat (maxTokens * 4)) text ++ truncation_notice)%string.

End Tokens.

(** ** The fallback embedding

    [generateSimpleEmbedding] after [text.toLowerCase().split(/\s+/)]:
    a word is the list of its UTF-16 code units. *)

Module Embedding.

(** [ToInt32] *)
Definition to_int32 (x : Z) : Z := (x + 2 ^ 31) mod 2 ^ 32 - 2 ^ 31.

(** The reducer [(a, b) => { a = ((a << 5) - a) + b.charCodeAt(0);
    return a & a; }] *)
Definition hash_step (a : Z) (code : Z) : Z :=
  to_int32 (to_int32 (to_int32 a * 32) - a + code).

Definition word_hash (word : list Z) : Z := fold_left hash_step word 0.

(** [Math.abs(hash) % embedding.length] *)
Definition index_of (hash : Z) (len : Z) : Z := Z.rem (Z.abs hash) len.

(** [arr[i] += x] on an array with holes ([None]): a hole reads as
    [undefined] and [undefined + x] is NaN; an index past the end
    extends the array with holes up to it. *)
Definition add_at (arr : list (option JS.number)) (i : nat) (x : JS.number)
    : list (option JS.number) :=
  match arr !! i with
  | Some (Some y) => <[i := Some (y + x)%float]> arr
  | Some None => <[i := Some nan]> arr
  | None => arr ++ replicate (i - length arr) None ++ [Some nan]
  end.

Definition dimension : nat := 1536.

Definition generateSimpleEmbedding (words : list (list Z))
    : list (option JS.number) :=
  fold_left
    (fun embedding word =>
       add_at embedding
         (Z.to_nat (index_of (word_hash word) (Z.of_nat (length embedding))))
         (1 / JS.of_Z (Z.of_nat (length words)))%float)
    words (replicate dimension (Some 0%float)).

(** An array of the full dimension without holes. *)
Definition filled (embedding : list (option JS.number)) : Prop :=
  length embedding = dimension /\ Forall is_Some embedding.

End Embedding.

(** ** Concrete operations for the retry loop *)

Module RetryScenarios.

(** Rate limited, then unavailable, then a value. *)
Definition third_time_lucky : Retry.operation string :=
  fun n =>
    match n with
    | O => inl (Retry.Error None (Some 429%Z) "rate limited")
    | S O => inl (Retry.Error (Some 503%Z) None "unavailable")
    | _ => inr "ok"%string
    end.

(** A timeout, then a request the server rejects as malformed. *)
Definition rejected_request : Retry.operation string :=
  fun n =>
    match n with
    | O => inl (Retry.Error None None "timeout")
    | _ => inl (Retry.Error (Some 400%Z) None "bad request")
    end.

(** A request rejected once as malformed, then a value. *)
Definition rejected_once : Retry.operation string :=
  fun n =>
    match n with
    | O => inl (Retry.Error (Some 400%Z) None "bad request")
    | _ => inr "ok"%string
    end.

End RetryScenarios.

(** * Properties *)

(** ** Binary64 arithmetic: rounding keeps a product of values that are
       at least one at least one *)

Section Binary64.

(** *** Bit lengths *)

Lemma digits2_pos_size p : digits2_pos p = Pos.size p.
Proof. induction p; simpl; congruence. Qed.

Lemma Zdigits2_log2 m : 0 < m -> Zdigits2 m = Z.log2 m + 1.
Proof.
  destruct m as [|p|p]; try lia. intros _. simpl.
  rewrite digits2_pos_size.
  destruct p; simpl; lia.
Qed.

Lemma Zdigits2_mono a b : 0 < a -> a <= b -> Zdigits2 a <= Zdigits2 b.
Proof.
  intros Ha Hab. rewrite !Zdigits2_log2 by lia.
  pose proof (Z.log2_le_mono a b Hab). lia.
Qed.

Lemma Zdigits2_succ a : 0 < a -> Zdigits2 (a + 1) <= Zdigits2 a + 1.
Proof.
  intros Ha. rewrite !Zdigits2_log2 by lia.
  pose proof (Z.log2_succ_le a). unfold Z.succ in *. lia.
Qed.

Lemma Zdigits2_mul a b :
  0 < a -> 0 < b -> Zdigits2 a + Zdigits2 b - 1 <= Zdigits2 (a * b).
Proof.
  intros Ha Hb. rewrite !Zdigits2_log2 by nia.
  pose proof (Z.log2_mul_below a b Ha Hb). lia.
Qed.

Lemma Zdigits2_lower m : 0 < m -> 2 ^ (Zdigits2 m - 1) <= m.
Proof.
  intros Hm. rewrite Zdigits2_log2 by lia.
  replace (Z.log2 m + 1 - 1) with (Z.log2 m) by lia.
  apply Z.log2_spec; lia.
Qed.

Lemma digits2_iter_xO m k :
  Z.pos (digits2_pos (Pos.iter xO m k)) = Z.pos (digits2_pos m) + Z.pos k.
Proof.
  induction k using Pos.peano_ind.
  - simpl. lia.
  - rewrite Pos.iter_succ. simpl. lia.
Qed.

(** *** Right shifts of the rounding record *)
Lemma iter_pos_invariant {A} (f : A -> A) (P : A -> Prop) :
  (forall x, P x -> P (f x)) -> forall p x, P x -> P (SpecFloat.iter_pos f p x).
Proof.
  intros Hf. induction p; intros x Hx; simpl; auto.
Qed.

Lemma shr_1_nonneg r : 0 <= shr_m r -> 0 <= shr_m (shr_1 r).
Proof.
  destruct r as [m rb sb]. simpl. destruct m as [|[p|p|]|[p|p|]]; simpl; lia.
Qed.

Lemma shr_1_digits r :
  2 <= Zdigits2 (shr_m r) -> 0 < shr_m r ->
  0 < shr_m (shr_1 r) /\ Zdigits2 (shr_m (shr_1 r)) = Zdigits2 (shr_m r) - 1.
Proof.
  destruct r as [m rb sb]. cbn [shr_m].
  destruct m as [|[p|p|]|[p|p|]]; cbn [shr_1 shr_m Zdigits2 digits2_pos]; lia.
Qed.

Lemma iter_shr_1_digits p : forall r,
  Z.pos p < Zdigits2 (shr_m r) -> 0 < shr_m r ->
  0 < shr_m (SpecFloat.iter_pos shr_1 p r) /\
  Zdigits2 (shr_m (SpecFloat.iter_pos shr_1 p r)) = Zdigits2 (shr_m r) - Z.pos p.
Proof.
  induction p as [p IH|p IH|]; intros r Hd Hm; simpl.
  - destruct (shr_1_digits r) as [H1 H2]; [lia|lia|].
    destruct (IH (shr_1 r)) as [H3 H4]; [lia|lia|].
    destruct (IH (SpecFloat.iter_pos shr_1 p (shr_1 r))) as [H5 H6]; [lia|lia|].
    split; [assumption|lia].
  - destruct (IH r) as [H3 H4]; [lia|lia|].
    destruct (IH (SpecFloat.iter_pos shr_1 p r)) as [H5 H6]; [lia|lia|].
    split; [assumption|lia].
  - apply shr_1_digits; lia.
Qed.

Lemma shr_digits r e n :
  0 < shr_m r -> n < Zdigits2 (shr_m r) ->
  0 < shr_m (fst (shr r e n)) /\
  Zdigits2 (shr_m (fst (shr r e n))) = Zdigits2 (shr_m r) - Z.max n 0 /\
  snd (shr r e n) = e + Z.max n 0.
Proof.
  intros Hm Hn. destruct n as [|p|p]; simpl.
  - split; [assumption|split; lia].
  - destruct (iter_shr_1_digits p r) as [H1 H2]; [lia|lia|].
    split; [assumption|split; lia].
  - split; [assumption|split; lia].
Qed.

Lemma shr_nonneg r e n : 0 <= shr_m r -> 0 <= shr_m (fst (shr r e n)).
Proof.
  intros Hm. destruct n; simpl; try assumption.
  apply (iter_pos_invariant shr_1 (fun r => 0 <= shr_m r)); auto using shr_1_nonneg.
Qed.

Lemma shr_m_of_loc m l : shr_m (shr_record_of_loc m l) = m.
Proof. destruct l as [|[]]; reflexivity. Qed.

Lemma round_nearest_even_bounds m l :
  m <= round_nearest_even m l <= m + 1.
Proof.
  unfold round_nearest_even. destruct l as [|[]]; try lia.
  destruct (Z.even m); lia.
Qed.

Lemma ge_one_valid s : ge_one s -> valid_binary s = true.
Proof.
  intros [->|(m & e & -> & Hd & He)]; [reflexivity|].
  unfold SpecFloat.valid_binary, bounded, canonical_mantissa, fexp, SpecFloat.emin, prec, emax.
  rewrite Hd. apply andb_true_intro. split.
  - apply Z.eqb_eq. lia.
  - apply Z.leb_le. lia.
Qed.

Lemma ge_one_leb s : ge_one s -> SFleb SF_one s = true.
Proof.
  intros [->|(m & e & -> & Hd & He)]; [reflexivity|].
  pose proof (Zdigits2_lower (Z.pos m) ltac:(lia)) as Hlow.
  cbn [Zdigits2] in Hlow. rewrite Hd in Hlow.
  replace (2 ^ (53 - 1)) with (Z.pos 4503599627370496) in Hlow by reflexivity.
  unfold SFleb, SFcompare, SF_one.
  destruct (Z.compare_spec (-52) e) as [Heq|Hlt|Hgt]; try reflexivity; try lia.
  fold (Pos.compare 4503599627370496 m).
  destruct (Pos.compare_spec 4503599627370496 m) as [?|?|Hgt]; try reflexivity.
  exfalso. apply (Z.lt_irrefl (Z.pos m)).
  apply Z.lt_le_trans with (2 := Hlow). exact Hgt.
Qed.

Lemma leb_ge_one mc ec s :
  -52 <= ec -> valid_binary s = true ->
  SFleb (S754_finite false mc ec) s = true -> ge_one s.
Proof.
  intros Hec Hv Hle. destruct s as [sg|sg| |sg m e]; simpl in Hle; try discriminate.
  - destruct sg; [discriminate|]. left; reflexivity.
  - destruct sg; [discriminate|].
    right. exists m, e. split; [reflexivity|].
    unfold SFleb, SFcompare in Hle.
    assert (ec <= e) as Hee.
    { destruct (Z.compare_spec ec e); first [lia | discriminate]. }
    revert Hv.
    unfold SpecFloat.valid_binary, bounded, canonical_mantissa, fexp, SpecFloat.emin, prec, emax.
    intros Hv. apply andb_prop in Hv. destruct Hv as [H1 H2].
    apply Z.eqb_eq in H1. apply Z.leb_le in H2. lia.
Qed.

Lemma binary_round_aux_ge_one p ex lx :
  53 <= Z.pos (digits2_pos p) -> 1 <= Z.pos (digits2_pos p) + ex ->
  ge_one (binary_round_aux prec emax false (Z.pos p) ex lx).
Proof.
  intros Hd Hg. unfold binary_round_aux, shr_fexp.
  set (r0 := shr_record_of_loc (Z.pos p) lx).
  set (n1 := fexp prec emax (Zdigits2 (Z.pos p) + ex) - ex).
  assert (Hn1 : n1 = Z.pos (digits2_pos p) - 53).
  { unfold n1, fexp, SpecFloat.emin, prec, emax. simpl Zdigits2. lia. }
  destruct (shr_digits r0 ex n1) as (Hp1 & Hd1 & He1).
  { unfold r0. rewrite shr_m_of_loc. lia. }
  { unfold r0. rewrite shr_m_of_loc. simpl. lia. }
  destruct (shr r0 ex n1) as [mrs1 e1]. simpl in Hp1, Hd1, He1.
  unfold r0 in Hd1. rewrite shr_m_of_loc in Hd1. simpl Zdigits2 in Hd1.
  set (m2 := round_nearest_even (shr_m mrs1) (loc_of_shr_record mrs1)).
  pose proof (round_nearest_even_bounds (shr_m mrs1) (loc_of_shr_record mrs1)) as Hb.
  fold m2 in Hb.
  pose proof (Zdigits2_mono (shr_m mrs1) m2 Hp1 (proj1 Hb)) as Hlo.
  pose proof (Zdigits2_mono m2 (shr_m mrs1 + 1) ltac:(lia) (proj2 Hb)) as Hhi.
  pose proof (Zdigits2_succ (shr_m mrs1) Hp1) as Hsu.
  set (n2 := fexp prec emax (Zdigits2 m2 + e1) - e1).
  assert (Hn2 : n2 = Zdigits2 m2 - 53).
  { unfold n2, fexp, SpecFloat.emin, prec, emax. lia. }
  destruct (shr_digits (shr_record_of_loc m2 loc_Exact) e1 n2) as (Hp3 & Hd3 & He3).
  { simpl. lia. }
  { simpl. lia. }
  destruct (shr (shr_record_of_loc m2 loc_Exact) e1 n2) as [mrs3 e3].
  simpl in Hp3, Hd3, He3.
  destruct (shr_m mrs3) as [|m3|m3] eqn:Em3; try lia.
  destruct (Z.leb_spec e3 (emax - prec)) as [Hle|Hgt].
  - right. exists m3, e3. split; [reflexivity|]. simpl in Hd3.
    unfold emax, prec in Hle. lia.
  - left. reflexivity.
Qed.

Lemma SFmul_ge_one x y :
  ge_one x -> ge_one y -> ge_one (SFmul prec emax x y).
Proof.
  intros [->|(mx & ex & -> & Hdx & Hex)] [->|(my & ey & -> & Hdy & Hey)];
    try (left; reflexivity).
  change (ge_one (binary_round_aux prec emax false (Z.pos (mx * my))
                    (ex + ey) loc_Exact)).
  apply binary_round_aux_ge_one.
  - pose proof (Zdigits2_mul (Z.pos mx) (Z.pos my) ltac:(lia) ltac:(lia)) as H.
    change (Zdigits2 (Z.pos mx * Z.pos my)) with (Z.pos (digits2_pos (mx * my))) in H.
    cbn [Zdigits2] in H. lia.
  - pose proof (Zdigits2_mul (Z.pos mx) (Z.pos my) ltac:(lia) ltac:(lia)) as H.
    change (Zdigits2 (Z.pos mx * Z.pos my)) with (Z.pos (digits2_pos (mx * my))) in H.
    cbn [Zdigits2] in H. lia.
Qed.

Lemma binary_round_ge_one p :
  ge_one (binary_round prec emax false p 0).
Proof.
  unfold binary_round, shl_align.
  set (d := Z.pos (digits2_pos p)).
  assert (Hd : 1 <= d) by (unfold d; lia).
  set (fe := fexp prec emax (d + 0)).
  assert (Hfe : fe = Z.max (d - 53) (-1074)).
  { unfold fe, fexp, SpecFloat.emin, prec, emax. lia. }
  destruct (fe - 0) as [|k|k] eqn:Ek.
  - apply binary_round_aux_ge_one; fold d; lia.
  - apply binary_round_aux_ge_one; fold d; lia.
  - apply binary_round_aux_ge_one; rewrite digits2_iter_xO; fold d; lia.
Qed.

(** *** From the specification to primitive floats *)
Lemma Prim2SF_one : Prim2SF 1 = SF_one.
Proof. reflexivity. Qed.

Lemma leb_one_ge_one x : (1 <=? x)%float = true -> ge_one (Prim2SF x).
Proof.
  rewrite FloatAxioms.leb_spec, Prim2SF_one. apply leb_ge_one; [lia|apply Prim2SF_valid].
Qed.

Lemma ge_one_leb_one x : ge_one (Prim2SF x) -> (1 <=? x)%float = true.
Proof.
  intros H. rewrite FloatAxioms.leb_spec, Prim2SF_one. apply ge_one_leb, H.
Qed.

Lemma leb_floor_ge_one x : (1.3 <=? x)%float = true -> ge_one (Prim2SF x).
Proof.
  rewrite FloatAxioms.leb_spec.
  change (Prim2SF 1.3) with (S754_finite false 5854679515581645 (-52)).
  apply leb_ge_one; [lia|apply Prim2SF_valid].
Qed.

Lemma mul_ge_one a b :
  ge_one (Prim2SF a) -> ge_one (Prim2SF b) -> ge_one (Prim2SF (a * b)%float).
Proof.
  intros Ha Hb. rewrite FloatAxioms.mul_spec. apply SFmul_ge_one; assumption.
Qed.

Lemma of_Z_ge_one n : 1 <= n -> ge_one (Prim2SF (JS.of_Z n)).
Proof.
  intros Hn. unfold JS.of_Z. destruct n as [|p|p]; try lia.
  cbn [binary_normalize].
  pose proof (binary_round_ge_one p) as H.
  rewrite Prim2SF_SF2Prim by (apply ge_one_valid, H). exact H.
Qed.

Lemma Math_round_ge_one x :
  ge_one (Prim2SF x) -> ge_one (Prim2SF (JS.Math_round x)).
Proof.
  intros Hx. unfold JS.Math_round.
  destruct Hx as [E|(m & e & E & Hd & He)]; rewrite E.
  { rewrite E. left; reflexivity. }
  destruct (Z.leb_spec 0 e) as [Hpos|Hneg].
  { rewrite E. right. exists m, e. auto. }
  cbv zeta.
  set (n := (Z.pos m * 2 + 2 ^ (- e)) / 2 ^ (1 - e)).
  assert (Hn : 1 <= n).
  { unfold n. apply Z.div_le_lower_bound.
    - apply Z.pow_pos_nonneg; lia.
    - pose proof (Zdigits2_lower (Z.pos m) ltac:(lia)) as Hlow.
      cbn [Zdigits2] in Hlow. rewrite Hd in Hlow.
      replace (1 - e) with (Z.succ (- e)) by lia.
      rewrite Z.pow_succ_r by lia.
      assert (2 ^ (- e) <= 2 ^ (53 - 1)) by (apply Z.pow_le_mono_r; lia).
      lia. }
  destruct (Z.eqb_spec n 0) as [Hz|Hnz]; [lia|].
  apply of_Z_ge_one, Hn.
Qed.

(** *** Adding a finite value to a value that is at least one is not NaN *)
Lemma binary_round_aux_not_nan sx mx ex lx :
  0 <= mx -> binary_round_aux prec emax sx mx ex lx <> S754_nan.
Proof.
  intros Hm. unfold binary_round_aux, shr_fexp.
  pose proof (shr_nonneg (shr_record_of_loc mx lx) ex
    (fexp prec emax (Zdigits2 mx + ex) - ex)) as H1.
  rewrite shr_m_of_loc in H1. specialize (H1 Hm).
  destruct (shr (shr_record_of_loc mx lx) ex _) as [mrs1 e1]. simpl in H1.
  set (m2 := round_nearest_even (shr_m mrs1) (loc_of_shr_record mrs1)).
  pose proof (round_nearest_even_bounds (shr_m mrs1) (loc_of_shr_record mrs1)) as Hb.
  fold m2 in Hb.
  pose proof (shr_nonneg (shr_record_of_loc m2 loc_Exact) e1
    (fexp prec emax (Zdigits2 m2 + e1) - e1)) as H2.
  rewrite shr_m_of_loc in H2. specialize (H2 ltac:(lia)).
  destruct (shr (shr_record_of_loc m2 loc_Exact) e1 _) as [mrs3 e3]. simpl in H2.
  destruct (shr_m mrs3) as [|m3|m3]; try lia; try discriminate.
  destruct (e3 <=? emax - prec); discriminate.
Qed.

Lemma binary_normalize_not_nan m e sz :
  binary_normalize prec emax m e sz <> S754_nan.
Proof.
  destruct m as [|p|p]; cbn [binary_normalize]; try discriminate;
    unfold binary_round; destruct (shl_align _ _ _) as [mz ez];
    apply binary_round_aux_not_nan; lia.
Qed.

Lemma SFadd_not_nan x y :
  ge_one x -> finite_or_zero y = true -> SFadd prec emax x y <> S754_nan.
Proof.
  intros [->|(mx & ex & -> & _)] Hy; destruct y as [sy|sy| |sy my ey];
    try discriminate Hy; try discriminate.
  cbn [SFadd]. apply binary_normalize_not_nan.
Qed.

Lemma SFeqb_refl s : s <> S754_nan -> SFeqb s s = true.
Proof.
  intros Hs. unfold SFeqb, SFcompare.
  destruct s as [[]|[]| |[] m e]; try reflexivity; try congruence;
    rewrite Z.compare_refl, Pos.compare_cont_refl; reflexivity.
Qed.

Lemma add_not_nan a d :
  ge_one (Prim2SF a) -> finite_or_zero (Prim2SF d) = true ->
  is_nan (a + d)%float = false.
Proof.
  intros Ha Hd. unfold is_nan. rewrite FloatAxioms.eqb_spec, SFeqb_refl; [reflexivity|].
  rewrite FloatAxioms.add_spec. apply SFadd_not_nan; assumption.
Qed.

Lemma ltb_leb a b : (a <? b)%float = true -> (a <=? b)%float = true.
Proof.
  rewrite FloatAxioms.ltb_spec, FloatAxioms.leb_spec. unfold SFltb, SFleb.
  destruct (SFcompare _ _) as [[]|]; congruence.
Qed.

Lemma Math_max_floor x :
  is_nan x = false -> (1.3 <=? JS.Math_max 1.3 x)%float = true.
Proof.
  intros Hx. unfold JS.Math_max. rewrite Hx.
  change (is_nan 1.3) with false. cbn [orb].
  destruct (1.3 <? x)%float eqn:E1; [apply ltb_leb, E1|].
  destruct (x <? 1.3)%float; [reflexivity|].
  change (is_zero 1.3 && get_sign 1.3) with false. reflexivity.
Qed.

End Binary64.

(** ** The scheduler *)

Section SchedulerProperties.

Local Open Scope float_scope.

Import Scheduler.

(** The integer ratings as numbers. *)
Example of_Z_values :
  JS.of_Z 0 = 0 /\ JS.of_Z 1 = 1 /\ JS.of_Z 2 = 2 /\
  JS.of_Z 3 = 3 /\ JS.of_Z 4 = 4 /\ JS.of_Z 5 = 5.
Proof. repeat split; vm_compute; reflexivity. Qed.

(** [Math.round] and [Math.max] on representative arguments. *)
Example Math_round_values :
  JS.Math_round 2.5 = 3 /\ JS.Math_round (-2.5) = (-2) /\
  JS.Math_round 16.200000000000003 = 16 /\ JS.Math_round (-3.7) = (-4) /\
  JS.Math_round 0.49999999999999994 = 0 /\ JS.Math_round (-0.2) = (-0) /\
  JS.Math_round 4503599627370497 = 4503599627370497 /\
  JS.Math_round infinity = infinity.
Proof. repeat split; vm_compute; reflexivity. Qed.

Example Math_max_values :
  JS.Math_max 1.3 1.2 = 1.3 /\ JS.Math_max 1.3 2.6 = 2.6 /\
  JS.Math_max (-0) 0 = 0 /\ JS.Math_max 0 (-0) = 0 /\
  JS.Math_max 1.3 infinity = infinity /\
  is_nan (JS.Math_max 1.3 nan) = true.
Proof. repeat split; vm_compute; reflexivity. Qed.

(** The ease-factor increment is a finite constant for each rating 0..5. *)
Lemma ease_update_not_nan (q : Z) (ef : JS.number) :
  (0 <= q <= 5)%Z -> (1.3 <=? ef) = true ->
  is_nan (ease_update (JS.of_Z q) ef) = false.
Proof.
  intros Hq Hef. unfold ease_update.
  apply add_not_nan; [apply leb_floor_ge_one, Hef|].
  assert (q = 0 \/ q = 1 \/ q = 2 \/ q = 3 \/ q = 4 \/ q = 5)%Z
    as [->|[->|[->|[->|[->| ->]]]]] by lia; vm_compute; reflexivity.
Qed.

Lemma interval_at_least_one (quality reps ef iv : JS.number) :
  (1.3 <=? ef) = true -> (1 <=? iv) = true ->
  (1 <=? (if quality <? 3 then 1
          else if reps =? 0 then 1
          else if reps =? 1 then 6
          else JS.Math_round (iv * ef))) = true.
Proof.
  intros Hef Hiv.
  destruct (quality <? 3); [reflexivity|].
  destruct (reps =? 0); [reflexivity|].
  destruct (reps =? 1); [reflexivity|].
  apply ge_one_leb_one, Math_round_ge_one, mul_ge_one.
  - apply leb_one_ge_one, Hiv.
  - apply leb_floor_ge_one, Hef.
Qed.

Lemma review_preserves_floor now (q : Z) reps ef iv :
  (0 <= q <= 5)%Z -> (1.3 <=? ef) = true -> (1 <=? iv) = true ->
  (1.3 <=? easeFactor (calculateSpacedRepetition now (JS.of_Z q) reps ef iv)) = true /\
  (1 <=? interval (calculateSpacedRepetition now (JS.of_Z q) reps ef iv)) = true.
Proof.
  intros Hq Hef Hiv. unfold calculateSpacedRepetition. split.
  - destruct (JS.of_Z q <? 3); cbn [easeFactor];
      apply Math_max_floor, ease_update_not_nan; assumption.
  - pose proof (interval_at_least_one (JS.of_Z q) reps ef iv Hef Hiv) as H.
    destruct (JS.of_Z q <? 3); cbn [interval]; exact H.
Qed.

Lemma review_sequence_floor reviews : forall card,
  Forall (fun r => (0 <= r.2 <= 5)%Z) reviews ->
  (1.3 <=? easeFactor card) = true -> (1 <=? interval card) = true ->
  (1.3 <=? easeFactor (review_sequence reviews card)) = true /\
  (1 <=? interval (review_sequence reviews card)) = true.
Proof.
  induction reviews as [|[now q] rest IH]; intros card Hall Hef Hiv.
  - split; assumption.
  - inversion Hall as [|? ? Hq Hrest]; subst. cbn [review_sequence].
    destruct (review_preserves_floor now q (repetitions card)
                (easeFactor card) (interval card) Hq Hef Hiv) as [H1 H2].
    apply IH; assumption.
Qed.

(** C3.  For a card with [easeFactor >= 1.3] and [interval >= 1] and an
    integer quality between 0 and 5, the state returned by
    [calculateSpacedRepetition] again has [easeFactor >= 1.3] and
    [interval >= 1]; and after any sequence of such reviews of a new card
    (repetitions 0, ease factor 2.5, interval 1) the ease factor is at
    least 1.3 and the interval at least 1. *)
Theorem ease_floor_and_interval_invariant
    (now : JS.number) (quality : Z) (reps ef iv : JS.number)
    (reviews : list (JS.number * Z)) :
  (0 <= quality <= 5)%Z ->
  (1.3 <=? ef) = true ->
  (1 <=? iv) = true ->
  Forall (fun r => (0 <= r.2 <= 5)%Z) reviews ->
  let r := calculateSpacedRepetition now (JS.of_Z quality) reps ef iv in
  let c := review_sequence reviews (new_card now) in
  ((1.3 <=? easeFactor r) = true /\ (1 <=? interval r) = true) /\
  ((1.3 <=? easeFactor c) = true /\ (1 <=? interval c) = true).
Proof.
  intros Hq Hef Hiv Hall r c. split.
  - apply review_preserves_floor; assumption.
  - apply review_sequence_floor; [assumption| reflexivity | reflexivity].
Qed.

Lemma ease_floor_and_interval_invariant_witness :
  let r := calculateSpacedRepetition 0 (JS.of_Z 3) 4 1.3 7 in
  let c := review_sequence [(0, 0%Z); (5, 2%Z); (9, 5%Z)] (new_card 0) in
  ((1.3 <=? easeFactor r) = true /\ (1 <=? interval r) = true) /\
  ((1.3 <=? easeFactor c) = true /\ (1 <=? interval c) = true).
Proof.
  apply (ease_floor_and_interval_invariant 0 3 4 1.3 7
           [(0, 0%Z); (5, 2%Z); (9, 5%Z)]).
  - lia.
  - reflexivity.
  - reflexivity.
  - repeat constructor; simpl; lia.
Defined.

(** C4.  From a new card, quality 5 gives repetitions 1, interval 1, ease
    factor 2.6; quality 5 again gives repetitions 2, interval 6, ease
    factor 2.7; a third quality 5 gives interval
    [round(6 * easeFactor_after_2nd)], which is 16; and a quality 2
    review of the state after the second review gives repetitions 0,
    interval 1 and ease factor 2.38, the value of
    [max(1.3, 2.7 + (0.1 - 3 * (0.08 + 3 * 0.02)))].  (Applied instead to
    the state after the third review, whose ease factor is
    2.8000000000000003, the quality 2 review gives 2.4800000000000004.) *)
Theorem three_successes_then_failure (now : JS.number) :
  let c0 := new_card now in
  let c1 := calculateSpacedRepetition now 5
              (repetitions c0) (easeFactor c0) (interval c0) in
  let c2 := calculateSpacedRepetition now 5
              (repetitions c1) (easeFactor c1) (interval c1) in
  let c3 := calculateSpacedRepetition now 5
              (repetitions c2) (easeFactor c2) (interval c2) in
  let failed := calculateSpacedRepetition now 2
              (repetitions c2) (easeFactor c2) (interval c2) in
  (repetitions c1, interval c1, easeFactor c1) = (1, 1, 2.6) /\
  (repetitions c2, interval c2, easeFactor c2) = (2, 6, 2.7) /\
  interval c3 = JS.Math_round (6 * easeFactor c2) /\
  interval c3 = 16 /\
  (repetitions failed, interval failed, easeFactor failed) = (0, 1, 2.38) /\
  easeFactor failed = JS.Math_max 1.3 (2.7 + (0.1 - 3 * (0.08 + 3 * 0.02))) /\
  easeFactor (calculateSpacedRepetition now 2
                (repetitions c3) (easeFactor c3) (interval c3))
    = 2.4800000000000004.
Proof.
  cbv zeta. repeat split; vm_compute; reflexivity.
Qed.

(** C5.  Whatever the card state, a quality below 3 gives repetitions 0
    and interval 1. *)
Theorem failure_resets_streak (now quality reps ef iv : JS.number) :
  (quality <? 3) = true ->
  repetitions (calculateSpacedRepetition now quality reps ef iv) = 0 /\
  interval (calculateSpacedRepetition now quality reps ef iv) = 1.
Proof.
  intros Hq. unfold calculateSpacedRepetition. rewrite Hq.
  split; reflexivity.
Qed.

Lemma failure_resets_streak_witness :
  repetitions (calculateSpacedRepetition 1000 2 7 2.1 30) = 0 /\
  interval (calculateSpacedRepetition 1000 2 7 2.1 30) = 1.
Proof.
  apply (failure_resets_streak 1000 2 7 2.1 30). reflexivity.
Defined.

(** C10.  The scheduler of [backend/server.js] and the scheduler of the
    main server return the same state on every input. *)
Theorem backend_scheduler_agrees (now quality reps ef iv : JS.number) :
  Backend.calculateSpacedRepetition now quality reps ef iv =
  Scheduler.calculateSpacedRepetition now quality reps ef iv.
Proof.
  unfold Backend.calculateSpacedRepetition, Scheduler.calculateSpacedRepetition.
  destruct (quality <? 3), (reps =? 0), (reps =? 1); reflexivity.
Qed.

End SchedulerProperties.

(** ** The review handler and the [limit] parameter *)

Section ValidationProperties.

Import Review Examples.

Lemma review_of_owned_card st u cid c q now later :
  flashcards st !! cid = Some c -> c_owner c = u ->
  review st (Request (User u) (Some cid) q) now later =
  (let r := Scheduler.calculateSpacedRepetition now q
              (JS.or_default (c_repetitions c) 0%float)
              (JS.or_default (c_easeFactor c) 2.5%float)
              (JS.or_default (c_interval c) 1%float) in
   (State (<[cid := Card (c_owner c) (Some (repetitions r))
                      (Some (easeFactor r)) (Some (interval r))
                      (Some (nextReview r)) (Some later)]> (flashcards st))
          (alter Z.succ u (cardsReviewed st)),
    Error500 reference_error)).
Proof.
  intros Hc Hu. unfold review, find_card. cbn [userId cardId quality].
  rewrite Hc. subst u. rewrite N.eqb_refl. reflexivity.
Qed.

(** C6, as the code has it.  Neither handler validates its argument.
    For every quality, in range or not, a review of an existing card by
    its owner stores on the card the state that
    [calculateSpacedRepetition] returns for that quality; and a [limit]
    that parses to 0 or to NaN is replaced by 5, the request then being
    served as one with [limit=5]. *)
Theorem quality_and_limit_are_not_validated
    (st : Review.state) (u cid : N) (c : card) (q now later : JS.number)
    (gen : Sessions.generator) (sst : Sessions.state) (id : N) (t : Z) :
  flashcards st !! cid = Some c ->
  c_owner c = u ->
  let r := Scheduler.calculateSpacedRepetition now q
             (JS.or_default (c_repetitions c) 0%float)
             (JS.or_default (c_easeFactor c) 2.5%float)
             (JS.or_default (c_interval c) 1%float) in
  flashcards (review st (Request (User u) (Some cid) q) now later).1 !! cid =
    Some (Card u (Some (repetitions r)) (Some (easeFactor r))
               (Some (interval r)) (Some (nextReview r)) (Some later)) /\
  Sessions.next gen sst id (Some 0%Z) t = Sessions.next gen sst id (Some 5%Z) t /\
  Sessions.next gen sst id None t = Sessions.next gen sst id (Some 5%Z) t.
Proof.
  intros Hc Hu r. split; [|split; reflexivity].
  rewrite (review_of_owned_card st u cid c q now later Hc Hu).
  cbn [fst flashcards]. rewrite lookup_insert_eq. subst u. reflexivity.
Qed.

Lemma quality_and_limit_are_not_validated_witness :
  let r := Scheduler.calculateSpacedRepetition 1000%float 9%float
             (JS.or_default (Some 0%float) 0%float)
             (JS.or_default (Some 2.5%float) 2.5%float)
             (JS.or_default (Some 1%float) 1%float) in
  flashcards (review review_db (Request (User 1) (Some 7%N) 9%float) 1000%float 1001%float).1 !! 7%N =
    Some (Card 1 (Some (repetitions r)) (Some (easeFactor r))
               (Some (interval r)) (Some (nextReview r)) (Some 1001%float)) /\
  Sessions.next twenty_questions created 100 (Some 0%Z) 2000 =
    Sessions.next twenty_questions created 100 (Some 5%Z) 2000 /\
  Sessions.next twenty_questions created 100 None 2000 =
    Sessions.next twenty_questions created 100 (Some 5%Z) 2000.
Proof.
  apply (quality_and_limit_are_not_validated review_db 1 7 stored_card
           9%float 1000%float 1001%float twenty_questions created 100 2000).
  - reflexivity.
  - reflexivity.
Defined.

(** C6, as stated, fails: a review with quality 9 is not turned away
    before the card is written (the stored card changes), and a request
    with [limit=0] is not turned away either: it delivers five questions
    and marks them shown in the cache. *)
Lemma out_of_range_inputs_are_applied :
  (review review_db out_of_range_review 1000%float 1001%float).1 <> review_db /\
  (exists c, flashcards (review review_db out_of_range_review 1000%float 1001%float).1 !! 7%N = Some c /\
             c_lastReview c = Some 1001%float /\
             c_lastReview stored_card = None) /\
  Sessions.delivered (Sessions.next twenty_questions created 100 (Some 0%Z) 2000).2 =
    [101; 102; 103; 104; 105]%N /\
  (Sessions.next twenty_questions created 100 (Some 0%Z) 2000).1 <> created.
Proof.
  split; [|split; [|split]].
  - intros H.
    apply (f_equal (fun s => c_lastReview <$> flashcards s !! 7%N)) in H.
    vm_compute in H. discriminate H.
  - eexists. split; [vm_compute; reflexivity|]. split; reflexivity.
  - vm_compute. reflexivity.
  - intros H.
    apply (f_equal (fun s => (fun c => map Sessions.status (take 1 (Sessions.c_questions c)))
                               <$> Sessions.questionSessionCache s !! 100%N)) in H.
    vm_compute in H. discriminate H.
Qed.

End ValidationProperties.

(** ** Question-batch sessions *)

Section SessionProperties.

Import Sessions Examples.

Lemma slice0_nil {A} (n : Z) : slice0 (@nil A) n = [].
Proof. unfold slice0. destruct (n <? 0)%Z; apply take_nil. Qed.

Lemma exhausted_cache_miss st id limit :
  exhausted st id -> next_from_cache st id limit = None.
Proof.
  intros [Hc _]. unfold next_from_cache.
  destruct (questionSessionCache st !! id) as [c|] eqn:E; [|reflexivity].
  rewrite (Hc c eq_refl), slice0_nil. reflexivity.
Qed.

Lemma exhausted_generates gen st id lim now :
  exhausted st id ->
  next gen st id lim now = next_generate gen st id (effective_limit lim) now.
Proof.
  intros Hex. unfold next. rewrite (exhausted_cache_miss st id _ Hex).
  unfold next_from_db. destruct Hex as [_ ->]. reflexivity.
Qed.

(** C1, on the code.  The handler marks questions served from the cache
    as shown in the cache only.  After session 100 is created with a
    batch of twenty questions, four calls with the default limit drain
    the cache; the fifth call reads the batch from the database, where
    every question is still unseen, and delivers the five questions of
    the first call again. *)
Theorem drained_cache_redelivers_first_questions :
  let calls := [(None, 2001); (None, 2002); (None, 2003); (None, 2004);
                (None, 2005)]%Z in
  let ds := (next_calls twenty_questions created 100 calls).2 in
  ds !! 0%nat = Some [101; 102; 103; 104; 105]%N /\
  ds !! 3%nat = Some [116; 117; 118; 119; 120]%N /\
  ds !! 4%nat = Some [101; 102; 103; 104; 105]%N.
Proof.
  cbv zeta. repeat split; vm_compute; reflexivity.
Qed.

(** C9.  When a session has no unseen question left, in the cache or in
    the database, and the generator fails, the call answers with an
    error and the whole state is as before: no batch is inserted and the
    session document, with its [currentBatch], [totalGenerated] and
    [previousTopics], is untouched.  A retry reaches the generator
    again: with a generator that now succeeds it appends the batch
    numbered [currentBatch + 1]. *)
Theorem generator_failure_leaves_session_unchanged
    (gen gen' : generator) (st : state) (id : N) (sess : session)
    (lim lim' : option Z) (now now' : Z) (qs : list payload) :
  exhausted st id ->
  study_sessions st !! id = Some sess ->
  let rq := GenRequest
              (combined_text
                 (List.filter (fun f => in_ids (sourceFileIds sess) (f_id f))
                              (files st)))
              (contextSummary sess) (previousTopics sess) in
  gen rq = None ->
  gen' rq = Some qs ->
  next gen st id lim now = (st, Error500) /\
  (exists st' served remaining,
     next gen' (next gen st id lim now).1 id lim' now' =
       (st', Questions served remaining true) /\
     question_batches st' =
       question_batches st ++
         [Batch (next_oid st + N.of_nat (length qs)) id (currentBatch sess + 1)
                (new_questions (next_oid st) (totalGenerated sess) qs) now']).
Proof.
  intros Hex Hs rq Hfail Hok.
  assert (H1 : next gen st id lim now = (st, Error500)).
  { rewrite (exhausted_generates gen st id lim now Hex).
    unfold next_generate. rewrite Hs. fold rq. rewrite Hfail. reflexivity. }
  split; [exact H1|].
  rewrite H1. cbn [fst].
  rewrite (exhausted_generates gen' st id lim' now' Hex).
  unfold next_generate. rewrite Hs. fold rq. rewrite Hok.
  eexists _, _, _. split; reflexivity.
Qed.

Lemma generator_failure_leaves_session_unchanged_witness :
  next failing_generator created_without_batch 100 (Some 3%Z) 2000 =
    (created_without_batch, Error500) /\
  (exists st' served remaining,
     next twenty_questions
          (next failing_generator created_without_batch 100 (Some 3%Z) 2000).1
          100 None 2001 =
       (st', Questions served remaining true) /\
     question_batches st' =
       question_batches created_without_batch ++
         [Batch (next_oid created_without_batch + N.of_nat (length
                   (map (fun i => Payload ("Question " ++ pretty i)%string
                                     ["A"; "B"; "C"; "D"] "A" "") (seq 0 20))))
                100
                (currentBatch (Session "u1" "biology" [1%N]
                   "Photosynthesis converts light energy into chemical energy."
                   1 0 [] 1000 1000) + 1)
                (new_questions (next_oid created_without_batch)
                   (totalGenerated (Session "u1" "biology" [1%N]
                      "Photosynthesis converts light energy into chemical energy."
                      1 0 [] 1000 1000))
                   (map (fun i => Payload ("Question " ++ pretty i)%string
                                     ["A"; "B"; "C"; "D"] "A" "") (seq 0 20)))
                2001]).
Proof.
  apply (generator_failure_leaves_session_unchanged
           failing_generator twenty_questions created_without_batch 100
           (Session "u1" "biology" [1%N]
              "Photosynthesis converts light energy into chemical energy."
              1 0 [] 1000 1000)
           (Some 3%Z) None 2000 2001
           (map (fun i => Payload ("Question " ++ pretty i)%string
                                     ["A"; "B"; "C"; "D"] "A" "") (seq 0 20))).
  - split.
    + intros c Hc. vm_compute in Hc. discriminate Hc.
    + reflexivity.
  - vm_compute. reflexivity.
  - reflexivity.
  - reflexivity.
Defined.

End SessionProperties.

(** ** Request coalescing and the content cache *)

Section CoordinatorProperties.

Import Coordinator Examples.

Implicit Types (s : state) (k : string) (p : nat) (pr : promise).

(** *** The fingerprint *)

Lemma ascii_compare_N a b : Ascii.compare a b = N.compare (N_of_ascii a) (N_of_ascii b).
Proof. reflexivity. Qed.

Lemma string_compare_trans_le a : forall b c,
  String.compare a b <> Gt -> String.compare b c <> Gt -> String.compare a c <> Gt.
Proof.
  induction a as [|x a IH]; intros [|y b] [|z c]; cbn [String.compare];
    try congruence.
  rewrite !ascii_compare_N.
  destruct (N.compare_spec (N_of_ascii x) (N_of_ascii y)) as [Exy|Lxy|Gxy];
    destruct (N.compare_spec (N_of_ascii y) (N_of_ascii z)) as [Eyz|Lyz|Gyz];
    destruct (N.compare_spec (N_of_ascii x) (N_of_ascii z)) as [Exz|Lxz|Gxz];
    try congruence; try lia.
  apply IH.
Qed.

Lemma string_le_trans a b c : string_le a b -> string_le b c -> string_le a c.
Proof.
  unfold string_le, String.leb. intros Hab Hbc.
  pose proof (string_compare_trans_le a b c) as H.
  destruct (String.compare a b), (String.compare b c), (String.compare a c);
    try reflexivity; try discriminate; exfalso; apply H; congruence.
Qed.

Lemma insert_sorted_perm x l : insert_sorted x l ≡ₚ x :: l.
Proof.
  induction l as [|y l IH]; cbn [insert_sorted]; [reflexivity|].
  destruct (String.leb x y); [reflexivity|].
  rewrite IH. apply Permutation_swap.
Qed.

Lemma sort_perm l : sort l ≡ₚ l.
Proof.
  induction l as [|x l IH]; cbn; [reflexivity|].
  rewrite insert_sorted_perm, IH. reflexivity.
Qed.

Lemma insert_sorted_sorted x l :
  StronglySorted string_le l -> StronglySorted string_le (insert_sorted x l).
Proof.
  induction 1 as [|y l Hl IH Hy]; cbn [insert_sorted].
  - repeat constructor.
  - destruct (String.leb x y) eqn:E.
    + constructor; [constructor; assumption|].
      constructor; [exact E|].
      eapply Forall_impl; [exact Hy|]. intros z Hz.
      exact (string_le_trans x y z E Hz).
    + constructor; [exact IH|].
      rewrite insert_sorted_perm. constructor; [|exact Hy].
      destruct (String.leb_total x y) as [H|H]; [congruence|exact H].
Qed.

Lemma sort_sorted l : StronglySorted string_le (sort l).
Proof.
  induction l as [|x l IH]; cbn; [constructor|].
  apply insert_sorted_sorted, IH.
Qed.

Lemma sort_of_permutation l1 l2 : l1 ≡ₚ l2 -> sort l1 = sort l2.
Proof.
  intros Hp.
  apply (StronglySorted_unique_strong string_le).
  - intros x1 x2 _ _ H1 H2. apply String.leb_antisym; assumption.
  - apply sort_sorted.
  - apply sort_sorted.
  - rewrite !sort_perm. exact Hp.
Qed.

(** X11.  Requests that differ only in the order of their file ids have
    the same fingerprint: [generateRequestKey] sorts the ids before it
    serializes them. *)
Lemma fingerprint_ignores_file_order u ids1 ids2 m n :
  ids1 ≡ₚ ids2 -> generateRequestKey u ids1 m n = generateRequestKey u ids2 m n.
Proof.
  intros Hp. unfold generateRequestKey. rewrite (sort_of_permutation _ _ Hp).
  reflexivity.
Qed.

Lemma fingerprint_ignores_file_order_witness :
  generateRequestKey "u1" ["b2"; "a1"; "c3"] "summary" 1500 =
  generateRequestKey "u1" ["c3"; "b2"; "a1"] "summary" 1500.
Proof.
  apply (fingerprint_ignores_file_order "u1" ["b2"; "a1"; "c3"]
           ["c3"; "b2"; "a1"] "summary" 1500).
  apply (bool_decide_unpack _). vm_compute. exact I.
Defined.

(** *** The invariant is preserved *)

Lemma fresh_mono (t now : Z) (c : cache_entry) :
  (t <= now)%Z -> fresh now c -> fresh t c.
Proof. unfold fresh. lia. Qed.

Lemma init_invariant : invariant init.
Proof.
  split; unfold init;
    cbn [inflightRequests contentCache promises responses clock].
  - intros k p H. rewrite lookup_empty in H. discriminate.
  - intros p pr H. destruct p; discriminate H.
  - intros p pr H. destruct p; discriminate H.
  - intros k c H. rewrite lookup_empty in H. discriminate.
  - intros resp p H. inversion H.
  - intros k p c H. rewrite lookup_empty in H. discriminate.
Qed.

(** Appending a promise keeps what was known of the earlier ones. *)
Lemma lookup_snoc_old (l : list promise) (x : promise) p pr :
  l !! p = Some pr -> (l ++ [x]) !! p = Some pr.
Proof. intros H. apply lookup_app_l_Some, H. Qed.

Lemma lookup_snoc_inv (l : list promise) (x : promise) p pr :
  (l ++ [x]) !! p = Some pr ->
  l !! p = Some pr \/ (p = length l /\ pr = x).
Proof.
  intros H. destruct (decide (p < length l)%nat) as [Hlt|Hge].
  - left. rewrite lookup_app_l in H by exact Hlt. exact H.
  - right. rewrite lookup_app_r in H by lia.
    destruct (p - length l)%nat as [|n] eqn:E.
    + split; [lia|]. cbn in H. congruence.
    + destruct n; discriminate H.
Qed.

Lemma start_invariant s r k now :
  invariant s -> (clock s <= now)%Z ->
  inflightRequests s !! k = None ->
  (forall c, contentCache s !! k = Some c -> ~ fresh now c) ->
  invariant (start s r k now).
Proof.
  intros [J1 J2 J3 J6 J7 J8] Hclk Hidle Hstale.
  split; unfold start;
    cbn [inflightRequests contentCache promises responses clock].
  - intros k' p H. destruct (decide (k = k')) as [->|Hne].
    + rewrite lookup_insert_eq in H. injection H as <-.
      eexists. split; [apply list_lookup_middle; reflexivity|]. split; reflexivity.
    + rewrite lookup_insert_ne in H by exact Hne.
      destruct (J1 k' p H) as (pr & Hp & Hk & Hf).
      exists pr. split; [apply lookup_snoc_old, Hp|]. split; assumption.
  - intros p pr H Hf. destruct (lookup_snoc_inv _ _ _ _ H) as [Hold|[-> ->]].
    + pose proof (J2 p pr Hold Hf) as Hin.
      destruct (decide (k = p_key pr)) as [->|Hne]; [congruence|].
      rewrite lookup_insert_ne by exact Hne. exact Hin.
    + cbn [p_key]. apply lookup_insert_eq.
  - intros p pr H Hs. destruct (lookup_snoc_inv _ _ _ _ H) as [Hold|[-> ->]].
    + exact (J3 p pr Hold Hs).
    + reflexivity.
  - intros k' c H. destruct (J6 k' c H) as (p & pr & Hp & Hk & Hs).
    exists p, pr. split; [apply lookup_snoc_old, Hp|]. split; assumption.
  - intros resp p H Hsrc. destruct (J7 resp p H Hsrc) as (pr & Hp & Hs).
    exists pr. split; [apply lookup_snoc_old, Hp|assumption].
  - intros k' p c Hin Hc Hfr. destruct (decide (k = k')) as [->|Hne].
    + exfalso. exact (Hstale c Hc Hfr).
    + rewrite lookup_insert_ne in Hin by exact Hne.
      destruct (J8 k' p c Hin Hc (fresh_mono _ _ _ Hclk Hfr)) as (pr & Hp & Hs).
      exists pr. split; [apply lookup_snoc_old, Hp|assumption].
Qed.

Lemma arrive_invariant s r k now :
  invariant s -> (clock s <= now)%Z -> invariant (arrive s r k now).
Proof.
  intros Hinv Hclk. unfold arrive.
  destruct (inflightRequests s !! k) as [p|] eqn:Ein.
  - destruct Hinv as [J1 J2 J3 J6 J7 J8].
    split; cbn [inflightRequests contentCache promises responses clock]; auto.
    intros k' p' c Hin Hc Hfr.
    exact (J8 k' p' c Hin Hc (fresh_mono _ _ _ Hclk Hfr)).
  - destruct (contentCache s !! k) as [c|] eqn:Ec.
    + destruct (Z.ltb_spec (now - timestamp c) cache_ttl_ms) as [Hlt|Hge].
      * destruct Hinv as [J1 J2 J3 J6 J7 J8].
        split; cbn [inflightRequests contentCache promises responses clock]; auto.
        -- intros resp p H Hsrc. apply elem_of_app in H as [H|H].
           ++ exact (J7 resp p H Hsrc).
           ++ apply list_elem_of_singleton in H. subst resp. discriminate Hsrc.
        -- intros k' p' c' Hin Hc Hfr.
           exact (J8 k' p' c' Hin Hc (fresh_mono _ _ _ Hclk Hfr)).
      * apply start_invariant; try assumption.
        intros c' Hc'. unfold fresh. assert (c' = c) as -> by congruence. lia.
    + apply start_invariant; try assumption.
      intros c' Hc'. congruence.
Qed.

(** Overwriting promise [p] keeps the other promises. *)
Lemma lookup_update_inv (l : list promise) p x q pr :
  <[p := x]> l !! q = Some pr ->
  (q = p /\ pr = x) \/ (q <> p /\ l !! q = Some pr).
Proof.
  intros H. destruct (decide (q = p)) as [->|Hne].
  - left. split; [reflexivity|].
    destruct (decide (p < length l)%nat) as [Hlt|Hge].
    + rewrite list_lookup_insert_eq in H by exact Hlt. congruence.
    + rewrite list_insert_ge in H by lia.
      apply lookup_lt_Some in H. lia.
  - right. split; [exact Hne|].
    rewrite list_lookup_insert_ne in H by congruence. exact H.
Qed.

Lemma lookup_update_eq (l : list promise) p x pr :
  l !! p = Some pr -> <[p := x]> l !! p = Some x.
Proof. intros H. apply list_lookup_insert_eq. eapply lookup_lt_Some, H. Qed.

Lemma lookup_update_ne (l : list promise) p x q :
  q <> p -> <[p := x]> l !! q = l !! q.
Proof. intros H. apply list_lookup_insert_ne. congruence. Qed.

Lemma body_done_invariant s p pr o now :
  invariant s -> (clock s <= now)%Z ->
  promises s !! p = Some pr -> p_status pr = Pending ->
  invariant (body_done s p pr o now).
Proof.
  intros [J1 J2 J3 J6 J7 J8] Hclk Hp Hpend.
  pose proof (J3 p pr Hp Hpend) as Hfin.
  pose proof (J2 p pr Hp Hfin) as Hreg.
  set (pr' := Promise (p_key pr) (p_owner pr) (Settled o) (p_finalized pr)).
  assert (Hkeep : forall q pr1, promises s !! q = Some pr1 ->
            p_status pr1 <> Pending -> <[p := pr']> (promises s) !! q = Some pr1).
  { intros q pr1 Hq Hs. rewrite lookup_update_ne; [exact Hq|].
    intros ->. congruence. }
  split; unfold body_done; fold pr';
    cbn [inflightRequests contentCache promises responses clock].
  - intros k' q H. destruct (J1 k' q H) as (pr1 & Hq & Hk & Hf).
    destruct (decide (q = p)) as [->|Hne].
    + exists pr'. split; [eapply lookup_update_eq, Hp|].
      assert (pr1 = pr) as -> by congruence. split; [exact Hk|exact Hf].
    + exists pr1. rewrite lookup_update_ne by exact Hne. auto.
  - intros q pr1 H Hf. destruct (lookup_update_inv _ _ _ _ _ H) as [[-> ->]|[Hne Hq]].
    + exact Hreg.
    + exact (J2 q pr1 Hq Hf).
  - intros q pr1 H Hs. destruct (lookup_update_inv _ _ _ _ _ H) as [[-> ->]|[Hne Hq]].
    + discriminate Hs.
    + exact (J3 q pr1 Hq Hs).
  - intros k' c H.
    assert (Hold : contentCache s !! k' = Some c ->
              exists q pr1, <[p := pr']> (promises s) !! q = Some pr1 /\
                            p_key pr1 = k' /\
                            p_status pr1 = Settled (Fulfilled (data c))).
    { intros Hc. destruct (J6 k' c Hc) as (q & pr1 & Hq & Hk & Hs).
      exists q, pr1. split; [apply Hkeep; [exact Hq|congruence]|auto]. }
    destruct o as [d|e]; [|exact (Hold H)].
    destruct (decide (p_key pr = k')) as [<-|Hne].
    + rewrite lookup_insert_eq in H. injection H as <-.
      exists p, pr'. split; [eapply lookup_update_eq, Hp|]. split; reflexivity.
    + rewrite lookup_insert_ne in H by exact Hne. exact (Hold H).
  - intros resp q H Hsrc. destruct (J7 resp q H Hsrc) as (pr1 & Hq & Hs).
    exists pr1. split; [apply Hkeep; [exact Hq|congruence]|exact Hs].
  - intros k' q c Hin Hc Hfr.
    assert (Hold : contentCache s !! k' = Some c ->
              exists pr1, <[p := pr']> (promises s) !! q = Some pr1 /\
                          p_status pr1 = Settled (Fulfilled (data c))).
    { intros Hc'.
      destruct (J8 k' q c Hin Hc' (fresh_mono _ _ _ Hclk Hfr)) as (pr1 & Hq & Hs).
      exists pr1. split; [apply Hkeep; [exact Hq|congruence]|exact Hs]. }
    destruct o as [d|e]; [|exact (Hold Hc)].
    destruct (decide (p_key pr = k')) as [<-|Hne].
    + rewrite lookup_insert_eq in Hc. injection Hc as <-.
      assert (q = p) as -> by congruence.
      exists pr'. split; [eapply lookup_update_eq, Hp|reflexivity].
    + rewrite lookup_insert_ne in Hc by exact Hne. exact (Hold Hc).
Qed.

Lemma resume_owner_invariant s p pr o :
  invariant s ->
  promises s !! p = Some pr -> p_status pr = Settled o -> p_finalized pr = false ->
  invariant (resume_owner s p pr o).
Proof.
  intros [J1 J2 J3 J6 J7 J8] Hp Hset Hfin.
  pose proof (J2 p pr Hp Hfin) as Hreg.
  set (pr' := Promise (p_key pr) (p_owner pr) (p_status pr) true).
  assert (Hkeep : forall q pr1, promises s !! q = Some pr1 ->
            exists pr2, <[p := pr']> (promises s) !! q = Some pr2 /\
                        p_key pr2 = p_key pr1 /\ p_status pr2 = p_status pr1).
  { intros q pr1 Hq. destruct (decide (q = p)) as [->|Hne].
    - exists pr'. split; [eapply lookup_update_eq, Hp|].
      assert (pr1 = pr) as -> by congruence. split; reflexivity.
    - exists pr1. rewrite lookup_update_ne by exact Hne. auto. }
  split; unfold resume_owner; fold pr';
    cbn [inflightRequests contentCache promises responses clock].
  - intros k' q H. apply lookup_delete_Some in H as [Hne H].
    destruct (J1 k' q H) as (pr1 & Hq & Hk & Hf).
    exists pr1. split; [|auto].
    rewrite lookup_update_ne; [exact Hq|]. intros ->. congruence.
  - intros q pr1 H Hf. destruct (lookup_update_inv _ _ _ _ _ H) as [[-> ->]|[Hne Hq]].
    + discriminate Hf.
    + pose proof (J2 q pr1 Hq Hf) as Hin.
      rewrite lookup_delete_ne; [exact Hin|]. intros Heq.
      rewrite Heq in Hreg. congruence.
  - intros q pr1 H Hs. destruct (lookup_update_inv _ _ _ _ _ H) as [[-> ->]|[Hne Hq]].
    + unfold pr' in Hs. cbn [p_status] in Hs. congruence.
    + exact (J3 q pr1 Hq Hs).
  - intros k' c H. destruct (J6 k' c H) as (q & pr1 & Hq & Hk & Hs).
    destruct (Hkeep q pr1 Hq) as (pr2 & Hq2 & Hk2 & Hs2).
    exists q, pr2. split; [exact Hq2|]. split; congruence.
  - intros resp q H Hsrc. apply elem_of_app in H as [H|H].
    + destruct (J7 resp q H Hsrc) as (pr1 & Hq & Hs).
      destruct (Hkeep q pr1 Hq) as (pr2 & Hq2 & Hk2 & Hs2).
      exists pr2. split; [exact Hq2|congruence].
    + apply list_elem_of_singleton in H. subst resp.
      cbn [r_source r_body] in *. injection Hsrc as <-.
      exists pr'. split; [eapply lookup_update_eq, Hp|exact Hset].
  - intros k' q c Hin Hc Hfr. apply lookup_delete_Some in Hin as [Hne Hin].
    destruct (J8 k' q c Hin Hc Hfr) as (pr1 & Hq & Hs).
    destruct (Hkeep q pr1 Hq) as (pr2 & Hq2 & Hk2 & Hs2).
    exists pr2. split; [exact Hq2|congruence].
Qed.

Lemma resume_waiter_invariant s i r p pr o :
  invariant s ->
  promises s !! p = Some pr -> p_status pr = Settled o ->
  invariant (resume_waiter s i r p o).
Proof.
  intros [J1 J2 J3 J6 J7 J8] Hp Hset.
  split; unfold resume_waiter;
    cbn [inflightRequests contentCache promises responses clock]; auto.
  intros resp q H Hsrc. apply elem_of_app in H as [H|H].
  - exact (J7 resp q H Hsrc).
  - apply list_elem_of_singleton in H. subst resp.
    cbn [r_source r_body] in *. injection Hsrc as <-.
    exists pr. split; assumption.
Qed.

Lemma sweep_invariant s now :
  invariant s -> (clock s <= now)%Z -> invariant (sweep s now).
Proof.
  intros [J1 J2 J3 J6 J7 J8] Hclk.
  split; unfold sweep;
    cbn [inflightRequests contentCache promises responses clock]; auto.
  - intros k c H. apply map_lookup_filter_Some in H as [H _]. exact (J6 k c H).
  - intros k p c Hin H Hfr. apply map_lookup_filter_Some in H as [H _].
    exact (J8 k p c Hin H (fresh_mono _ _ _ Hclk Hfr)).
Qed.

Lemma step_invariant s ev s' :
  invariant s -> step s ev = Some s' -> invariant s'.
Proof.
  intros Hinv Hstep. destruct ev as [r rq now|p settled ins now|p|i|now];
    cbn [step] in Hstep.
  - destruct (Z.ltb_spec now (clock s)); [discriminate|].
    injection Hstep as <-. apply arrive_invariant; assumption.
  - destruct (Z.ltb_spec now (clock s)); [discriminate|].
    destruct (promises s !! p) as [pr|] eqn:Hp; [|discriminate].
    destruct (p_status pr) eqn:Hs; [|discriminate].
    injection Hstep as <-. apply body_done_invariant; assumption.
  - destruct (promises s !! p) as [pr|] eqn:Hp; [|discriminate].
    destruct (p_status pr) as [|o] eqn:Hs; [discriminate|].
    destruct (p_finalized pr) eqn:Hf; [discriminate|].
    injection Hstep as <-. apply resume_owner_invariant; assumption.
  - destruct (waiters s !! i) as [[r p]|] eqn:Hw; [|discriminate].
    destruct (promises s !! p) as [pr|] eqn:Hp; [|discriminate].
    destruct (p_status pr) as [|o] eqn:Hs; [discriminate|].
    injection Hstep as <-. eapply resume_waiter_invariant; eassumption.
  - destruct (Z.ltb_spec now (clock s)); [discriminate|].
    injection Hstep as <-. apply sweep_invariant; assumption.
Qed.

Lemma run_invariant evs : forall s s',
  invariant s -> run s evs = Some s' -> invariant s'.
Proof.
  induction evs as [|ev rest IH]; intros s s' Hinv Hrun; cbn [run] in Hrun.
  - injection Hrun as <-. exact Hinv.
  - destruct (step s ev) as [s1|] eqn:Hstep; [|discriminate].
    eapply IH; [eapply step_invariant; eassumption|exact Hrun].
Qed.

(** *** Consequences of the invariant *)

Lemma running_registered s p pr :
  invariant s -> promises s !! p = Some pr -> p_status pr = Pending ->
  inflightRequests s !! p_key pr = Some p.
Proof.
  intros Hinv Hp Hs. apply (inv_owner s Hinv p pr Hp).
  exact (inv_pending s Hinv p pr Hp Hs).
Qed.

Lemma running_unique s k p1 p2 :
  invariant s -> running s p1 k -> running s p2 k -> p1 = p2.
Proof.
  intros Hinv (pr1 & H1 & K1 & S1) (pr2 & H2 & K2 & S2).
  pose proof (running_registered s p1 pr1 Hinv H1 S1) as R1.
  pose proof (running_registered s p2 pr2 Hinv H2 S2) as R2.
  rewrite K1 in R1. rewrite K2 in R2. congruence.
Qed.

Lemma arrive_join s r k now p :
  inflightRequests s !! k = Some p ->
  arrive s r k now =
  State (inflightRequests s) (contentCache s) (promises s)
        (waiters s ++ [(r, p)]) (responses s) now.
Proof. intros H. unfold arrive. rewrite H. reflexivity. Qed.

Lemma arrive_start s r k now :
  inflightRequests s !! k = None ->
  (forall c, contentCache s !! k = Some c -> ~ fresh now c) ->
  arrive s r k now = start s r k now.
Proof.
  intros Hidle Hstale. unfold arrive. rewrite Hidle.
  destruct (contentCache s !! k) as [c|] eqn:Ec; [|reflexivity].
  destruct (Z.ltb_spec (now - timestamp c) cache_ttl_ms) as [Hlt|Hge];
    [|reflexivity].
  exfalso. exact (Hstale c eq_refl Hlt).
Qed.

Lemma arrive_cached s r k now c :
  inflightRequests s !! k = None ->
  contentCache s !! k = Some c -> fresh now c ->
  arrive s r k now =
  State (inflightRequests s) (contentCache s) (promises s) (waiters s)
        (responses s ++ [Response r FromCache (Fulfilled (data c))]) now.
Proof.
  intros Hidle Hc Hfr. unfold arrive. rewrite Hidle, Hc.
  destruct (Z.ltb_spec (now - timestamp c) cache_ttl_ms) as [Hlt|Hge];
    [reflexivity|].
  unfold fresh in Hfr. lia.
Qed.

Lemma step_arrive s r rq now :
  (clock s <= now)%Z ->
  step s (Arrive r rq now) = Some (arrive s r (requestKey rq) now).
Proof.
  intros H. cbn [step]. destruct (Z.ltb_spec now (clock s)); [lia|reflexivity].
Qed.

(** Requests that arrive while their key is registered all suspend on
    the registered promise; no generation body is started. *)
Lemma arrivals_join k p l : forall s t,
  inflightRequests s !! k = Some p -> (clock s <= t)%Z ->
  Forall (fun a => requestKey a.1.2 = k) l ->
  exists s',
    run s (arrivals t l) = Some s' /\
    inflightRequests s' = inflightRequests s /\
    contentCache s' = contentCache s /\
    promises s' = promises s /\
    responses s' = responses s /\
    waiters s' = waiters s ++ map (fun a => (a.1.1, p)) l /\
    (clock s' <= last_arrival t l)%Z.
Proof.
  induction l as [|[[r rq] d] rest IH]; intros s t Hin Hclk Hall.
  - exists s. cbn. rewrite app_nil_r. auto 10.
  - apply Forall_cons in Hall as [Hk Hrest]. cbn [fst snd] in Hk.
    cbn [arrivals run last_arrival]. rewrite step_arrive by lia.
    rewrite Hk, (arrive_join s r _ _ p Hin).
    edestruct (IH (State (inflightRequests s) (contentCache s) (promises s)
                         (waiters s ++ [(r, p)]) (responses s)
                         (t + Z.of_N d)) (t + Z.of_N d))
      as (s' & Hrun & H1 & H2 & H3 & H4 & H5 & H6);
      [exact Hin|cbn; lia|exact Hrest|].
    exists s'. split; [exact Hrun|]. cbn in H1, H2, H3, H4, H5.
    rewrite H5, <- app_assoc. auto 10.
Qed.

Lemma run_app evs1 : forall s evs2,
  run s (evs1 ++ evs2) =
  match run s evs1 with Some s1 => run s1 evs2 | None => None end.
Proof.
  induction evs1 as [|ev rest IH]; intros s evs2; [reflexivity|].
  cbn [app run]. destruct (step s ev); [apply IH|reflexivity].
Qed.

(** Coalesced callers of a settled promise resume one after another,
    each answered with the promise's outcome. *)
Lemma resume_waiters p pr o ws : forall s pre,
  waiters s = pre ++ map (fun w => (w, p)) ws ->
  promises s !! p = Some pr -> p_status pr = Settled o ->
  exists s',
    run s (repeat (ResumeWaiter (length pre)) (length ws)) = Some s' /\
    responses s' = responses s ++ map (fun w => Response w (FromPromise p) o) ws /\
    waiters s' = pre /\
    inflightRequests s' = inflightRequests s /\
    contentCache s' = contentCache s /\
    promises s' = promises s.
Proof.
  induction ws as [|w ws IH]; intros s pre Hw Hp Hs.
  - exists s. cbn in *. rewrite !app_nil_r in *. auto 10.
  - cbn [length repeat run step map] in *.
    rewrite Hw, list_lookup_middle by reflexivity. rewrite Hp, Hs.
    destruct (IH (resume_waiter s (length pre) w p o) pre)
      as (s' & Hrun & H1 & H2 & H3 & H4 & H5).
    + unfold resume_waiter. cbn [waiters]. rewrite Hw.
      apply delete_middle.
    + exact Hp.
    + exact Hs.
    + exists s'. split; [exact Hrun|].
      split; [rewrite H1; unfold resume_waiter; cbn [responses];
              rewrite <- app_assoc; reflexivity|].
      split; [exact H2|].
      split; [rewrite H3; reflexivity|].
      split; [rewrite H4; reflexivity|rewrite H5; reflexivity].
Qed.

Lemma produced_start s r k now :
  produced (start s r k now) k = S (produced s k).
Proof.
  unfold produced, start. cbn [promises].
  rewrite List.filter_app, length_app. cbn [List.filter p_key].
  rewrite String.eqb_refl. cbn. lia.
Qed.

Lemma filter_key_update (f : promise -> bool) (l : list promise) : forall p x pr,
  l !! p = Some pr -> f x = f pr ->
  length (List.filter f (<[p := x]> l)) = length (List.filter f l).
Proof.
  induction l as [|y l IH]; intros p x pr Hp Hf; [discriminate Hp|].
  destruct p as [|p].
  - injection Hp as ->. change (<[0%nat := x]> (pr :: l)) with (x :: l).
    cbn [List.filter]. rewrite Hf. destruct (f pr); reflexivity.
  - change (<[S p := x]> (y :: l)) with (y :: <[p := x]> l).
    change ((y :: l) !! S p) with (l !! p) in Hp.
    cbn [List.filter]. specialize (IH p x pr Hp Hf).
    destruct (f y); cbn [length]; rewrite IH; reflexivity.
Qed.

(** A burst of requests for an idle key that is not freshly cached: one
    generation body is started, every request waits on it, and when it
    settles the owner and the coalesced callers are all answered with
    its outcome. *)
Lemma burst_is_served_by_one_generation s k r rq now rest settled insertOne t :
  requestKey rq = k ->
  (clock s <= now)%Z ->
  Forall (fun a => requestKey a.1.2 = k) rest ->
  (last_arrival now rest <= t)%Z ->
  inflightRequests s !! k = None ->
  (forall c, contentCache s !! k = Some c -> ~ fresh now c) ->
  let p0 := length (promises s) in
  let o := generation_result settled insertOne in
  exists s1 s2,
    run s (Arrive r rq now :: arrivals now rest) = Some s1 /\
    promises s1 = promises s ++ [Promise k r Pending false] /\
    produced s1 k = S (produced s k) /\
    waiters s1 = waiters s ++ map (fun a => (a.1.1, p0)) rest /\
    responses s1 = responses s /\
    run s1 (BodyDone p0 settled insertOne t :: ResumeOwner p0 ::
            repeat (ResumeWaiter (length (waiters s))) (length rest)) = Some s2 /\
    responses s2 =
      responses s ++ Response r (FromPromise p0) o ::
                     map (fun a => Response a.1.1 (FromPromise p0) o) rest /\
    produced s2 k = S (produced s k) /\
    inflightRequests s2 !! k = None.
Proof.
  intros Hk Hclk Hall Ht Hidle Hstale p0 o.
  destruct (arrivals_join k p0 rest (start s r k now) now)
    as (s1 & Hrun1 & I1 & C1 & P1 & R1 & W1 & K1).
  { unfold start. cbn [inflightRequests]. apply lookup_insert_eq. }
  { unfold start. cbn [clock]. lia. }
  { exact Hall. }
  unfold start in I1, C1, P1, R1, W1.
  cbn [inflightRequests contentCache promises responses waiters] in I1, C1, P1, R1, W1.
  fold p0 in I1.
  set (P := Promise k r Pending false) in *.
  assert (Hp0 : promises s1 !! p0 = Some P)
    by (rewrite P1; apply list_lookup_middle; reflexivity).
  set (sb := body_done s1 p0 P o t).
  set (P' := Promise k r (Settled o) false).
  assert (Hpb : promises sb !! p0 = Some P')
    by (unfold sb, body_done; cbn [promises]; exact (lookup_update_eq _ _ _ _ Hp0)).
  set (so := resume_owner sb p0 P' o).
  destruct (resume_waiters p0 (Promise k r (Settled o) true) o
              (map (fun a => a.1.1) rest) so (waiters s))
    as (s2 & Hrun2 & R2 & W2 & I2 & C2 & P2).
  { unfold so, resume_owner, sb, body_done. cbn [waiters].
    rewrite W1, map_map. reflexivity. }
  { unfold so, resume_owner. cbn [promises]. exact (lookup_update_eq _ _ _ _ Hpb). }
  { reflexivity. }
  rewrite length_map in Hrun2.
  exists s1, s2.
  split. { cbn [run]. rewrite step_arrive by exact Hclk.
           rewrite Hk, (arrive_start s r k now Hidle Hstale). exact Hrun1. }
  split; [exact P1|].
  split. { unfold produced. rewrite P1. exact (produced_start s r k now). }
  split; [exact W1|]. split; [exact R1|].
  split. { cbn [run step]. destruct (Z.ltb_spec t (clock s1)); [lia|].
           rewrite Hp0. cbn [p_status P]. fold o. fold sb.
           rewrite Hpb. cbn [p_status p_finalized P']. exact Hrun2. }
  split. { rewrite R2. unfold so, resume_owner, sb, body_done.
           cbn [responses p_owner P']. rewrite R1, map_map, <- app_assoc.
           reflexivity. }
  split. { unfold produced. rewrite P2. unfold so, resume_owner, sb, body_done.
           cbn [promises].
           rewrite (filter_key_update _ _ p0 _ P');
             [|exact (lookup_update_eq _ _ _ _ Hp0)|reflexivity].
           rewrite (filter_key_update _ _ p0 _ P); [|exact Hp0|reflexivity].
           rewrite P1. exact (produced_start s r k now). }
  rewrite I2. unfold so, resume_owner. cbn [inflightRequests p_key P'].
  apply lookup_delete_eq.
Qed.

(** C2.  In every state the event loop reaches: (1) at most one
    generation body is running for a key; (2) a request that arrives for
    a key whose generation is running suspends on that promise and no
    body is started; (3) when N+1 requests with one fingerprint arrive,
    the key being idle and not freshly cached, exactly one body is
    started, every one of them waits on it, and once it has settled each
    of the N+1 callers is answered with its one outcome, result or
    error; (4) all responses drawn from one promise carry the same
    result or the same error. *)
Theorem coalescing_runs_generation_once
    (evs : list event) (s : state) (k : string)
    (r : N) (rq : request) (now : Z) (rest : list (N * request * N))
    (settled : list (string * option string)) (insertOne : string + N)
    (t : Z) :
  run init evs = Some s ->
  requestKey rq = k ->
  (clock s <= now)%Z ->
  Forall (fun a => requestKey a.1.2 = k) rest ->
  (last_arrival now rest <= t)%Z ->
  (forall p1 p2, running s p1 k -> running s p2 k -> p1 = p2) /\
  (forall p, running s p k ->
     exists s', step s (Arrive r rq now) = Some s' /\
                promises s' = promises s /\
                waiters s' = waiters s ++ [(r, p)] /\
                responses s' = responses s) /\
  (inflightRequests s !! k = None ->
   (forall c, contentCache s !! k = Some c -> ~ fresh now c) ->
   let p0 := length (promises s) in
   let o := generation_result settled insertOne in
   exists s1 s2,
     run s (Arrive r rq now :: arrivals now rest) = Some s1 /\
     promises s1 = promises s ++ [Promise k r Pending false] /\
     produced s1 k = S (produced s k) /\
     waiters s1 = waiters s ++ map (fun a => (a.1.1, p0)) rest /\
     responses s1 = responses s /\
     run s1 (BodyDone p0 settled insertOne t :: ResumeOwner p0 ::
             repeat (ResumeWaiter (length (waiters s))) (length rest)) = Some s2 /\
     responses s2 =
       responses s ++ Response r (FromPromise p0) o ::
                      map (fun a => Response a.1.1 (FromPromise p0) o) rest /\
     produced s2 k = S (produced s k) /\
     inflightRequests s2 !! k = None) /\
  (forall resp1 resp2 p,
     resp1 ∈ responses s -> resp2 ∈ responses s ->
     r_source resp1 = FromPromise p -> r_source resp2 = FromPromise p ->
     r_body resp1 = r_body resp2).
Proof.
  intros Hrun Hk Hclk Hall Ht.
  pose proof (run_invariant evs init s init_invariant Hrun) as Hinv.
  split; [|split; [|split]].
  - intros p1 p2. apply running_unique, Hinv.
  - intros p (pr & Hp & Hkey & Hs).
    pose proof (running_registered s p pr Hinv Hp Hs) as Hreg.
    rewrite Hkey in Hreg.
    eexists. split; [apply step_arrive, Hclk|].
    rewrite Hk, (arrive_join s r k now p Hreg). cbn. auto.
  - intros Hidle Hstale.
    apply burst_is_served_by_one_generation; assumption.
  - intros resp1 resp2 p H1 H2 S1 S2.
    destruct (inv_responses s Hinv resp1 p H1 S1) as (pr1 & Hp1 & Hb1).
    destruct (inv_responses s Hinv resp2 p H2 S2) as (pr2 & Hp2 & Hb2).
    congruence.
Qed.

Lemma coalescing_runs_generation_once_witness :
  let evs := one_in_flight in
  let s := state_after one_in_flight in
  let k := requestKey summary_request in
  let r := 2%N in
  let rq := summary_request_reordered in
  let now := 5%Z in
  let rest := [(3%N, summary_request, 1%N)] in
  let settled := [("summary", Some "S")] in
  let insertOne := @inr string N 77%N in
  let t := 9%Z in
  (forall p1 p2, running s p1 k -> running s p2 k -> p1 = p2) /\
  (forall p, running s p k ->
     exists s', step s (Arrive r rq now) = Some s' /\
                promises s' = promises s /\
                waiters s' = waiters s ++ [(r, p)] /\
                responses s' = responses s) /\
  (inflightRequests s !! k = None ->
   (forall c, contentCache s !! k = Some c -> ~ fresh now c) ->
   let p0 := length (promises s) in
   let o := generation_result settled insertOne in
   exists s1 s2,
     run s (Arrive r rq now :: arrivals now rest) = Some s1 /\
     promises s1 = promises s ++ [Promise k r Pending false] /\
     produced s1 k = S (produced s k) /\
     waiters s1 = waiters s ++ map (fun a => (a.1.1, p0)) rest /\
     responses s1 = responses s /\
     run s1 (BodyDone p0 settled insertOne t :: ResumeOwner p0 ::
             repeat (ResumeWaiter (length (waiters s))) (length rest)) = Some s2 /\
     responses s2 =
       responses s ++ Response r (FromPromise p0) o ::
                      map (fun a => Response a.1.1 (FromPromise p0) o) rest /\
     produced s2 k = S (produced s k) /\
     inflightRequests s2 !! k = None) /\
  (forall resp1 resp2 p,
     resp1 ∈ responses s -> resp2 ∈ responses s ->
     r_source resp1 = FromPromise p -> r_source resp2 = FromPromise p ->
     r_body resp1 = r_body resp2).
Proof.
  intros evs s k r rq now rest settled insertOne t.
  apply (coalescing_runs_generation_once evs s k r rq now rest settled insertOne t).
  - vm_compute. reflexivity.
  - vm_compute. reflexivity.
  - vm_compute. discriminate.
  - repeat constructor.
  - vm_compute. discriminate.
Defined.

(** *** Settled promises stay settled *)

Lemma arrive_keeps_promises s r k now p pr :
  promises s !! p = Some pr -> promises (arrive s r k now) !! p = Some pr.
Proof.
  intros Hp. unfold arrive, start.
  destruct (inflightRequests s !! k); [exact Hp|].
  destruct (contentCache s !! k) as [c|];
    [destruct (now - timestamp c <? cache_ttl_ms)%Z|];
    cbn [promises]; try exact Hp; apply lookup_snoc_old, Hp.
Qed.

Lemma step_settled_stable s ev s' p pr o :
  promises s !! p = Some pr -> p_status pr = Settled o ->
  step s ev = Some s' ->
  exists pr', promises s' !! p = Some pr' /\ p_key pr' = p_key pr /\
              p_status pr' = Settled o.
Proof.
  intros Hp Hs Hstep.
  destruct ev as [r rq now|q settled ins now|q|i|now]; cbn [step] in Hstep.
  - destruct (now <? clock s)%Z; [discriminate|]. injection Hstep as <-.
    exists pr. split; [apply arrive_keeps_promises, Hp|auto].
  - destruct (now <? clock s)%Z; [discriminate|].
    destruct (promises s !! q) as [pq|] eqn:Hq; [|discriminate].
    destruct (p_status pq) eqn:Hsq; [|discriminate].
    injection Hstep as <-. exists pr. unfold body_done. cbn [promises].
    rewrite lookup_update_ne; [auto|]. intros ->. congruence.
  - destruct (promises s !! q) as [pq|] eqn:Hq; [|discriminate].
    destruct (p_status pq) as [|oq] eqn:Hsq; [discriminate|].
    destruct (p_finalized pq); [discriminate|].
    injection Hstep as <-. unfold resume_owner. cbn [promises].
    destruct (decide (p = q)) as [->|Hne].
    + eexists. split; [eapply lookup_update_eq, Hq|].
      assert (pq = pr) as -> by congruence. cbn. auto.
    + exists pr. rewrite lookup_update_ne by exact Hne. auto.
  - destruct (waiters s !! i) as [[r q]|]; [|discriminate].
    destruct (promises s !! q) as [pq|]; [|discriminate].
    destruct (p_status pq); [discriminate|].
    injection Hstep as <-. exists pr. auto.
  - destruct (now <? clock s)%Z; [discriminate|]. injection Hstep as <-.
    exists pr. auto.
Qed.

Lemma run_settled_stable evs : forall s s' p pr o,
  promises s !! p = Some pr -> p_status pr = Settled o ->
  run s evs = Some s' ->
  exists pr', promises s' !! p = Some pr' /\ p_key pr' = p_key pr /\
              p_status pr' = Settled o.
Proof.
  induction evs as [|ev rest IH]; intros s s' p pr o Hp Hs Hrun;
    cbn [run] in Hrun.
  - injection Hrun as <-. exists pr. auto.
  - destruct (step s ev) as [s1|] eqn:Hstep; [|discriminate].
    destruct (step_settled_stable s ev s1 p pr o Hp Hs Hstep)
      as (pr1 & Hp1 & Hk1 & Hs1).
    destruct (IH s1 s' p pr1 o Hp1 Hs1 Hrun) as (pr2 & Hp2 & Hk2 & Hs2).
    exists pr2. split; [exact Hp2|]. split; congruence.
Qed.

Lemma running_not_fresh s p pr now c :
  invariant s -> promises s !! p = Some pr -> p_status pr = Pending ->
  (clock s <= now)%Z ->
  contentCache s !! p_key pr = Some c -> ~ fresh now c.
Proof.
  intros Hinv Hp Hs Hclk Hc Hfr.
  pose proof (running_registered s p pr Hinv Hp Hs) as Hreg.
  destruct (inv_fresh s Hinv _ _ c Hreg Hc (fresh_mono _ _ _ Hclk Hfr))
    as (pr1 & Hp1 & Hs1).
  congruence.
Qed.

(** When the generation promise body rejects.  For a generation running
    in a reachable state: whatever the body's result, the owner's
    continuation responds with it and leaves no in-flight entry for the
    key.  When the body rejects, the content cache is what it was; every
    coalesced caller that resumes, then or in any later state, is
    answered with that same error; and once the owner has resumed, a new
    request for the key starts the generation body again.  In every
    reachable state a cache entry holds the result of a fulfilled
    promise. *)
Lemma rejected_body_is_released_and_not_cached
    (evs : list event) (s : state) (p : nat) (pr : promise)
    (settled : list (string * option string)) (insertOne : string + N)
    (error : string) (now now' : Z) (r : N) (rq : request) :
  run init evs = Some s ->
  promises s !! p = Some pr ->
  p_status pr = Pending ->
  (clock s <= now)%Z ->
  (now <= now')%Z ->
  requestKey rq = p_key pr ->
  (exists s1 s2,
     step s (BodyDone p settled insertOne now) = Some s1 /\
     step s1 (ResumeOwner p) = Some s2 /\
     responses s2 = responses s ++
       [Response (p_owner pr) (FromPromise p)
                 (generation_result settled insertOne)] /\
     inflightRequests s2 !! p_key pr = None) /\
  (exists s1 s2 s3,
     step s (BodyDone p settled (inl error) now) = Some s1 /\
     contentCache s1 = contentCache s /\
     (forall i w, waiters s1 !! i = Some (w, p) ->
        exists s', step s1 (ResumeWaiter i) = Some s' /\
                   responses s' = responses s1 ++
                     [Response w (FromPromise p) (Rejected error)]) /\
     (forall evs' s' resp,
        run s1 evs' = Some s' -> resp ∈ responses s' ->
        r_source resp = FromPromise p -> r_body resp = Rejected error) /\
     step s1 (ResumeOwner p) = Some s2 /\
     inflightRequests s2 !! p_key pr = None /\
     contentCache s2 = contentCache s /\
     step s2 (Arrive r rq now') = Some s3 /\
     promises s3 = promises s2 ++ [Promise (p_key pr) r Pending false] /\
     produced s3 (p_key pr) = S (produced s (p_key pr))) /\
  (forall k c, contentCache s !! k = Some c ->
     exists q pq, promises s !! q = Some pq /\ p_key pq = k /\
                  p_status pq = Settled (Fulfilled (data c))).
Proof.
  intros Hrun Hp Hs Hclk Hclk' Hk.
  pose proof (run_invariant evs init s init_invariant Hrun) as Hinv.
  pose proof (inv_pending s Hinv p pr Hp Hs) as Hfin.
  assert (Hbody : forall ins,
            step s (BodyDone p settled ins now) =
            Some (body_done s p pr (generation_result settled ins) now)).
  { intros ins. cbn [step]. destruct (Z.ltb_spec now (clock s)); [lia|].
    rewrite Hp, Hs. reflexivity. }
  assert (Howner : forall ins,
            let s1 := body_done s p pr (generation_result settled ins) now in
            let pr1 := Promise (p_key pr) (p_owner pr)
                         (Settled (generation_result settled ins)) (p_finalized pr) in
            promises s1 !! p = Some pr1 /\
            step s1 (ResumeOwner p) =
              Some (resume_owner s1 p pr1 (generation_result settled ins))).
  { intros ins s1 pr1.
    assert (H1 : promises s1 !! p = Some pr1)
      by (unfold s1, body_done; cbn [promises]; eapply lookup_update_eq, Hp).
    split; [exact H1|]. cbn [step]. rewrite H1. unfold pr1.
    cbn [p_status p_finalized]. rewrite Hfin. reflexivity. }
  split; [|split].
  - destruct (Howner insertOne) as [H1 H2].
    eexists _, _. split; [apply Hbody|]. split; [exact H2|].
    unfold resume_owner, body_done.
    cbn [responses inflightRequests p_key]. split; [reflexivity|].
    apply lookup_delete_eq.
  - destruct (Howner (inl error)) as [H1 H2].
    change (generation_result settled (inl error)) with (Rejected error) in *.
    set (s1 := body_done s p pr (Rejected error) now) in *.
    set (pr1 := Promise (p_key pr) (p_owner pr) (Settled (Rejected error))
                        (p_finalized pr)) in *.
    assert (Hinv1 : invariant s1)
      by (apply body_done_invariant; assumption).
    set (s2 := resume_owner s1 p pr1 (Rejected error)).
    assert (Hidle : inflightRequests s2 !! p_key pr = None)
      by (unfold s2, resume_owner; cbn [inflightRequests pr1 p_key];
          apply lookup_delete_eq).
    assert (Hstale : forall c, contentCache s2 !! p_key pr = Some c ->
                               ~ fresh now' c).
    { intros c Hc. apply (running_not_fresh s p pr now' c Hinv Hp Hs);
        [lia|exact Hc]. }
    exists s1, s2, (start s2 r (p_key pr) now').
    split; [apply Hbody|]. split; [reflexivity|].
    split; [|split; [|split; [exact H2|split; [exact Hidle|split;
      [reflexivity|split; [|split; [reflexivity|]]]]]]].
    + intros i w Hw. eexists. cbn [step]. rewrite Hw, H1.
      cbn [p_status pr1]. split; reflexivity.
    + intros evs' s' resp Hrun' Hin Hsrc.
      pose proof (run_invariant evs' s1 s' Hinv1 Hrun') as Hinv'.
      destruct (run_settled_stable evs' s1 s' p pr1 (Rejected error)
                  H1 eq_refl Hrun') as (pr' & Hp' & _ & Hs').
      destruct (inv_responses s' Hinv' resp p Hin Hsrc) as (pr2 & Hp2 & Hs2).
      congruence.
    + rewrite step_arrive by (unfold s2, resume_owner, s1, body_done; cbn; lia).
      rewrite Hk, (arrive_start s2 r (p_key pr) now' Hidle Hstale). reflexivity.
    + rewrite produced_start. f_equal.
      unfold produced, s2, resume_owner, s1, body_done. cbn [promises].
      rewrite (filter_key_update _ _ p _ pr1);
        [|eapply lookup_update_eq, Hp|reflexivity].
      rewrite (filter_key_update _ _ p _ pr); [reflexivity|exact Hp|reflexivity].
  - intros k c Hc. exact (inv_cache s Hinv k c Hc).
Qed.

Lemma all_tasks_rejected (settled : list (string * option string)) :
  Forall (fun task => task.2 = None) settled -> fulfilled_tasks settled = [].
Proof.
  unfold fulfilled_tasks. induction 1 as [|[k r] l Hr _ IH]; [reflexivity|].
  cbn [snd] in Hr. subst r. cbn [omap]. exact IH.
Qed.

(** When tasks of the body reject.  For a generation running in a
    reachable state whose tasks settle in any way, rejected ones
    included, and whose database insert succeeds: the body is fulfilled
    with the content of the fulfilled tasks only, that result is written
    to the content cache, the owner and every coalesced caller are
    answered with it, and, the in-flight entry being removed, a request
    for the key arriving before the entry is as old as the time to live
    is answered from the cache: no generation body is started for
    it. *)
Lemma failed_tasks_are_absorbed_and_cached
    (evs : list event) (s : state) (p : nat) (pr : promise)
    (settled : list (string * option string)) (insertedId : N)
    (now soon : Z) (r : N) (rq : request) :
  run init evs = Some s ->
  promises s !! p = Some pr ->
  p_status pr = Pending ->
  (clock s <= now)%Z ->
  (now <= soon)%Z ->
  (soon - now < cache_ttl_ms)%Z ->
  requestKey rq = p_key pr ->
  (exists s1 s2 s3,
     step s (BodyDone p settled (inr insertedId) now) = Some s1 /\
     contentCache s1 !! p_key pr =
       Some (CacheEntry (ResponseData insertedId (fulfilled_tasks settled)) now) /\
     (forall i w, waiters s1 !! i = Some (w, p) ->
        exists s', step s1 (ResumeWaiter i) = Some s' /\
                   responses s' = responses s1 ++
                     [Response w (FromPromise p)
                        (Fulfilled (ResponseData insertedId (fulfilled_tasks settled)))]) /\
     step s1 (ResumeOwner p) = Some s2 /\
     responses s2 = responses s ++
       [Response (p_owner pr) (FromPromise p)
          (Fulfilled (ResponseData insertedId (fulfilled_tasks settled)))] /\
     inflightRequests s2 !! p_key pr = None /\
     step s2 (Arrive r rq soon) = Some s3 /\
     responses s3 = responses s2 ++
       [Response r FromCache
          (Fulfilled (ResponseData insertedId (fulfilled_tasks settled)))] /\
     promises s3 = promises s2 /\
     produced s3 (p_key pr) = produced s (p_key pr)) /\
  (Forall (fun task => task.2 = None) settled -> fulfilled_tasks settled = []).
Proof.
  intros Hrun Hp Hs Hclk Hsoon Httl Hk.
  split; [|apply all_tasks_rejected].
  pose proof (run_invariant evs init s init_invariant Hrun) as Hinv.
  pose proof (inv_pending s Hinv p pr Hp Hs) as Hfin.
  set (d := ResponseData insertedId (fulfilled_tasks settled)).
  change (generation_result settled (inr insertedId)) with (Fulfilled d).
  set (s1 := body_done s p pr (Fulfilled d) now).
  set (pr1 := Promise (p_key pr) (p_owner pr) (Settled (Fulfilled d))
                      (p_finalized pr)).
  set (s2 := resume_owner s1 p pr1 (Fulfilled d)).
  assert (Hbody : step s (BodyDone p settled (inr insertedId) now) = Some s1).
  { cbn [step]. destruct (Z.ltb_spec now (clock s)); [lia|].
    rewrite Hp, Hs. reflexivity. }
  assert (H1 : promises s1 !! p = Some pr1)
    by (unfold s1, body_done; cbn [promises]; eapply lookup_update_eq, Hp).
  assert (Howner : step s1 (ResumeOwner p) = Some s2).
  { cbn [step]. rewrite H1. unfold pr1. cbn [p_status p_finalized].
    rewrite Hfin. reflexivity. }
  assert (Hcache : contentCache s2 !! p_key pr = Some (CacheEntry d now))
    by (unfold s2, resume_owner, s1, body_done; cbn [contentCache];
        apply lookup_insert_eq).
  assert (Hidle : inflightRequests s2 !! p_key pr = None)
    by (unfold s2, resume_owner; cbn [inflightRequests pr1 p_key];
        apply lookup_delete_eq).
  assert (Hfresh : fresh soon (CacheEntry d now))
    by (unfold fresh; cbn [timestamp]; exact Httl).
  exists s1, s2, (arrive s2 r (p_key pr) soon).
  split; [exact Hbody|].
  split; [unfold s1, body_done; cbn [contentCache]; apply lookup_insert_eq|].
  split.
  { intros i w Hw. eexists. cbn [step]. rewrite Hw, H1.
    cbn [p_status pr1]. split; reflexivity. }
  split; [exact Howner|]. split; [reflexivity|]. split; [exact Hidle|].
  split.
  { rewrite step_arrive by (unfold s2, resume_owner, s1, body_done; cbn; lia).
    rewrite Hk. reflexivity. }
  rewrite (arrive_cached s2 r (p_key pr) soon _ Hidle Hcache Hfresh).
  cbn [responses promises data]. split; [reflexivity|]. split; [reflexivity|].
  unfold produced. cbn [promises].
  unfold s2, resume_owner, s1, body_done. cbn [promises].
  rewrite (filter_key_update _ _ p _ pr1);
    [|eapply lookup_update_eq, Hp|reflexivity].
  rewrite (filter_key_update _ _ p _ pr); [reflexivity|exact Hp|reflexivity].
Qed.

(** C7.  Failure of the generation promise body and failure of its
    tasks are handled differently.  For a generation running in a
    reachable state, the in-flight entry is removed by the owner's
    continuation whatever the body's result.  When the body rejects
    (its database insert throws), the error reaches the owner and every
    coalesced caller, nothing is written to the content cache, and the
    next request for the key starts the body again.  When tasks of the
    body reject (a content generation fails), even all of them, and the
    insert succeeds, the body is fulfilled with the content of the
    fulfilled tasks only, no caller receives an error, that result is
    cached, and a request for the key arriving within the time to live
    is answered from the cache without the body being started. *)
Theorem body_rejection_is_released_task_failure_is_cached
    (evs : list event) (s : state) (p : nat) (pr : promise)
    (settled : list (string * option string)) (insertOne : string + N)
    (error : string) (insertedId : N) (now now' soon : Z)
    (r : N) (rq : request) :
  run init evs = Some s ->
  promises s !! p = Some pr ->
  p_status pr = Pending ->
  (clock s <= now)%Z ->
  (now <= now')%Z ->
  (now <= soon)%Z ->
  (soon - now < cache_ttl_ms)%Z ->
  requestKey rq = p_key pr ->
  (exists s1 s2,
     step s (BodyDone p settled insertOne now) = Some s1 /\
     step s1 (ResumeOwner p) = Some s2 /\
     responses s2 = responses s ++
       [Response (p_owner pr) (FromPromise p)
                 (generation_result settled insertOne)] /\
     inflightRequests s2 !! p_key pr = None) /\
  (exists s1 s2 s3,
     step s (BodyDone p settled (inl error) now) = Some s1 /\
     contentCache s1 = contentCache s /\
     (forall i w, waiters s1 !! i = Some (w, p) ->
        exists s', step s1 (ResumeWaiter i) = Some s' /\
                   responses s' = responses s1 ++
                     [Response w (FromPromise p) (Rejected error)]) /\
     (forall evs' s' resp,
        run s1 evs' = Some s' -> resp ∈ responses s' ->
        r_source resp = FromPromise p -> r_body resp = Rejected error) /\
     step s1 (ResumeOwner p) = Some s2 /\
     inflightRequests s2 !! p_key pr = None /\
     contentCache s2 = contentCache s /\
     step s2 (Arrive r rq now') = Some s3 /\
     promises s3 = promises s2 ++ [Promise (p_key pr) r Pending false] /\
     produced s3 (p_key pr) = S (produced s (p_key pr))) /\
  (forall k c, contentCache s !! k = Some c ->
     exists q pq, promises s !! q = Some pq /\ p_key pq = k /\
                  p_status pq = Settled (Fulfilled (data c))) /\
  (exists s1 s2 s3,
     step s (BodyDone p settled (inr insertedId) now) = Some s1 /\
     contentCache s1 !! p_key pr =
       Some (CacheEntry (ResponseData insertedId (fulfilled_tasks settled)) now) /\
     (forall i w, waiters s1 !! i = Some (w, p) ->
        exists s', step s1 (ResumeWaiter i) = Some s' /\
                   responses s' = responses s1 ++
                     [Response w (FromPromise p)
                        (Fulfilled (ResponseData insertedId (fulfilled_tasks settled)))]) /\
     step s1 (ResumeOwner p) = Some s2 /\
     responses s2 = responses s ++
       [Response (p_owner pr) (FromPromise p)
          (Fulfilled (ResponseData insertedId (fulfilled_tasks settled)))] /\
     inflightRequests s2 !! p_key pr = None /\
     step s2 (Arrive r rq soon) = Some s3 /\
     responses s3 = responses s2 ++
       [Response r FromCache
          (Fulfilled (ResponseData insertedId (fulfilled_tasks settled)))] /\
     promises s3 = promises s2 /\
     produced s3 (p_key pr) = produced s (p_key pr)) /\
  (Forall (fun task => task.2 = None) settled -> fulfilled_tasks settled = []).
Proof.
  intros Hrun Hp Hs Hclk Hclk' Hsoon Httl Hk.
  destruct (rejected_body_is_released_and_not_cached
              evs s p pr settled insertOne error now now' r rq
              Hrun Hp Hs Hclk Hclk' Hk) as (Hany & Hrejected & Hcached).
  destruct (failed_tasks_are_absorbed_and_cached
              evs s p pr settled insertedId now soon r rq
              Hrun Hp Hs Hclk Hsoon Httl Hk) as (Habsorbed & Hnone).
  split; [exact Hany|]. split; [exact Hrejected|]. split; [exact Hcached|].
  split; [exact Habsorbed|exact Hnone].
Qed.

Lemma body_rejection_is_released_task_failure_is_cached_witness :
  let evs := one_in_flight in
  let s := state_after one_in_flight in
  let p := 0%nat in
  let pr := Promise (requestKey summary_request) 1 Pending false in
  let settled := [("summary", Some "S"); ("studyPlan", None)] in
  let insertOne := @inl string N "write failed" in
  let error := "write failed"%string in
  let insertedId := 77%N in
  let now := 10%Z in
  let now' := 20%Z in
  let soon := 20%Z in
  let r := 2%N in
  let rq := summary_request_reordered in
  (exists s1 s2,
     step s (BodyDone p settled insertOne now) = Some s1 /\
     step s1 (ResumeOwner p) = Some s2 /\
     responses s2 = responses s ++
       [Response (p_owner pr) (FromPromise p)
                 (generation_result settled insertOne)] /\
     inflightRequests s2 !! p_key pr = None) /\
  (exists s1 s2 s3,
     step s (BodyDone p settled (inl error) now) = Some s1 /\
     contentCache s1 = contentCache s /\
     (forall i w, waiters s1 !! i = Some (w, p) ->
        exists s', step s1 (ResumeWaiter i) = Some s' /\
                   responses s' = responses s1 ++
                     [Response w (FromPromise p) (Rejected error)]) /\
     (forall evs' s' resp,
        run s1 evs' = Some s' -> resp ∈ responses s' ->
        r_source resp = FromPromise p -> r_body resp = Rejected error) /\
     step s1 (ResumeOwner p) = Some s2 /\
     inflightRequests s2 !! p_key pr = None /\
     contentCache s2 = contentCache s /\
     step s2 (Arrive r rq now') = Some s3 /\
     promises s3 = promises s2 ++ [Promise (p_key pr) r Pending false] /\
     produced s3 (p_key pr) = S (produced s (p_key pr))) /\
  (forall k c, contentCache s !! k = Some c ->
     exists q pq, promises s !! q = Some pq /\ p_key pq = k /\
                  p_status pq = Settled (Fulfilled (data c))) /\
  (exists s1 s2 s3,
     step s (BodyDone p settled (inr insertedId) now) = Some s1 /\
     contentCache s1 !! p_key pr =
       Some (CacheEntry (ResponseData insertedId (fulfilled_tasks settled)) now) /\
     (forall i w, waiters s1 !! i = Some (w, p) ->
        exists s', step s1 (ResumeWaiter i) = Some s' /\
                   responses s' = responses s1 ++
                     [Response w (FromPromise p)
                        (Fulfilled (ResponseData insertedId (fulfilled_tasks settled)))]) /\
     step s1 (ResumeOwner p) = Some s2 /\
     responses s2 = responses s ++
       [Response (p_owner pr) (FromPromise p)
          (Fulfilled (ResponseData insertedId (fulfilled_tasks settled)))] /\
     inflightRequests s2 !! p_key pr = None /\
     step s2 (Arrive r rq soon) = Some s3 /\
     responses s3 = responses s2 ++
       [Response r FromCache
          (Fulfilled (ResponseData insertedId (fulfilled_tasks settled)))] /\
     promises s3 = promises s2 /\
     produced s3 (p_key pr) = produced s (p_key pr)) /\
  (Forall (fun task => task.2 = None) settled -> fulfilled_tasks settled = []).
Proof.
  intros evs s p pr settled insertOne error insertedId now now' soon r rq.
  apply (body_rejection_is_released_task_failure_is_cached
           evs s p pr settled insertOne error insertedId now now' soon r rq).
  - vm_compute. reflexivity.
  - vm_compute. reflexivity.
  - reflexivity.
  - vm_compute. discriminate.
  - vm_compute. discriminate.
  - vm_compute. discriminate.
  - vm_compute. reflexivity.
  - vm_compute. reflexivity.
Defined.

(** C7, as stated, fails when what fails is the generation itself: with
    every content generation task rejected, the body is fulfilled with
    empty content; the two coalesced callers are answered with it, not
    with an error; it is written to the content cache; and the request
    that retries ten seconds later is answered from the cache, the
    body having run once. *)
Lemma failed_generation_is_cached_and_served :
  let evs := [Arrive 1 summary_request 0;
              Arrive 2 summary_request_reordered 1;
              BodyDone 0 [("summary", None); ("studyPlan", None)] (inr 77%N) 10;
              ResumeOwner 0; ResumeWaiter 0;
              Arrive 3 summary_request 10010] in
  let d := ResponseData 77 [] in
  run init evs = Some (state_after evs) /\
  responses (state_after evs) =
    [Response 1 (FromPromise 0) (Fulfilled d);
     Response 2 (FromPromise 0) (Fulfilled d);
     Response 3 FromCache (Fulfilled d)] /\
  contentCache (state_after evs) !! requestKey summary_request =
    Some (CacheEntry d 10) /\
  produced (state_after evs) (requestKey summary_request) = 1%nat.
Proof. cbv zeta. repeat split; vm_compute; reflexivity. Qed.

(** Three requests with one fingerprint, from an empty registry: one
    promise is created, and all three are answered from it, with the
    result when the body succeeds and with the error when it fails. *)
Example three_requests_one_generation :
  let burst := [Arrive 1 summary_request 0;
                Arrive 2 summary_request_reordered 1;
                Arrive 3 summary_request 2] in
  let served := burst ++ [BodyDone 0 [("summary", Some "S")] (inr 77%N) 10;
                          ResumeOwner 0; ResumeWaiter 0; ResumeWaiter 0] in
  let failed := burst ++ [BodyDone 0 [("summary", Some "S")] (inl "write failed") 10;
                          ResumeWaiter 0; ResumeOwner 0; ResumeWaiter 0] in
  let d := ResponseData 77 [("summary", "S")] in
  length (promises (state_after served)) = 1%nat /\
  responses (state_after served) =
    [Response 1 (FromPromise 0) (Fulfilled d);
     Response 2 (FromPromise 0) (Fulfilled d);
     Response 3 (FromPromise 0) (Fulfilled d)] /\
  length (promises (state_after failed)) = 1%nat /\
  responses (state_after failed) =
    [Response 2 (FromPromise 0) (Rejected "write failed");
     Response 1 (FromPromise 0) (Rejected "write failed");
     Response 3 (FromPromise 0) (Rejected "write failed")] /\
  contentCache (state_after failed) = ∅ /\
  inflightRequests (state_after failed) = ∅.
Proof. cbv zeta. repeat split; vm_compute; reflexivity. Qed.

(** A rejected task is not a failure of the body: the body is fulfilled
    with the content of the tasks that succeeded, and that result is
    cached. *)
Example rejected_task_is_absorbed :
  generation_result [("summary", Some "S"); ("studyPlan", None)] (inr 77%N) =
    Fulfilled (ResponseData 77 [("summary", "S")]) /\
  contentCache (state_after generation_done) !! requestKey summary_request =
    Some (CacheEntry (ResponseData 77 [("summary", "S")]) 10).
Proof. split; vm_compute; reflexivity. Qed.

(** C8.  For a request arriving, in a reachable state, for a key that
    has a cache entry.  If the entry's age has reached the TTL of
    300000 ms the entry is not served: nothing is answered at arrival,
    the generation body is started when no request for the key is in
    flight, and otherwise the request waits on the one in flight.  If
    the entry is younger than the TTL no body is started and the request
    gets the cached value: at once from the cache, or, between the end
    of a body and its owner's cleanup, through the registered promise,
    which is fulfilled with that value.  The sweep keeps exactly the
    entries whose age is at most 300000 ms; it is scheduled every
    600000 ms. *)
Theorem cache_entries_expire
    (evs : list event) (s : state) (r : N) (rq : request) (now : Z)
    (c : cache_entry) :
  run init evs = Some s ->
  (clock s <= now)%Z ->
  contentCache s !! requestKey rq = Some c ->
  (exists s',
     step s (Arrive r rq now) = Some s' /\
     ((cache_ttl_ms <= now - timestamp c)%Z ->
        responses s' = responses s /\
        (inflightRequests s !! requestKey rq = None ->
           promises s' = promises s ++ [Promise (requestKey rq) r Pending false] /\
           produced s' (requestKey rq) = S (produced s (requestKey rq))) /\
        (forall p, inflightRequests s !! requestKey rq = Some p ->
           promises s' = promises s /\ waiters s' = waiters s ++ [(r, p)])) /\
     ((now - timestamp c < cache_ttl_ms)%Z ->
        promises s' = promises s /\
        ((inflightRequests s !! requestKey rq = None /\
          responses s' = responses s ++
            [Response r FromCache (Fulfilled (data c))]) \/
         (exists p pr,
            inflightRequests s !! requestKey rq = Some p /\
            waiters s' = waiters s ++ [(r, p)] /\
            promises s !! p = Some pr /\
            p_status pr = Settled (Fulfilled (data c)))))) /\
  (exists s',
     step s (Sweep now) = Some s' /\
     forall k c', contentCache s' !! k = Some c' <->
                  contentCache s !! k = Some c' /\
                  (now - timestamp c' <= cache_ttl_ms)%Z) /\
  cache_ttl_ms = (5 * 60 * 1000)%Z /\
  sweep_interval_ms = (10 * 60 * 1000)%Z.
Proof.
  intros Hrun Hclk Hc.
  pose proof (run_invariant evs init s init_invariant Hrun) as Hinv.
  set (k := requestKey rq) in *.
  split; [|split; [|split; reflexivity]].
  - exists (arrive s r k now). split; [apply step_arrive, Hclk|]. split.
    + intros Hold.
      assert (Hstale : forall c', contentCache s !! k = Some c' -> ~ fresh now c').
      { intros c' Hc'. assert (c' = c) as -> by congruence.
        unfold fresh. lia. }
      split; [|split].
      * unfold arrive. destruct (inflightRequests s !! k); [reflexivity|].
        rewrite Hc. destruct (Z.ltb_spec (now - timestamp c) cache_ttl_ms);
          [lia|reflexivity].
      * intros Hidle. rewrite (arrive_start s r k now Hidle Hstale).
        split; [reflexivity|apply produced_start].
      * intros p Hin. rewrite (arrive_join s r k now p Hin). split; reflexivity.
    + intros Hyoung.
      destruct (inflightRequests s !! k) as [p|] eqn:Hin.
      * rewrite (arrive_join s r k now p Hin). split; [reflexivity|].
        right.
        destruct (inv_fresh s Hinv k p c Hin Hc
                    (fresh_mono _ _ c Hclk Hyoung)) as (pr & Hp & Hs).
        exists p, pr. cbn [waiters]. auto.
      * rewrite (arrive_cached s r k now c Hin Hc Hyoung).
        split; [reflexivity|]. left. split; reflexivity.
  - exists (sweep s now). split.
    + cbn [step]. destruct (Z.ltb_spec now (clock s)); [lia|reflexivity].
    + intros k' c'. unfold sweep. cbn [contentCache].
      rewrite map_lookup_filter_Some. reflexivity.
Qed.

Lemma cache_entries_expire_witness :
  let evs := generation_done in
  let s := state_after generation_done in
  let r := 3%N in
  let rq := summary_request in
  let now := 400000%Z in
  let c := CacheEntry (ResponseData 77 [("summary", "S")]) 10 in
  (exists s',
     step s (Arrive r rq now) = Some s' /\
     ((cache_ttl_ms <= now - timestamp c)%Z ->
        responses s' = responses s /\
        (inflightRequests s !! requestKey rq = None ->
           promises s' = promises s ++ [Promise (requestKey rq) r Pending false] /\
           produced s' (requestKey rq) = S (produced s (requestKey rq))) /\
        (forall p, inflightRequests s !! requestKey rq = Some p ->
           promises s' = promises s /\ waiters s' = waiters s ++ [(r, p)])) /\
     ((now - timestamp c < cache_ttl_ms)%Z ->
        promises s' = promises s /\
        ((inflightRequests s !! requestKey rq = None /\
          responses s' = responses s ++
            [Response r FromCache (Fulfilled (data c))]) \/
         (exists p pr,
            inflightRequests s !! requestKey rq = Some p /\
            waiters s' = waiters s ++ [(r, p)] /\
            promises s !! p = Some pr /\
            p_status pr = Settled (Fulfilled (data c)))))) /\
  (exists s',
     step s (Sweep now) = Some s' /\
     forall k c', contentCache s' !! k = Some c' <->
                  contentCache s !! k = Some c' /\
                  (now - timestamp c' <= cache_ttl_ms)%Z) /\
  cache_ttl_ms = (5 * 60 * 1000)%Z /\
  sweep_interval_ms = (10 * 60 * 1000)%Z.
Proof.
  intros evs s r rq now c.
  apply (cache_entries_expire evs s r rq now c).
  - vm_compute. reflexivity.
  - vm_compute. discriminate.
  - vm_compute. reflexivity.
Defined.

End CoordinatorProperties.

(** ** More on the session handlers *)

Section SessionDelivery.

Import Sessions SessionUpdate.

Lemma slice0_take {A} (l : list A) (e : Z) :
  (1 <= e)%Z -> slice0 l e = take (Z.to_nat e) l.
Proof.
  intros He. unfold slice0. destruct (Z.ltb_spec e 0); [lia|reflexivity].
Qed.

Lemma slice0_length_le {A} (l : list A) (e : Z) :
  (1 <= e)%Z -> (Z.of_nat (length (slice0 l e)) <= e)%Z.
Proof.
  intros He. rewrite slice0_take by exact He. rewrite length_take. lia.
Qed.

Lemma slice0_nonempty {A} (l : list A) (e : Z) :
  (1 <= e)%Z -> l <> [] -> slice0 l e <> [].
Proof.
  intros He Hl. rewrite slice0_take by exact He.
  destruct l as [|x l]; [congruence|].
  destruct (Z.to_nat e) as [|n] eqn:E; [lia|]. discriminate.
Qed.

Lemma is_unseen_set_shown seen q : is_unseen (set_shown seen q) = false.
Proof. reflexivity. Qed.

Lemma q_id_set_shown seen q : q_id (set_shown seen q) = q_id q.
Proof. reflexivity. Qed.

Lemma map_q_id_set_shown seen qs :
  map q_id (map (set_shown seen) qs) = map q_id qs.
Proof. rewrite map_map. apply map_ext. intros q. reflexivity. Qed.

(** Marking the first [n] unseen elements removes exactly them from the
    unseen ones. *)
Lemma unseen_after_mark qs : forall n,
  List.filter is_unseen (mark_first_unseen n qs) =
  drop n (List.filter is_unseen qs).
Proof.
  induction qs as [|q qs IH]; intros [|n]; try reflexivity.
  cbn [mark_first_unseen List.filter].
  destruct (is_unseen q) eqn:E; cbn [List.filter].
  - rewrite is_unseen_set_shown. apply IH.
  - rewrite E. apply IH.
Qed.

Lemma map_q_id_mark qs : forall n,
  map q_id (mark_first_unseen n qs) = map q_id qs.
Proof.
  induction qs as [|q qs IH]; intros [|n]; try reflexivity.
  cbn [mark_first_unseen]. destruct (is_unseen q); cbn [map];
    rewrite IH; reflexivity.
Qed.

(** What the cache segment of the handler does when the cache holds an
    unseen question and the limit is positive. *)
Lemma next_from_cache_hit st id c limit :
  questionSessionCache st !! id = Some c ->
  (1 <= limit)%Z ->
  List.filter is_unseen (c_questions c) <> [] ->
  let U := List.filter is_unseen (c_questions c) in
  let n := length (take (Z.to_nat limit) U) in
  next_from_cache st id limit =
  Some (State (study_sessions st) (question_batches st) (files st)
              (<[id := Cached (c_contextSummary c) (c_topicKey c)
                         (mark_first_unseen n (c_questions c))]>
                 (questionSessionCache st))
              (next_oid st),
        Questions (map (set_shown None) (take (Z.to_nat limit) U))
                  (count_unseen (mark_first_unseen n (c_questions c)) - Z.of_nat n)
                  false).
Proof.
  intros Hc Hl HU U n. unfold next_from_cache. rewrite Hc.
  fold U. rewrite (slice0_take U limit Hl).
  pose proof (slice0_nonempty U limit Hl HU) as Hne.
  rewrite (slice0_take U limit Hl) in Hne.
  destruct (take (Z.to_nat limit) U) eqn:E; [congruence|].
  subst n. reflexivity.
Qed.

Lemma filter_sublist {A} (f : A -> bool) (l : list A) :
  sublist (List.filter f l) l.
Proof.
  induction l as [|x l IH]; cbn [List.filter]; [constructor|].
  destruct (f x); [apply sublist_skip|apply sublist_cons]; exact IH.
Qed.

Lemma map_sublist {A B} (f : A -> B) (l1 l2 : list A) :
  sublist l1 l2 -> sublist (map f l1) (map f l2).
Proof.
  induction 1; cbn [map]; [constructor|apply sublist_skip|apply sublist_cons];
    assumption.
Qed.

Lemma unseen_ids_NoDup qs t :
  NoDup (map q_id qs) ->
  NoDup (map q_id (take t (List.filter is_unseen qs))).
Proof.
  intros Hnd. eapply sublist_NoDup; [exact Hnd|].
  apply map_sublist.
  etransitivity; [apply sublist_take|apply filter_sublist].
Qed.

Lemma next_calls_cons gen st id lim now rest :
  next_calls gen st id ((lim, now) :: rest) =
  ((next_calls gen (next gen st id lim now).1 id rest).1,
   delivered (next gen st id lim now).2 ::
     (next_calls gen (next gen st id lim now).1 id rest).2).
Proof.
  cbn [next_calls]. destruct (next gen st id lim now) as [st1 r].
  cbn [fst snd]. destruct (next_calls gen st1 id rest). reflexivity.
Qed.

Lemma cache_run gen id calls : forall st c,
  questionSessionCache st !! id = Some c ->
  Forall (fun call => (1 <= effective_limit call.1)%Z) calls ->
  (sum_list (map (fun call => Z.to_nat (effective_limit call.1)) calls)
     <= length (List.filter is_unseen (c_questions c)))%nat ->
  concat (next_calls gen st id calls).2 =
    map q_id (take (sum_list (map (fun call => Z.to_nat (effective_limit call.1)) calls))
                   (List.filter is_unseen (c_questions c))) /\
  question_batches (next_calls gen st id calls).1 = question_batches st /\
  study_sessions (next_calls gen st id calls).1 = study_sessions st.
Proof.
  induction calls as [|[lim now] rest IH]; intros st c Hc Hall Hsum.
  - cbn. auto.
  - apply Forall_cons in Hall as [Hl Hrest]. cbn [fst] in Hl.
    assert (Hk : (1 <= Z.to_nat (effective_limit lim))%nat) by lia.
    cbn [map fst] in Hsum |- *.
    change (sum_list (?a :: ?l)) with (a + sum_list l)%nat in Hsum |- *.
    set (U := List.filter is_unseen (c_questions c)) in *.
    set (k := Z.to_nat (effective_limit lim)) in *.
    assert (HU : U <> []).
    { intros E. rewrite E in Hsum. cbn [length] in Hsum. lia. }
    assert (Hn : length (take k U) = k) by (rewrite length_take; lia).
    set (st1 := State (study_sessions st) (question_batches st) (files st)
                  (<[id := Cached (c_contextSummary c) (c_topicKey c)
                             (mark_first_unseen k (c_questions c))]>
                     (questionSessionCache st)) (next_oid st)).
    assert (Hnext : exists rem,
              next gen st id lim now =
              (st1, Questions (map (set_shown None) (take k U)) rem false)).
    { eexists. unfold next.
      rewrite (next_from_cache_hit st id c (effective_limit lim) Hc Hl HU).
      fold U. fold k. rewrite Hn. reflexivity. }
    destruct Hnext as [rem Hnext].
    rewrite next_calls_cons, Hnext. cbn [fst snd delivered concat].
    destruct (IH st1 (Cached (c_contextSummary c) (c_topicKey c)
                        (mark_first_unseen k (c_questions c))))
      as (H1 & H2 & H3).
    + unfold st1. cbn [questionSessionCache]. apply lookup_insert_eq.
    + exact Hrest.
    + cbn [c_questions]. rewrite unseen_after_mark. fold U.
      rewrite length_drop. lia.
    + cbn [c_questions] in H1. rewrite unseen_after_mark in H1. fold U in H1.
      rewrite H1, map_q_id_set_shown, <- map_app, take_take_drop.
      split; [reflexivity|]. split; [exact H2|exact H3].
Qed.

(** X1.  While the cache entry of a session holds enough unseen
    questions for a run of calls with positive limits, the calls deliver
    the unseen questions in stored order, each once: the deliveries put
    end to end are the ids of the first (sum of limits) unseen
    questions, without repetition when the cached ids are distinct; and
    none of these calls writes to the database. *)
Theorem cache_run_delivers_each_question_once
    (gen : generator) (st : state) (id : N) (c : cached)
    (calls : list (option Z * Z)) :
  questionSessionCache st !! id = Some c ->
  Forall (fun call => (1 <= effective_limit call.1)%Z) calls ->
  (sum_list (map (fun call => Z.to_nat (effective_limit call.1)) calls)
     <= length (List.filter is_unseen (c_questions c)))%nat ->
  NoDup (map q_id (c_questions c)) ->
  concat (next_calls gen st id calls).2 =
    map q_id (take (sum_list (map (fun call => Z.to_nat (effective_limit call.1)) calls))
                   (List.filter is_unseen (c_questions c))) /\
  NoDup (concat (next_calls gen st id calls).2) /\
  question_batches (next_calls gen st id calls).1 = question_batches st /\
  study_sessions (next_calls gen st id calls).1 = study_sessions st.
Proof.
  intros Hc Hall Hsum Hnd.
  destruct (cache_run gen id calls st c Hc Hall Hsum) as (H1 & H2 & H3).
  split; [exact H1|]. split; [|split; assumption].
  rewrite H1. apply unseen_ids_NoDup, Hnd.
Qed.

Lemma cache_run_delivers_each_question_once_witness :
  let calls := [(None, 2001%Z); (Some 7%Z, 2002%Z); (Some 8%Z, 2003%Z)] in
  let c := Cached "Photosynthesis converts light energy into chemical energy."
             "biology"
             (new_questions 101 0
                (map (fun i => Payload ("Question " ++ pretty i)%string
                                       ["A"; "B"; "C"; "D"] "A" "") (seq 0 20))) in
  concat (next_calls Examples.twenty_questions Examples.created 100 calls).2 =
    map q_id (take (sum_list (map (fun call => Z.to_nat (effective_limit call.1)) calls))
                   (List.filter is_unseen (c_questions c))) /\
  NoDup (concat (next_calls Examples.twenty_questions Examples.created 100 calls).2) /\
  question_batches (next_calls Examples.twenty_questions Examples.created 100 calls).1 =
    question_batches Examples.created /\
  study_sessions (next_calls Examples.twenty_questions Examples.created 100 calls).1 =
    study_sessions Examples.created.
Proof.
  intros calls c.
  apply (cache_run_delivers_each_question_once
           Examples.twenty_questions Examples.created 100 c calls).
  - vm_compute. reflexivity.
  - repeat constructor; vm_compute; discriminate.
  - vm_compute. lia.
  - apply (bool_decide_unpack _). vm_compute. exact I.
Defined.

Lemma delivered_questions qs rem fresh :
  delivered (Questions qs rem fresh) = map q_id qs.
Proof. reflexivity. Qed.

Lemma existsb_filter_nonempty {A} (f : A -> bool) (l : list A) :
  existsb f l = true -> List.filter f l <> [].
Proof.
  induction l as [|x l IH]; cbn [existsb List.filter]; [discriminate|].
  destruct (f x); [discriminate|exact IH].
Qed.

Lemma found_batch_has_unseen bs id b :
  find_unseen_batch bs id = Some b ->
  List.filter is_unseen (questions b) <> [].
Proof.
  intros H. apply List.find_some in H as [_ H].
  apply andb_prop in H as [_ H]. apply existsb_filter_nonempty, H.
Qed.

Lemma new_questions_length first offset qs :
  length (new_questions first offset qs) = length qs.
Proof. unfold new_questions. apply length_imap. Qed.

(** X2.  With a limit of at least 1 (the default 5 included), a call
    never delivers more questions than the limit, from whichever store
    or fresh batch it is served. *)
Theorem delivery_is_bounded_by_limit
    (gen : generator) (st : state) (id : N) (lim : option Z) (now : Z) :
  (1 <= effective_limit lim)%Z ->
  (Z.of_nat (length (delivered (next gen st id lim now).2))
     <= effective_limit lim)%Z.
Proof.
  intros Hl. unfold next.
  destruct (next_from_cache st id (effective_limit lim)) as [[st' r]|] eqn:Ec.
  - unfold next_from_cache in Ec.
    destruct (questionSessionCache st !! id) as [c|]; [|discriminate].
    pose proof (slice0_length_le (List.filter is_unseen (c_questions c))
                  (effective_limit lim) Hl) as Hlen.
    destruct (slice0 (List.filter is_unseen (c_questions c)) (effective_limit lim))
      as [|q sel]; [discriminate|].
    injection Ec as <- <-. cbn [snd]. rewrite delivered_questions.
    cbn [length map] in Hlen |- *. rewrite ?length_map. exact Hlen.
  - unfold next_from_db.
    destruct (find_unseen_batch (question_batches st) id) as [b|].
    + pose proof (slice0_length_le (List.filter is_unseen (questions b))
                    (effective_limit lim) Hl) as Hlen.
      destruct (slice0 (List.filter is_unseen (questions b)) (effective_limit lim))
        as [|q sel]; cbn [snd delivered]; [cbn; lia|].
      cbn [length map] in Hlen |- *. rewrite ?length_map. exact Hlen.
    + unfold next_generate.
      destruct (study_sessions st !! id) as [sess|]; [|cbn; lia].
      destruct (gen _) as [qs|]; [|cbn; lia].
      cbn [snd]. rewrite delivered_questions, !length_map.
      apply slice0_length_le, Hl.
Qed.

Lemma delivery_is_bounded_by_limit_witness :
  (Z.of_nat (length (delivered
     (next Examples.twenty_questions Examples.created 100 (Some 7%Z) 2000).2))
     <= effective_limit (Some 7%Z))%Z.
Proof.
  apply (delivery_is_bounded_by_limit
           Examples.twenty_questions Examples.created 100 (Some 7%Z) 2000).
  vm_compute. discriminate.
Defined.

(** X3.  When the session exists, the limit is at least 1 and the
    generator returns a non-empty batch whenever it is asked, a call
    always delivers at least one question: from the cache, from the
    database, or from a batch generated on the spot. *)
Theorem next_always_delivers
    (gen : generator) (st : state) (id : N) (sess : session)
    (lim : option Z) (now : Z) :
  (1 <= effective_limit lim)%Z ->
  study_sessions st !! id = Some sess ->
  (forall rq, exists qs, gen rq = Some qs /\ qs <> []) ->
  delivered (next gen st id lim now).2 <> [].
Proof.
  intros Hl Hs Hgen. unfold next.
  assert (Hmap : forall qs : list session_question, qs <> [] -> map q_id qs <> []).
  { intros [|q qs] H; [congruence|discriminate]. }
  destruct (next_from_cache st id (effective_limit lim)) as [[st' r]|] eqn:Ec.
  - unfold next_from_cache in Ec.
    destruct (questionSessionCache st !! id) as [c|]; [|discriminate].
    destruct (slice0 (List.filter is_unseen (c_questions c)) (effective_limit lim))
      as [|q sel]; [discriminate|].
    injection Ec as <- <-. cbn [snd]. discriminate.
  - unfold next_from_db.
    destruct (find_unseen_batch (question_batches st) id) as [b|] eqn:Eb.
    + pose proof (slice0_nonempty _ (effective_limit lim) Hl
                    (found_batch_has_unseen _ _ _ Eb)) as Hne.
      destruct (slice0 (List.filter is_unseen (questions b)) (effective_limit lim))
        as [|q sel]; [congruence|].
      cbn [snd]. discriminate.
    + unfold next_generate. rewrite Hs.
      destruct (Hgen (GenRequest
                  (combined_text
                     (List.filter (fun f => in_ids (sourceFileIds sess) (f_id f))
                                  (files st)))
                  (contextSummary sess) (previousTopics sess)))
        as (qs & -> & Hqs).
      cbn [snd]. rewrite delivered_questions. apply Hmap.
      intros E. apply (f_equal (@length _)) in E.
      rewrite length_map in E.
      pose proof (slice0_nonempty (new_questions (next_oid st) (totalGenerated sess) qs)
                    (effective_limit lim) Hl) as Hne.
      destruct (slice0 (new_questions (next_oid st) (totalGenerated sess) qs)
                  (effective_limit lim)); [|discriminate E].
      apply Hne; [|reflexivity].
      intros E'. apply (f_equal (@length _)) in E'.
      rewrite new_questions_length in E'. destruct qs; [congruence|discriminate E'].
Qed.

Lemma next_always_delivers_witness :
  delivered (next Examples.twenty_questions Examples.created_without_batch 100
               None 2000).2 <> [].
Proof.
  apply (next_always_delivers Examples.twenty_questions
           Examples.created_without_batch 100
           (Session "u1" "biology" [1%N]
              "Photosynthesis converts light energy into chemical energy."
              1 0 [] 1000 1000) None 2000).
  - vm_compute. discriminate.
  - vm_compute. reflexivity.
  - intros rq. eexists. split; [reflexivity|discriminate].
Defined.

Lemma imap_all_unseen {A} (f : nat -> A -> session_question) (l : list A) :
  (forall i x, is_unseen (f i x) = true) ->
  List.filter is_unseen (imap f l) = imap f l.
Proof.
  revert f. induction l as [|x l IH]; intros f Hf; [reflexivity|].
  cbn [imap List.filter]. rewrite Hf. f_equal. apply IH.
  intros i y. apply Hf.
Qed.

Lemma new_questions_unseen first offset qs :
  List.filter is_unseen (new_questions first offset qs) =
  new_questions first offset qs.
Proof. apply imap_all_unseen. reflexivity. Qed.

(** X4.  The questions [POST /api/sessions] returns as
    [initialQuestions] are not marked shown anywhere, so the first
    [next] call on the new session starts over from the first question:
    up to the smaller of 5 and the limit, it delivers the ids that the
    creation already returned. *)
Theorem first_next_repeats_initial_questions
    (gen : generator) (st : state) (userId : string) (fileIds : list N)
    (topic : option string) (now now' : Z) (lim : option Z)
    (sid : N) (initial : list session_question) :
  (create gen st userId fileIds topic now).2 = Created sid initial ->
  initial <> [] ->
  (1 <= effective_limit lim)%Z ->
  take 5 (delivered
            (next gen (create gen st userId fileIds topic now).1 sid lim now').2) =
  take (Z.to_nat (effective_limit lim)) (map q_id initial).
Proof.
  intros Hc Hi Hl. unfold create in *.
  destruct (List.filter _ (files st)) as [|f fs]; [discriminate Hc|].
  destruct (gen _) as [qs|]; [|discriminate Hc].
  cbn [fst snd] in *. injection Hc as <- <-.
  set (bqs := new_questions (next_oid st + 1) 0 qs) in *.
  unfold next.
  erewrite next_from_cache_hit;
    [|cbn [questionSessionCache]; apply lookup_insert_eq|exact Hl|].
  - cbn [snd c_questions]. rewrite delivered_questions, map_q_id_set_shown.
    unfold bqs. rewrite new_questions_unseen. fold bqs.
    rewrite <- !fmap_take, !take_take. rewrite Nat.min_comm. reflexivity.
  - cbn [c_questions]. unfold bqs. rewrite new_questions_unseen. fold bqs.
    intros E. rewrite E in Hi. apply Hi. reflexivity.
Qed.

Lemma first_next_repeats_initial_questions_witness :
  take 5 (delivered
            (next Examples.twenty_questions
               (create Examples.twenty_questions Examples.one_file_db "u1" [1%N]
                  (Some "biology") 1000).1 100 (Some 3%Z) 2000).2) =
  take (Z.to_nat (effective_limit (Some 3%Z)))
       (map q_id (take 5 (new_questions 101 0
          (map (fun i => Payload ("Question " ++ pretty i)%string
                                 ["A"; "B"; "C"; "D"] "A" "") (seq 0 20))))).
Proof.
  apply (first_next_repeats_initial_questions
           Examples.twenty_questions Examples.one_file_db "u1" [1%N]
           (Some "biology") 1000 2000 (Some 3%Z) 100).
  - vm_compute. reflexivity.
  - vm_compute. discriminate.
  - vm_compute. discriminate.
Defined.

(** X5.  On the cache path the reported [remaining] is counted after
    the delivered questions were marked and then the delivered count is
    subtracted again: it is the number of unseen questions before the
    call minus twice the number delivered, that is, the number actually
    left in the cache minus the number delivered. *)
Theorem cache_remaining_subtracts_delivered_twice
    (gen : generator) (st : state) (id : N) (c : cached)
    (lim : option Z) (now : Z) :
  questionSessionCache st !! id = Some c ->
  (1 <= effective_limit lim)%Z ->
  List.filter is_unseen (c_questions c) <> [] ->
  exists qs c',
    (next gen st id lim now).2 =
      Questions qs (count_unseen (c_questions c) - 2 * Z.of_nat (length qs)) false /\
    questionSessionCache (next gen st id lim now).1 !! id = Some c' /\
    count_unseen (c_questions c') =
      (count_unseen (c_questions c) - Z.of_nat (length qs))%Z /\
    (1 <= length qs)%nat.
Proof.
  intros Hc Hl HU. unfold next.
  rewrite (next_from_cache_hit st id c (effective_limit lim) Hc Hl HU).
  cbn [fst snd questionSessionCache].
  set (U := List.filter is_unseen (c_questions c)) in *.
  set (k := Z.to_nat (effective_limit lim)).
  eexists _, _. split; [|split; [apply lookup_insert_eq|]].
  - f_equal. unfold count_unseen. rewrite unseen_after_mark. fold U.
    rewrite length_map, length_drop, length_take. lia.
  - cbn [c_questions]. unfold count_unseen. rewrite unseen_after_mark. fold U.
    rewrite length_map, length_drop, length_take. split; [lia|].
    destruct U; [congruence|]. cbn [length]. lia.
Qed.

Lemma cache_remaining_subtracts_delivered_twice_witness :
  let c := Cached "Photosynthesis converts light energy into chemical energy."
             "biology"
             (new_questions 101 0
                (map (fun i => Payload ("Question " ++ pretty i)%string
                                       ["A"; "B"; "C"; "D"] "A" "") (seq 0 20))) in
  exists qs c',
    (next Examples.twenty_questions Examples.created 100 None 2000).2 =
      Questions qs (count_unseen (c_questions c) - 2 * Z.of_nat (length qs)) false /\
    questionSessionCache
      (next Examples.twenty_questions Examples.created 100 None 2000).1 !! 100%N
      = Some c' /\
    count_unseen (c_questions c') =
      (count_unseen (c_questions c) - Z.of_nat (length qs))%Z /\
    (1 <= length qs)%nat.
Proof.
  intros c.
  apply (cache_remaining_subtracts_delivered_twice
           Examples.twenty_questions Examples.created 100 c None 2000).
  - vm_compute. reflexivity.
  - vm_compute. discriminate.
  - vm_compute. discriminate.
Defined.

Lemma in_ids_true ids x : in_ids ids x = true <-> In x ids.
Proof.
  unfold in_ids. rewrite existsb_exists. split.
  - intros (y & Hy & E). apply N.eqb_eq in E. subst. exact Hy.
  - intros H. exists x. split; [exact H|apply N.eqb_refl].
Qed.

Lemma filter_none {A} (f : A -> bool) (l : list A) :
  (forall x, In x l -> f x = false) -> List.filter f l = [].
Proof.
  induction l as [|x l IH]; intros H; [reflexivity|].
  cbn [List.filter]. rewrite (H x (or_introl eq_refl)).
  apply IH. intros y Hy. apply H. right. exact Hy.
Qed.

Lemma filter_all {A} (f : A -> bool) (l : list A) :
  (forall x, In x l -> f x = true) -> List.filter f l = l.
Proof.
  induction l as [|x l IH]; intros H; [reflexivity|].
  cbn [List.filter]. rewrite (H x (or_introl eq_refl)). f_equal.
  apply IH. intros y Hy. apply H. right. exact Hy.
Qed.

Lemma unseen_after_mark_by_id ids now qs :
  List.filter is_unseen (map (mark_by_id ids now) qs) =
  List.filter (fun q => negb (in_ids ids (q_id q))) (List.filter is_unseen qs).
Proof.
  induction qs as [|q qs IH]; [reflexivity|].
  cbn [map List.filter].
  assert (Hm : mark_by_id ids now q =
               if in_ids ids (q_id q) then set_shown (Some now) q else q)
    by reflexivity.
  rewrite Hm. clear Hm.
  destruct (in_ids ids (q_id q)) eqn:E.
  - rewrite is_unseen_set_shown.
    destruct (is_unseen q); cbn [List.filter]; rewrite ?E; exact IH.
  - destruct (is_unseen q); cbn [List.filter]; rewrite ?E; cbn [negb];
      rewrite IH; reflexivity.
Qed.

Lemma drop_by_ids (U : list session_question) (n : nat) :
  NoDup (map q_id U) ->
  List.filter (fun q => negb (in_ids (map q_id (take n U)) (q_id q))) U =
  drop n U.
Proof.
  intros Hnd.
  rewrite <- (take_drop n U), map_app in Hnd.
  apply NoDup_app in Hnd as (_ & Hdis & _).
  set (P := fun q => negb (in_ids (map q_id (take n U)) (q_id q))).
  transitivity (List.filter P (take n U ++ drop n U));
    [rewrite take_drop; reflexivity|].
  unfold P.
  rewrite List.filter_app, filter_none, filter_all; [reflexivity| |].
  - intros q Hq. apply negb_true_iff.
    destruct (in_ids (map q_id (take n U)) (q_id q)) eqn:E; [|reflexivity].
    apply in_ids_true in E. exfalso.
    apply (Hdis (q_id q)); apply list_elem_of_In; [exact E|].
    apply in_map, Hq.
  - intros q Hq. apply negb_false_iff, in_ids_true, in_map, Hq.
Qed.

Lemma map_q_id_mark_by_id ids now qs :
  map q_id (map (mark_by_id ids now) qs) = map q_id qs.
Proof.
  rewrite map_map. apply map_ext. intros q. unfold mark_by_id.
  destruct (in_ids ids (q_id q)); reflexivity.
Qed.

(** Marking the first [n] unseen questions of a batch by their ids
    removes exactly them from its unseen ones, when the ids of the batch
    are distinct. *)
Lemma unseen_after_update now qs n :
  NoDup (map q_id qs) ->
  List.filter is_unseen
    (map (mark_by_id (map q_id (take n (List.filter is_unseen qs))) now) qs) =
  drop n (List.filter is_unseen qs).
Proof.
  intros Hnd. rewrite unseen_after_mark_by_id. apply drop_by_ids.
  eapply sublist_NoDup; [exact Hnd|]. apply map_sublist, filter_sublist.
Qed.

Lemma map_b_id_mark bs bid ids now :
  map b_id (mark_in_batch bs bid ids now) = map b_id bs.
Proof.
  induction bs as [|b bs IH]; [reflexivity|].
  cbn [mark_in_batch]. destruct (b_id b =? bid)%N; cbn [map b_id]; [reflexivity|].
  rewrite IH. reflexivity.
Qed.

Lemma find_unseen_batch_in bs id b :
  find_unseen_batch bs id = Some b -> In b bs /\ b_sessionId b = id.
Proof.
  intros H. apply List.find_some in H as [Hin H].
  apply andb_prop in H as [H _]. apply N.eqb_eq in H. auto.
Qed.

Lemma mark_in_batch_updated bs bid ids now :
  mark_in_batch bs bid ids now =
  match bs with
  | [] => []
  | b :: rest =>
      if (b_id b =? bid)%N then updated b ids now :: rest
      else b :: mark_in_batch rest bid ids now
  end.
Proof. destruct bs; reflexivity. Qed.

(** The batch [findOne] returned is the one [updateOne] rewrites, and
    while it has an unseen question it is the one the next [findOne]
    returns. *)
Lemma find_after_update bs id b ids now :
  NoDup (map b_id bs) ->
  find_unseen_batch bs id = Some b ->
  In (updated b ids now) (mark_in_batch bs (b_id b) ids now) /\
  (List.filter is_unseen (questions (updated b ids now)) <> [] ->
   find_unseen_batch (mark_in_batch bs (b_id b) ids now) id =
     Some (updated b ids now)).
Proof.
  induction bs as [|b0 bs IH]; intros Hnd Hf; [discriminate Hf|].
  unfold find_unseen_batch in Hf. cbn [List.find] in Hf.
  cbn [map] in Hnd. apply NoDup_cons in Hnd as [Hb0 Hnd].
  destruct ((b_sessionId b0 =? id)%N && existsb is_unseen (questions b0)) eqn:EP.
  - injection Hf as ->. rewrite mark_in_batch_updated, N.eqb_refl.
    split; [left; reflexivity|].
    intros Hne. unfold find_unseen_batch. cbn [List.find].
    apply andb_prop in EP as [Es _].
    replace (b_sessionId (updated b ids now)) with (b_sessionId b) by reflexivity.
    rewrite Es. cbn [andb].
    destruct (existsb is_unseen (questions (updated b ids now))) eqn:Ex;
      [reflexivity|].
    exfalso. apply Hne, filter_none. intros q Hq.
    destruct (is_unseen q) eqn:Eq; [|reflexivity].
    assert (existsb is_unseen (questions (updated b ids now)) = true)
      by (apply existsb_exists; eauto).
    congruence.
  - fold (find_unseen_batch bs id) in Hf.
    destruct (find_unseen_batch_in _ _ _ Hf) as [Hin _].
    rewrite mark_in_batch_updated.
    destruct (N.eqb_spec (b_id b0) (b_id b)) as [E|E].
    + exfalso. apply Hb0. rewrite E. apply list_elem_of_In, in_map, Hin.
    + destruct (IH Hnd Hf) as [H1 H2]. split; [right; exact H1|].
      intros Hne. unfold find_unseen_batch. cbn [List.find]. rewrite EP.
      apply H2, Hne.
Qed.

Lemma next_from_cache_drained st id limit :
  (forall c, questionSessionCache st !! id = Some c ->
             List.filter is_unseen (c_questions c) = []) ->
  (1 <= limit)%Z ->
  next_from_cache st id limit = None.
Proof.
  intros Hc Hl. unfold next_from_cache.
  destruct (questionSessionCache st !! id) as [c|]; [|reflexivity].
  rewrite (Hc c eq_refl), slice0_take by exact Hl.
  rewrite take_nil. reflexivity.
Qed.

(** What the database segment does when [findOne] returns a batch and
    the limit is positive. *)
Lemma next_from_db_hit gen st id b limit now :
  find_unseen_batch (question_batches st) id = Some b ->
  (1 <= limit)%Z ->
  let U := List.filter is_unseen (questions b) in
  next_from_db gen st id limit now =
  (State (study_sessions st)
         (mark_in_batch (question_batches st) (b_id b)
            (map q_id (take (Z.to_nat limit) U)) now)
         (files st) (questionSessionCache st) (next_oid st),
   Questions (take (Z.to_nat limit) U)
     (count_unseen (questions b) - Z.of_nat (length (take (Z.to_nat limit) U)))
     false).
Proof.
  intros Hf Hl U. unfold next_from_db. rewrite Hf. fold U.
  rewrite (slice0_take U limit Hl).
  pose proof (slice0_nonempty U limit Hl (found_batch_has_unseen _ _ _ Hf)) as Hne.
  rewrite (slice0_take U limit Hl) in Hne.
  destruct (take (Z.to_nat limit) U) eqn:E; [congruence|]. reflexivity.
Qed.

Lemma db_run gen id calls : forall st b,
  (forall c, questionSessionCache st !! id = Some c ->
             List.filter is_unseen (c_questions c) = []) ->
  In b (question_batches st) ->
  (List.filter is_unseen (questions b) <> [] ->
   find_unseen_batch (question_batches st) id = Some b) ->
  NoDup (map b_id (question_batches st)) ->
  NoDup (map q_id (questions b)) ->
  Forall (fun call => (1 <= effective_limit call.1)%Z) calls ->
  (sum_list (map (fun call => Z.to_nat (effective_limit call.1)) calls)
     <= length (List.filter is_unseen (questions b)))%nat ->
  concat (next_calls gen st id calls).2 =
    map q_id (take (sum_list (map (fun call => Z.to_nat (effective_limit call.1)) calls))
                   (List.filter is_unseen (questions b))) /\
  (exists b', In b' (question_batches (next_calls gen st id calls).1) /\
              b_id b' = b_id b /\
              List.filter is_unseen (questions b') =
                drop (sum_list (map (fun call => Z.to_nat (effective_limit call.1)) calls))
                     (List.filter is_unseen (questions b))) /\
  questionSessionCache (next_calls gen st id calls).1 = questionSessionCache st /\
  study_sessions (next_calls gen st id calls).1 = study_sessions st.
Proof.
  induction calls as [|[lim now] rest IH]; intros st b Hc Hin Hfind Hnb Hnq Hall Hsum.
  - cbn. split; [reflexivity|]. split; [|auto]. exists b. auto.
  - apply Forall_cons in Hall as [Hl Hrest]. cbn [fst] in Hl.
    assert (Hk : (1 <= Z.to_nat (effective_limit lim))%nat) by lia.
    cbn [map fst] in Hsum |- *.
    change (sum_list (?a :: ?l)) with (a + sum_list l)%nat in Hsum |- *.
    set (U := List.filter is_unseen (questions b)) in *.
    set (k := Z.to_nat (effective_limit lim)) in *.
    assert (HU : U <> []).
    { intros E. rewrite E in Hsum. cbn [length] in Hsum. lia. }
    specialize (Hfind HU).
    set (ids := map q_id (take k U)).
    set (st1 := State (study_sessions st)
                  (mark_in_batch (question_batches st) (b_id b) ids now)
                  (files st) (questionSessionCache st) (next_oid st)).
    assert (Hnext : exists rem,
              next gen st id lim now = (st1, Questions (take k U) rem false)).
    { eexists. unfold next.
      rewrite (next_from_cache_drained st id _ Hc Hl).
      rewrite (next_from_db_hit gen st id b _ now Hfind Hl).
      reflexivity. }
    destruct Hnext as [rem Hnext].
    rewrite next_calls_cons, Hnext. cbn [fst snd delivered concat].
    destruct (find_after_update _ _ _ ids now Hnb Hfind) as [Hin1 Hfind1].
    assert (HU1 : List.filter is_unseen (questions (updated b ids now)) = drop k U)
      by (apply unseen_after_update, Hnq).
    destruct (IH st1 (updated b ids now)) as (H1 & (b' & Hb1 & Hb2 & Hb3) & H3 & H4).
    + exact Hc.
    + exact Hin1.
    + exact Hfind1.
    + unfold st1. cbn [question_batches]. rewrite map_b_id_mark. exact Hnb.
    + cbn [updated questions]. rewrite map_q_id_mark_by_id. exact Hnq.
    + exact Hrest.
    + rewrite HU1, length_drop. lia.
    + rewrite HU1 in H1, Hb3.
      rewrite H1, <- map_app, take_take_drop.
      split; [reflexivity|]. split; [|split; [exact H3|exact H4]].
      exists b'. split; [exact Hb1|]. split; [exact Hb2|].
      rewrite Hb3, drop_drop. reflexivity.
Qed.

(** X6.  For calls handled one after another, each answered before the
    next one arrives.  (The handler awaits the database between its
    [findOne] and its [updateOne], so calls that overlap in time can
    read the same unseen questions; they are not covered.)  With no
    unseen question of the session in the cache (no entry, as after a
    restart, or a drained one), such calls are served from the batch the
    database returns, and while that batch holds enough unseen questions
    they deliver its unseen questions in stored order, each once; unlike
    the cache path, each call records in the database what it delivered,
    so the stored batch ends with exactly the undelivered questions
    unseen. *)
Theorem database_calls_in_turn_deliver_each_question_once
    (gen : generator) (st : state) (id : N) (b : batch)
    (calls : list (option Z * Z)) :
  (forall c, questionSessionCache st !! id = Some c ->
             List.filter is_unseen (c_questions c) = []) ->
  find_unseen_batch (question_batches st) id = Some b ->
  NoDup (map b_id (question_batches st)) ->
  NoDup (map q_id (questions b)) ->
  Forall (fun call => (1 <= effective_limit call.1)%Z) calls ->
  (sum_list (map (fun call => Z.to_nat (effective_limit call.1)) calls)
     <= length (List.filter is_unseen (questions b)))%nat ->
  concat (next_calls gen st id calls).2 =
    map q_id (take (sum_list (map (fun call => Z.to_nat (effective_limit call.1)) calls))
                   (List.filter is_unseen (questions b))) /\
  NoDup (concat (next_calls gen st id calls).2) /\
  (exists b', In b' (question_batches (next_calls gen st id calls).1) /\
              b_id b' = b_id b /\
              List.filter is_unseen (questions b') =
                drop (sum_list (map (fun call => Z.to_nat (effective_limit call.1)) calls))
                     (List.filter is_unseen (questions b))) /\
  questionSessionCache (next_calls gen st id calls).1 = questionSessionCache st.
Proof.
  intros Hc Hf Hnb Hnq Hall Hsum.
  destruct (db_run gen id calls st b Hc (proj1 (find_unseen_batch_in _ _ _ Hf))
              (fun _ => Hf) Hnb Hnq Hall Hsum) as (H1 & H2 & H3 & _).
  split; [exact H1|]. split; [|split; assumption].
  rewrite H1. apply unseen_ids_NoDup, Hnq.
Qed.

Lemma database_calls_in_turn_deliver_each_question_once_witness :
  let gen := Examples.twenty_questions in
  let st := Scenarios.after_restart in
  let id := 100%N in
  let b := Scenarios.first_batch in
  let calls := [(None, 2001%Z); (Some 7%Z, 2002%Z); (Some 8%Z, 2003%Z)] in
  concat (next_calls gen st id calls).2 =
    map q_id (take (sum_list (map (fun call => Z.to_nat (effective_limit call.1)) calls))
                   (List.filter is_unseen (questions b))) /\
  NoDup (concat (next_calls gen st id calls).2) /\
  (exists b', In b' (question_batches (next_calls gen st id calls).1) /\
              b_id b' = b_id b /\
              List.filter is_unseen (questions b') =
                drop (sum_list (map (fun call => Z.to_nat (effective_limit call.1)) calls))
                     (List.filter is_unseen (questions b))) /\
  questionSessionCache (next_calls gen st id calls).1 = questionSessionCache st.
Proof.
  intros gen st id b calls.
  apply (database_calls_in_turn_deliver_each_question_once gen st id b calls).
  - intros c Hc. vm_compute in Hc. discriminate Hc.
  - vm_compute. reflexivity.
  - apply (bool_decide_unpack _). vm_compute. exact I.
  - apply (bool_decide_unpack _). vm_compute. exact I.
  - repeat constructor; vm_compute; discriminate.
  - vm_compute. lia.
Defined.



End SessionDelivery.

(** ** More on the review handler *)

Section ReviewAccess.

Local Open Scope float_scope.

Import Review.

Lemma find_card_owned st rq cid c :
  find_card st rq = Some (cid, c) ->
  flashcards st !! cid = Some c /\ cardId rq = Some cid /\
  userId rq = User (c_owner c).
Proof.
  unfold find_card. destruct (userId rq) as [|u]; [discriminate|].
  destruct (cardId rq) as [cid'|]; [|discriminate].
  destruct (flashcards st !! cid') as [c'|] eqn:E; [|discriminate].
  destruct (N.eqb_spec (c_owner c') u) as [Ho|]; [|discriminate].
  intros H. injection H as <- <-. subst u. auto.
Qed.

(** X8.  A review request changes no card other than the one it names,
    and no card of another user: every stored card that the request
    does not name, or whose owner is not the requesting user, is stored
    unchanged afterwards. *)
Theorem review_leaves_other_cards
    (st : state) (rq : request) (now later : JS.number) (cid : N) (c : card) :
  flashcards st !! cid = Some c ->
  userId rq <> User (c_owner c) \/ cardId rq <> Some cid ->
  flashcards (review st rq now later).1 !! cid = Some c.
Proof.
  intros Hc Hother. unfold review.
  destruct (userId rq) as [|u] eqn:Eu; [exact Hc|].
  destruct (find_card st rq) as [[cid' c']|] eqn:Ef; [|exact Hc].
  destruct (find_card_owned _ _ _ _ Ef) as (Hc' & Hid & Hu).
  cbn [fst flashcards].
  destruct (N.eq_dec cid' cid) as [->|Hne].
  - exfalso. rewrite Hc in Hc'. injection Hc' as <-.
    destruct Hother as [H|H]; [apply H; congruence|apply H, Hid].
  - rewrite lookup_insert_ne by exact Hne. exact Hc.
Qed.

Lemma review_leaves_other_cards_witness :
  flashcards
    (review Examples.review_db (Request (User 2) (Some 7%N) 5) 1000 1001).1 !! 7%N
  = Some Examples.stored_card.
Proof.
  apply (review_leaves_other_cards Examples.review_db
           (Request (User 2) (Some 7%N) 5) 1000 1001 7 Examples.stored_card).
  - vm_compute. reflexivity.
  - left. vm_compute. discriminate.
Defined.

Lemma is_nan_false_SF x : is_nan x = false -> Prim2SF x <> S754_nan.
Proof.
  unfold is_nan. rewrite FloatAxioms.eqb_spec. intros H E. rewrite E in H.
  discriminate H.
Qed.

Lemma SFadd_finite_not_nan x y :
  x <> S754_nan -> finite_or_zero y = true -> SFadd prec emax x y <> S754_nan.
Proof.
  intros Hx Hy.
  destruct x as [sx|sx| |sx mx ex]; destruct y as [sy|sy| |sy my ey];
    try discriminate Hy; try congruence; cbn [SFadd]; try discriminate.
  - destruct sx, sy; discriminate.
  - apply binary_normalize_not_nan.
Qed.

Lemma or_default_not_nan x d : is_nan d = false -> is_nan (JS.or_default x d) = false.
Proof.
  intros Hd. unfold JS.or_default, JS.truthy. destruct x as [v|]; [|exact Hd].
  destruct (is_zero v); cbn [orb negb]; [exact Hd|].
  destruct (is_nan v) eqn:E; cbn [negb]; [exact Hd|exact E].
Qed.

Lemma ease_update_defined (q : Z) (ef : JS.number) :
  (0 <= q <= 5)%Z -> is_nan ef = false ->
  is_nan (ease_update (JS.of_Z q) ef) = false.
Proof.
  intros Hq Hef. unfold ease_update, is_nan.
  rewrite FloatAxioms.eqb_spec, SFeqb_refl; [reflexivity|].
  rewrite FloatAxioms.add_spec.
  apply SFadd_finite_not_nan; [apply is_nan_false_SF, Hef|].
  assert (q = 0 \/ q = 1 \/ q = 2 \/ q = 3 \/ q = 4 \/ q = 5)%Z
    as [->|[->|[->|[->|[->| ->]]]]] by lia; vm_compute; reflexivity.
Qed.

(** X9.  Whatever is stored on a card (an absent, zero or NaN ease
    factor, or one below the floor), a review of the card by its owner
    with an integer quality from 0 to 5 writes back an ease factor of
    at least 1.3. *)
Theorem review_stores_floored_ease_factor
    (st : state) (u cid : N) (c : card) (q : Z) (now later : JS.number) :
  flashcards st !! cid = Some c ->
  c_owner c = u ->
  (0 <= q <= 5)%Z ->
  exists c' ef,
    flashcards (review st (Request (User u) (Some cid) (JS.of_Z q)) now later).1
      !! cid = Some c' /\
    c_easeFactor c' = Some ef /\ (1.3 <=? ef) = true.
Proof.
  intros Hc Hu Hq.
  rewrite (review_of_owned_card st u cid c (JS.of_Z q) now later Hc Hu).
  cbn [fst flashcards]. eexists _, _. split; [apply lookup_insert_eq|].
  split; [reflexivity|].
  unfold Scheduler.calculateSpacedRepetition.
  destruct (JS.of_Z q <? 3); cbn [easeFactor];
    apply Math_max_floor, ease_update_defined; try exact Hq;
    apply or_default_not_nan; reflexivity.
Qed.

Lemma review_stores_floored_ease_factor_witness :
  let st := State {[ 7%N := Card 1 (Some 3) (Some 0.5) (Some 4) None None ]} ∅ in
  let u := 1%N in
  let cid := 7%N in
  let c := Card 1 (Some 3) (Some 0.5) (Some 4) None None in
  let q := 2%Z in
  let now := 1000 in
  let later := 1001 in
  exists c' ef,
    flashcards (review st (Request (User u) (Some cid) (JS.of_Z q)) now later).1
      !! cid = Some c' /\
    c_easeFactor c' = Some ef /\ (1.3 <=? ef) = true.
Proof.
  intros st u cid c q now later.
  apply (review_stores_floored_ease_factor st u cid c q now later).
  - vm_compute. reflexivity.
  - reflexivity.
  - lia.
Defined.

End ReviewAccess.

(** ** The periodic sweep of the content cache *)

Section SweepProperties.

Import Coordinator Sweeping.

Local Ltac fields :=
  split; cbn [inflightRequests promises waiters responses clock contentCache];
  try reflexivity; try lia; try assumption.

Lemma sweep_swept s t : (clock s <= t)%Z -> swept s (sweep s t).
Proof.
  intros Ht. unfold sweep. fields.
  - intros k c H. apply map_lookup_filter_Some in H as [H _]. exact H.
  - intros k c H Hf. apply map_lookup_filter_Some. split; [exact H|].
    unfold fresh in Hf. cbn [snd]. lia.
Qed.

Lemma arrive_swept s1 s2 r k now :
  swept s1 s2 -> (clock s2 <= now)%Z ->
  swept (arrive s1 r k now) (arrive s2 r k now).
Proof.
  intros [Hi Hp Hw Hr Hc Hsub Hfr] Hnow.
  assert (Hfr' : forall k c, contentCache s1 !! k = Some c -> fresh now c ->
                             contentCache s2 !! k = Some c).
  { intros k' c' H Hf. apply (Hfr k' c' H). exact (fresh_mono _ _ _ Hnow Hf). }
  assert (Hstart : swept (start s1 r k now) (start s2 r k now)).
  { unfold start. rewrite Hi, Hp, Hw, Hr.
    fields. }
  unfold arrive. rewrite <- Hi.
  destruct (inflightRequests s1 !! k) as [p|].
  - rewrite Hw.
    fields.
  - destruct (contentCache s2 !! k) as [c2|] eqn:E2.
    + rewrite (Hsub k c2 E2).
      destruct (now - timestamp c2 <? cache_ttl_ms)%Z; [|exact Hstart].
      rewrite Hr.
      fields.
    + destruct (contentCache s1 !! k) as [c1|] eqn:E1; [|exact Hstart].
      destruct (Z.ltb_spec (now - timestamp c1) cache_ttl_ms) as [Hlt|Hge];
        [|exact Hstart].
      rewrite (Hfr' k c1 E1 Hlt) in E2. discriminate E2.
Qed.

Lemma step_swept s1 s2 ev s2' :
  swept s1 s2 -> step s2 ev = Some s2' ->
  exists s1', step s1 ev = Some s1' /\ swept s1' s2'.
Proof.
  intros Hsw Hstep. pose proof Hsw as [Hi Hp Hw Hr Hc Hsub Hfr].
  destruct ev as [r rq now|p settled insertOne now|p|i|now]; cbn [step] in *.
  - destruct (Z.ltb_spec now (clock s2)) as [|Hnow]; [discriminate|].
    injection Hstep as <-.
    destruct (Z.ltb_spec now (clock s1)) as [Hbad|_]; [lia|].
    eexists. split; [reflexivity|]. apply arrive_swept; assumption.
  - destruct (Z.ltb_spec now (clock s2)) as [|Hnow]; [discriminate|].
    destruct (Z.ltb_spec now (clock s1)) as [Hbad|_]; [lia|].
    rewrite Hp. destruct (promises s2 !! p) as [pr|]; [|discriminate].
    destruct (p_status pr); [|discriminate].
    injection Hstep as <-. eexists. split; [reflexivity|].
    unfold body_done. rewrite Hi, Hp, Hw, Hr.
    fields.
    + destruct (generation_result settled insertOne) as [d|e]; [|exact Hsub].
      intros k c. destruct (decide (p_key pr = k)) as [->|Hne].
      * rewrite !lookup_insert_eq. auto.
      * rewrite !lookup_insert_ne by exact Hne. apply Hsub.
    + destruct (generation_result settled insertOne) as [d|e].
      * intros k c. destruct (decide (p_key pr = k)) as [->|Hne].
        -- rewrite !lookup_insert_eq. auto.
        -- rewrite !lookup_insert_ne by exact Hne. intros H Hf.
           apply (Hfr k c H). exact (fresh_mono _ _ _ Hnow Hf).
      * intros k c H Hf. apply (Hfr k c H). exact (fresh_mono _ _ _ Hnow Hf).
  - rewrite Hp. destruct (promises s2 !! p) as [pr|]; [|discriminate].
    destruct (p_status pr) as [|o]; [discriminate|].
    destruct (p_finalized pr); [discriminate|].
    injection Hstep as <-. eexists. split; [reflexivity|].
    unfold resume_owner. rewrite Hi, Hp, Hw, Hr.
    fields.
  - rewrite Hw. destruct (waiters s2 !! i) as [[r p]|]; [|discriminate].
    rewrite Hp. destruct (promises s2 !! p) as [pr|]; [|discriminate].
    destruct (p_status pr) as [|o]; [discriminate|].
    injection Hstep as <-. eexists. split; [reflexivity|].
    unfold resume_waiter. rewrite Hi, Hp, Hw, Hr.
    fields.
  - destruct (Z.ltb_spec now (clock s2)) as [|Hnow]; [discriminate|].
    destruct (Z.ltb_spec now (clock s1)) as [Hbad|_]; [lia|].
    injection Hstep as <-. eexists. split; [reflexivity|].
    unfold sweep. rewrite Hi, Hp, Hw, Hr.
    fields.
    + intros k c Hk. apply map_lookup_filter_Some in Hk as [Hk HP].
      apply map_lookup_filter_Some. split; [apply Hsub, Hk|exact HP].
    + intros k c Hk Hf. apply map_lookup_filter_Some in Hk as [Hk HP].
      apply map_lookup_filter_Some. split; [|exact HP].
      apply (Hfr k c Hk). exact (fresh_mono _ _ _ Hnow Hf).
Qed.

Lemma run_swept evs : forall s1 s2 s2',
  swept s1 s2 -> run s2 evs = Some s2' ->
  exists s1', run s1 evs = Some s1' /\ swept s1' s2'.
Proof.
  induction evs as [|ev rest IH]; intros s1 s2 s2' Hsw Hrun; cbn [run] in *.
  - injection Hrun as <-. eauto.
  - destruct (step s2 ev) as [s2m|] eqn:E; [|discriminate].
    destruct (step_swept s1 s2 ev s2m Hsw E) as (s1m & -> & Hsw').
    exact (IH s1m s2m s2' Hsw' Hrun).
Qed.

(** X10.  The periodic sweep is not observable: a run of the event loop
    from which one sweep is left out is still a run, and it ends with
    the same responses, the same generation promises, the same registry
    of in-flight requests and the same suspended callers.  The sweep
    removes only entries older than the time to live, which no request
    is served from. *)
Theorem sweep_is_not_observable
    (s s2 : state) (evs1 evs2 : list event) (t : Z) :
  run s (evs1 ++ Sweep t :: evs2) = Some s2 ->
  exists s1,
    run s (evs1 ++ evs2) = Some s1 /\
    responses s1 = responses s2 /\
    promises s1 = promises s2 /\
    inflightRequests s1 = inflightRequests s2 /\
    waiters s1 = waiters s2.
Proof.
  intros Hrun. rewrite run_app in Hrun. rewrite run_app.
  destruct (run s evs1) as [sm|]; [|discriminate].
  cbn [run step] in Hrun.
  destruct (Z.ltb_spec t (clock sm)) as [|Ht]; [discriminate|].
  destruct (run_swept evs2 sm (sweep sm t) s2 (sweep_swept sm t Ht) Hrun)
    as (s1 & Hrun1 & [Hi Hp Hw Hr _ _ _]).
  exists s1. auto.
Qed.

Lemma sweep_is_not_observable_witness :
  let s := init in
  let s2 := Examples.state_after (Examples.generation_done ++ Sweep 400000 :: [Arrive 3 Examples.summary_request 400010]) in
  let evs1 := Examples.generation_done in
  let evs2 := [Arrive 3 Examples.summary_request 400010] in
  let t := 400000%Z in
  exists s1,
    run s (evs1 ++ evs2) = Some s1 /\
    responses s1 = responses s2 /\
    promises s1 = promises s2 /\
    inflightRequests s1 = inflightRequests s2 /\
    waiters s1 = waiters s2.
Proof.
  intros s s2 evs1 evs2 t.
  apply (sweep_is_not_observable s s2 evs1 evs2 t).
  - vm_compute. reflexivity.
Defined.

End SweepProperties.

(** ** Retrying an operation *)

Section RetryProperties.

Import Retry.

Lemma loop_reaches {V} (op : operation V) (maxRetries : Z) (k : nat) :
  (forall j, (j < k)%nat -> retried op j) ->
  (Z.of_nat k <= maxRetries)%Z ->
  forall d fuel,
    (d <= k)%nat -> (d <= fuel)%nat ->
    loop op maxRetries fuel (Z.of_nat (k - d)) (k - d) =
    loop op maxRetries (fuel - d) (Z.of_nat k) k.
Proof.
  intros Hre Hk. induction d as [|d IH]; intros fuel Hd Hf.
  - rewrite !Nat.sub_0_r. reflexivity.
  - destruct fuel as [|fuel]; [lia|]. cbn [loop].
    destruct (Z.leb_spec (Z.of_nat (k - S d)) maxRetries) as [_|Hgt]; [|lia].
    destruct (Hre (k - S d)%nat ltac:(lia)) as (e & -> & He).
    destruct (Z.eqb_spec (Z.of_nat (k - S d)) maxRetries) as [Heq|_]; [lia|].
    rewrite He.
    replace (Z.of_nat (k - S d) + 1)%Z with (Z.of_nat (k - d)) by lia.
    replace (S (k - S d)) with (k - d)%nat by lia.
    replace (S fuel - S d)%nat with (fuel - d)%nat by lia.
    apply IH; lia.
Qed.

Lemma retry_reaches {V} (op : operation V) (maxRetries : Z) (k : nat) :
  (forall j, (j < k)%nat -> retried op j) ->
  (Z.of_nat k <= maxRetries)%Z ->
  exists fuel,
    retryWithBackoff op maxRetries =
    loop op maxRetries (S fuel) (Z.of_nat k) k /\
    (Z.of_nat k + Z.of_nat fuel = maxRetries)%Z.
Proof.
  intros Hre Hk. unfold retryWithBackoff.
  pose proof (loop_reaches op maxRetries k Hre Hk k
                (Z.to_nat (maxRetries + 1)) ltac:(lia) ltac:(lia)) as H.
  rewrite Nat.sub_diag in H. change (Z.of_nat 0) with 0%Z in H. rewrite H.
  exists (Z.to_nat (maxRetries + 1) - k - 1)%nat.
  split; [f_equal; lia|lia].
Qed.

(** X13.  When the operation first succeeds at its invocation number
    [k] (from 0), every earlier invocation having thrown an error that
    is retried, and [k] is at most [maxRetries], the call returns the
    value of that invocation and the operation was invoked [k + 1]
    times. *)
Theorem retry_returns_first_success
    {V} (op : operation V) (maxRetries : Z) (k : nat) (v : V) :
  (forall j, (j < k)%nat -> retried op j) ->
  op k = inr v ->
  (Z.of_nat k <= maxRetries)%Z ->
  retryWithBackoff op maxRetries = (Returned v, S k).
Proof.
  intros Hre Hop Hk.
  destruct (retry_reaches op maxRetries k Hre Hk) as (fuel & -> & _).
  cbn [loop]. destruct (Z.leb_spec (Z.of_nat k) maxRetries); [|lia].
  rewrite Hop. reflexivity.
Qed.

Lemma retry_returns_first_success_witness :
  let op := RetryScenarios.third_time_lucky in
  let maxRetries := 2%Z in
  let k := 2%nat in
  let v := "ok"%string in
  retryWithBackoff op maxRetries = (Returned v, S k).
Proof.
  intros op maxRetries k v.
  apply (retry_returns_first_success op maxRetries k v).
  - intros [|[|j]] Hj; [eexists; split; reflexivity..|lia].
  - reflexivity.
  - vm_compute. discriminate.
Defined.

(** X14.  An error is thrown to the caller at the invocation where it
    occurs, without a further attempt, when it is a client error (a
    status from 400 to 499 other than 408 and 429) or when that
    invocation is the last one allowed, number [maxRetries]; the
    earlier invocations were the retried ones. *)
Theorem retry_throws_client_or_last_error
    {V} (op : operation V) (maxRetries : Z) (k : nat) (e : error) :
  (forall j, (j < k)%nat -> retried op j) ->
  op k = inl e ->
  (Z.of_nat k <= maxRetries)%Z ->
  client_error e = true \/ Z.of_nat k = maxRetries ->
  retryWithBackoff op maxRetries = (Threw e, S k).
Proof.
  intros Hre Hop Hk Hstop.
  destruct (retry_reaches op maxRetries k Hre Hk) as (fuel & -> & _).
  cbn [loop]. destruct (Z.leb_spec (Z.of_nat k) maxRetries); [|lia].
  rewrite Hop. destruct (Z.eqb_spec (Z.of_nat k) maxRetries); [reflexivity|].
  destruct Hstop as [->|Heq]; [reflexivity|contradiction].
Qed.

Lemma retry_throws_client_or_last_error_witness :
  let op := RetryScenarios.rejected_request in
  let maxRetries := 2%Z in
  let k := 1%nat in
  let e := Error (Some 400%Z) None "bad request" in
  retryWithBackoff op maxRetries = (Threw e, S k).
Proof.
  intros op maxRetries k e.
  apply (retry_throws_client_or_last_error op maxRetries k e).
  - intros [|j] Hj; [eexists; split; reflexivity|lia].
  - reflexivity.
  - vm_compute. discriminate.
  - left. reflexivity.
Defined.

Lemma loop_S {V} (op : operation V) maxRetries fuel attempt calls :
  loop op maxRetries (S fuel) attempt calls =
  if (attempt <=? maxRetries)%Z then
    match op calls with
    | inr v => (Returned v, S calls)
    | inl e =>
        if (attempt =? maxRetries)%Z then (Threw e, S calls)
        else if client_error e then (Threw e, S calls)
        else loop op maxRetries fuel (attempt + 1) (S calls)
    end
  else (Undefined, calls).
Proof. reflexivity. Qed.

Lemma loop_outcome {V} (op : operation V) (maxRetries : Z) :
  forall fuel c,
    (Z.of_nat c + Z.of_nat fuel = maxRetries)%Z ->
    (forall j, (j < c)%nat -> retried op j) ->
    let r := loop op maxRetries (S fuel) (Z.of_nat c) c in
    (c < r.2 <= c + S fuel)%nat /\
    (forall j, (j < pred r.2)%nat -> retried op j) /\
    match op (pred r.2) with
    | inr v => r.1 = Returned v
    | inl e => r.1 = Threw e /\
               (client_error e = true \/ Z.of_nat (pred r.2) = maxRetries)
    end.
Proof.
  induction fuel as [|fuel IH]; intros c Hc Hre;
    cbn zeta; rewrite loop_S;
    (destruct (Z.leb_spec (Z.of_nat c) maxRetries); [|lia]);
    destruct (op c) as [e|v] eqn:Hop.
  - destruct (Z.eqb_spec (Z.of_nat c) maxRetries); [|lia].
    cbn [fst snd pred]. rewrite Hop. split; [lia|]. split; [exact Hre|].
    split; [reflexivity|right; lia].
  - cbn [fst snd pred]. rewrite Hop. split; [lia|]. split; [exact Hre|reflexivity].
  - destruct (Z.eqb_spec (Z.of_nat c) maxRetries); [lia|].
    destruct (client_error e) eqn:He.
    + cbn [fst snd pred]. rewrite Hop. split; [lia|]. split; [exact Hre|].
      split; [reflexivity|left; exact He].
    + replace (Z.of_nat c + 1)%Z with (Z.of_nat (S c)) by lia.
      destruct (IH (S c)) as (H1 & H2 & H3); [lia| |].
      * intros j Hj. destruct (Nat.eq_dec j c) as [->|Hne];
          [exists e; auto|apply Hre; lia].
      * split; [lia|]. split; [exact H2|exact H3].
  - cbn [fst snd pred]. rewrite Hop. split; [lia|]. split; [exact Hre|reflexivity].
Qed.

(** X12.  For a non-negative [maxRetries] the call always ends by
    returning the value or throwing the error of the last invocation it
    made: it invokes the operation at least once and at most
    [maxRetries + 1] times, every invocation but the last threw an
    error that is retried, and an error is thrown only if it is a
    client error or the invocations are used up.  It never ends
    without a value or an error. *)
Theorem retry_outcome_is_last_invocation
    {V} (op : operation V) (maxRetries : Z) :
  (0 <= maxRetries)%Z ->
  let r := retryWithBackoff op maxRetries in
  (1 <= r.2 <= Z.to_nat (maxRetries + 1))%nat /\
  (forall j, (j < pred r.2)%nat -> retried op j) /\
  match op (pred r.2) with
  | inr v => r.1 = Returned v
  | inl e => r.1 = Threw e /\
             (client_error e = true \/ S (pred r.2) = Z.to_nat (maxRetries + 1))
  end.
Proof.
  intros Hm. cbn zeta. unfold retryWithBackoff.
  replace (Z.to_nat (maxRetries + 1)) with (S (Z.to_nat maxRetries)) by lia.
  destruct (loop_outcome op maxRetries (Z.to_nat maxRetries) 0%nat)
    as (H1 & H2 & H3); [lia|intros j Hj; lia|].
  cbn zeta in H1, H2, H3. change (Z.of_nat 0) with 0%Z in *.
  split; [lia|]. split; [exact H2|].
  destruct (op _) as [e|v]; [|exact H3].
  destruct H3 as [H3 [H4|H4]]; split; auto. right. lia.
Qed.

Lemma retry_outcome_is_last_invocation_witness :
  let op := RetryScenarios.third_time_lucky in
  let maxRetries := 2%Z in
  let r := retryWithBackoff op maxRetries in
  (1 <= r.2 <= Z.to_nat (maxRetries + 1))%nat /\
  (forall j, (j < pred r.2)%nat -> retried op j) /\
  match op (pred r.2) with
  | inr v => r.1 = Returned v
  | inl e => r.1 = Threw e /\
             (client_error e = true \/ S (pred r.2) = Z.to_nat (maxRetries + 1))
  end.
Proof.
  intros op maxRetries.
  apply (retry_outcome_is_last_invocation op maxRetries).
  - vm_compute. discriminate.
Defined.

Lemma loops_agree {V} (op : operation V) (maxRetries : Z) :
  (forall j e, op j = inl e -> client_error e = false) ->
  forall fuel attempt calls,
    BackendRetry.loop op maxRetries fuel attempt calls =
    loop op maxRetries fuel attempt calls.
Proof.
  intros Hnone. induction fuel as [|fuel IH]; intros attempt calls;
    [reflexivity|].
  cbn [BackendRetry.loop loop].
  destruct (attempt <=? maxRetries)%Z; [|reflexivity].
  destruct (op calls) as [e|v] eqn:Hop; [|reflexivity].
  destruct (attempt =? maxRetries)%Z; [reflexivity|].
  rewrite (Hnone calls e Hop). apply IH.
Qed.

(** X21.  On an operation that never throws a client error (a status
    from 400 to 499 other than 408 and 429), the retry loop of
    [backend/server.js] and the retry loop of the main server give the
    same result after the same number of invocations, for every
    [maxRetries]. *)
Theorem retry_loops_agree_without_client_errors
    {V} (op : operation V) (maxRetries : Z) :
  (forall j e, op j = inl e -> client_error e = false) ->
  BackendRetry.retryWithBackoff op maxRetries = retryWithBackoff op maxRetries.
Proof.
  intros Hnone. unfold BackendRetry.retryWithBackoff, retryWithBackoff.
  apply loops_agree, Hnone.
Qed.

Lemma retry_loops_agree_without_client_errors_witness :
  BackendRetry.retryWithBackoff RetryScenarios.third_time_lucky 2 =
  retryWithBackoff RetryScenarios.third_time_lucky 2.
Proof.
  apply (retry_loops_agree_without_client_errors
           RetryScenarios.third_time_lucky 2).
  intros [|[|j]] e H; try discriminate H; injection H as <-; reflexivity.
Defined.

Lemma backend_loop_reaches {V} (op : operation V) (maxRetries : Z) (k : nat) :
  (forall j, (j < k)%nat -> exists e, op j = inl e) ->
  (Z.of_nat k <= maxRetries)%Z ->
  forall d fuel,
    (d <= k)%nat -> (d <= fuel)%nat ->
    BackendRetry.loop op maxRetries fuel (Z.of_nat (k - d)) (k - d) =
    BackendRetry.loop op maxRetries (fuel - d) (Z.of_nat k) k.
Proof.
  intros Hre Hk. induction d as [|d IH]; intros fuel Hd Hf.
  - rewrite !Nat.sub_0_r. reflexivity.
  - destruct fuel as [|fuel]; [lia|]. cbn [BackendRetry.loop].
    destruct (Z.leb_spec (Z.of_nat (k - S d)) maxRetries) as [_|Hgt]; [|lia].
    destruct (Hre (k - S d)%nat ltac:(lia)) as (e & ->).
    destruct (Z.eqb_spec (Z.of_nat (k - S d)) maxRetries) as [Heq|_]; [lia|].
    replace (Z.of_nat (k - S d) + 1)%Z with (Z.of_nat (k - d)) by lia.
    replace (S (k - S d)) with (k - d)%nat by lia.
    replace (S fuel - S d)%nat with (fuel - d)%nat by lia.
    apply IH; lia.
Qed.

(** X22.  The loop of [backend/server.js] retries after every error,
    client errors included: when the operation first succeeds at its
    invocation number [k], at most [maxRetries], whatever errors the
    earlier invocations threw, the call returns that value after
    [k + 1] invocations. *)
Theorem backend_retry_returns_first_success
    {V} (op : operation V) (maxRetries : Z) (k : nat) (v : V) :
  (forall j, (j < k)%nat -> exists e, op j = inl e) ->
  op k = inr v ->
  (Z.of_nat k <= maxRetries)%Z ->
  BackendRetry.retryWithBackoff op maxRetries = (Returned v, S k).
Proof.
  intros Hre Hop Hk. unfold BackendRetry.retryWithBackoff.
  pose proof (backend_loop_reaches op maxRetries k Hre Hk k
                (Z.to_nat (maxRetries + 1)) ltac:(lia) ltac:(lia)) as H.
  rewrite Nat.sub_diag in H. change (Z.of_nat 0) with 0%Z in H. rewrite H.
  destruct (Z.to_nat (maxRetries + 1) - k)%nat as [|fuel] eqn:E; [lia|].
  cbn [BackendRetry.loop].
  destruct (Z.leb_spec (Z.of_nat k) maxRetries); [|lia].
  rewrite Hop. reflexivity.
Qed.

Lemma backend_retry_returns_first_success_witness :
  let op := RetryScenarios.rejected_once in
  let maxRetries := 2%Z in
  let k := 1%nat in
  let v := "ok"%string in
  BackendRetry.retryWithBackoff op maxRetries = (Returned v, S k).
Proof.
  intros op maxRetries k v.
  apply (backend_retry_returns_first_success op maxRetries k v).
  - intros [|j] Hj; [eexists; reflexivity|lia].
  - reflexivity.
  - vm_compute. discriminate.
Defined.

End RetryProperties.

(** ** Prompt truncation *)

Section TokenProperties.

Import Tokens.

Lemma append_cons c (s1 s2 : string) :
  (String c s1 ++ s2 = String c (s1 ++ s2))%string.
Proof. reflexivity. Qed.

Lemma append_nil (s : string) : ("" ++ s = s)%string.
Proof. reflexivity. Qed.

Lemma length_append (s1 s2 : string) :
  String.length (s1 ++ s2) = (String.length s1 + String.length s2)%nat.
Proof.
  induction s1 as [|c s1 IH]; [reflexivity|].
  rewrite append_cons. cbn [String.length]. rewrite IH. reflexivity.
Qed.

Lemma length_substring0 (n : nat) : forall s,
  String.length (substring 0 n s) = Nat.min n (String.length s).
Proof.
  induction n as [|n IH]; intros [|c s];
    cbn [substring String.length Nat.min]; try reflexivity.
  rewrite IH. reflexivity.
Qed.

Lemma substring0_append (s1 s2 : string) :
  substring 0 (String.length s1) (s1 ++ s2) = s1.
Proof.
  induction s1 as [|c s1 IH]; [rewrite append_nil; destruct s2; reflexivity|].
  rewrite append_cons. cbn [String.length substring]. rewrite IH. reflexivity.
Qed.

Lemma estimateTokens_ceiling text :
  (4 * (estimateTokens text - 1) < Z.of_nat (String.length text)
     <= 4 * estimateTokens text)%Z.
Proof. unfold estimateTokens. Z.div_mod_to_equations. lia. Qed.

Lemma truncation_notice_length : String.length truncation_notice = 43%nat.
Proof. reflexivity. Qed.

(** The kept part of a text that is over the limit has exactly
    [maxTokens * 4] characters. *)
Lemma kept_length text maxTokens :
  (maxTokens < estimateTokens text)%Z ->
  String.length (substring 0 (Z.to_nat (maxTokens * 4)) text) =
  Z.to_nat (maxTokens * 4).
Proof.
  intros Hover. rewrite length_substring0.
  pose proof (estimateTokens_ceiling text). lia.
Qed.

Lemma truncate_over text maxTokens :
  (maxTokens < estimateTokens text)%Z ->
  truncateToTokenLimit text maxTokens =
  (substring 0 (Z.to_nat (maxTokens * 4)) text ++ truncation_notice)%string.
Proof.
  intros Hover. unfold truncateToTokenLimit.
  destruct (Z.leb_spec (estimateTokens text) maxTokens); [lia|reflexivity].
Qed.

Lemma truncate_within text maxTokens :
  (estimateTokens text <= maxTokens)%Z ->
  truncateToTokenLimit text maxTokens = text.
Proof.
  intros Hin. unfold truncateToTokenLimit.
  destruct (Z.leb_spec (estimateTokens text) maxTokens); [reflexivity|lia].
Qed.

Lemma truncated_text_bounds_aux text maxTokens :
  (0 <= maxTokens)%Z ->
  (maxTokens < estimateTokens text)%Z ->
  String.length (truncateToTokenLimit text maxTokens) =
    Z.to_nat (maxTokens * 4 + 43) /\
  estimateTokens (truncateToTokenLimit text maxTokens) = (maxTokens + 11)%Z.
Proof.
  intros Hm Hover. rewrite (truncate_over text maxTokens Hover).
  pose proof (kept_length text maxTokens Hover) as Hlen.
  unfold estimateTokens.
  rewrite length_append, Hlen, truncation_notice_length.
  split; [lia|]. Z.div_mod_to_equations. lia.
Qed.

(** X15.  A text whose estimate is over a non-negative limit comes back
    as its first [maxTokens * 4] characters followed by the notice, and
    the estimate of what comes back is [maxTokens + 11]: the truncated
    prompt is itself over the limit, by the 43 characters of the
    notice. *)
Theorem truncated_text_is_over_the_limit (text : string) (maxTokens : Z) :
  (0 <= maxTokens)%Z ->
  (maxTokens < estimateTokens text)%Z ->
  String.prefix (substring 0 (Z.to_nat (maxTokens * 4)) text)
                (truncateToTokenLimit text maxTokens) = true /\
  substring 0 (Z.to_nat (maxTokens * 4)) text =
    substring 0 (Z.to_nat (maxTokens * 4)) (truncateToTokenLimit text maxTokens) /\
  String.length (truncateToTokenLimit text maxTokens) =
    Z.to_nat (maxTokens * 4 + 43) /\
  estimateTokens (truncateToTokenLimit text maxTokens) = (maxTokens + 11)%Z.
Proof.
  intros Hm Hover. rewrite (truncate_over text maxTokens Hover).
  pose proof (kept_length text maxTokens Hover) as Hlen.
  set (p := substring 0 (Z.to_nat (maxTokens * 4)) text) in *.
  assert (Hsub : substring 0 (Z.to_nat (maxTokens * 4)) (p ++ truncation_notice) = p).
  { rewrite <- Hlen at 1. apply substring0_append. }
  split; [|split; [|split]].
  - apply prefix_correct. rewrite Hlen. exact Hsub.
  - symmetry. exact Hsub.
  - rewrite length_append, Hlen, truncation_notice_length. lia.
  - unfold estimateTokens.
    rewrite length_append, Hlen, truncation_notice_length.
    Z.div_mod_to_equations. lia.
Qed.

Lemma truncated_text_is_over_the_limit_witness :
  let text := "abcdefghijklmnopqrstuvwxyz"%string in
  let maxTokens := 3%Z in
  String.prefix (substring 0 (Z.to_nat (maxTokens * 4)) text)
                (truncateToTokenLimit text maxTokens) = true /\
  substring 0 (Z.to_nat (maxTokens * 4)) text =
    substring 0 (Z.to_nat (maxTokens * 4)) (truncateToTokenLimit text maxTokens) /\
  String.length (truncateToTokenLimit text maxTokens) =
    Z.to_nat (maxTokens * 4 + 43) /\
  estimateTokens (truncateToTokenLimit text maxTokens) = (maxTokens + 11)%Z.
Proof.
  intros text maxTokens.
  apply (truncated_text_is_over_the_limit text maxTokens).
  - vm_compute. discriminate.
  - vm_compute. reflexivity.
Defined.

(** X16.  For every text and non-negative limit, the result is never
    longer than [maxTokens * 4] characters plus the 43 of the notice,
    and its estimate is at most [maxTokens + 11]. *)
Theorem truncation_bounds_the_length (text : string) (maxTokens : Z) :
  (0 <= maxTokens)%Z ->
  (Z.of_nat (String.length (truncateToTokenLimit text maxTokens))
     <= maxTokens * 4 + 43)%Z /\
  (estimateTokens (truncateToTokenLimit text maxTokens) <= maxTokens + 11)%Z.
Proof.
  intros Hm. pose proof (estimateTokens_ceiling text) as Hc.
  destruct (Z.le_gt_cases (estimateTokens text) maxTokens) as [Hin|Hover].
  - rewrite (truncate_within text maxTokens Hin). split; lia.
  - destruct (truncated_text_bounds_aux text maxTokens Hm Hover) as [H1 H2].
    split; lia.
Qed.

Lemma truncation_bounds_the_length_witness :
  let text := "abcdefghijklmnopqrstuvwxyz"%string in
  let maxTokens := 3%Z in
  (Z.of_nat (String.length (truncateToTokenLimit text maxTokens))
     <= maxTokens * 4 + 43)%Z /\
  (estimateTokens (truncateToTokenLimit text maxTokens) <= maxTokens + 11)%Z.
Proof.
  intros text maxTokens.
  apply (truncation_bounds_the_length text maxTokens).
  - vm_compute. discriminate.
Defined.

(** X17.  Truncating is idempotent, for every limit: applied to its own
    result it cuts the notice off and appends it again. *)
Theorem truncation_is_idempotent (text : string) (maxTokens : Z) :
  truncateToTokenLimit (truncateToTokenLimit text maxTokens) maxTokens =
  truncateToTokenLimit text maxTokens.
Proof.
  destruct (Z.le_gt_cases (estimateTokens text) maxTokens) as [Hin|Hover].
  - rewrite (truncate_within text maxTokens Hin).
    apply truncate_within, Hin.
  - rewrite (truncate_over text maxTokens Hover).
    pose proof (kept_length text maxTokens Hover) as Hlen.
    set (p := substring 0 (Z.to_nat (maxTokens * 4)) text) in *.
    rewrite truncate_over.
    + rewrite <- Hlen at 1. rewrite substring0_append. reflexivity.
    + unfold estimateTokens.
      rewrite length_append, Hlen, truncation_notice_length.
      pose proof (estimateTokens_ceiling text).
      Z.div_mod_to_equations. lia.
Qed.

End TokenProperties.

(** ** The fallback embedding *)

Section EmbeddingProperties.

Import Embedding.

Lemma to_int32_range x : (- 2 ^ 31 <= to_int32 x < 2 ^ 31)%Z.
Proof.
  unfold to_int32. change (2 ^ 31)%Z with 2147483648%Z.
  change (2 ^ 32)%Z with 4294967296%Z. Z.div_mod_to_equations. lia.
Qed.

Lemma hash_step_times_31 a code :
  hash_step a code = to_int32 (31 * a + code).
Proof.
  unfold hash_step, to_int32. change (2 ^ 31)%Z with 2147483648%Z.
  change (2 ^ 32)%Z with 4294967296%Z. Z.div_mod_to_equations. lia.
Qed.

Lemma word_hash_snoc word code :
  word_hash (word ++ [code]) = hash_step (word_hash word) code.
Proof. unfold word_hash. rewrite fold_left_app. reflexivity. Qed.

Lemma word_hash_range word : (- 2 ^ 31 <= word_hash word < 2 ^ 31)%Z.
Proof.
  induction word as [|c w _] using rev_ind.
  - cbn. lia.
  - rewrite word_hash_snoc. unfold hash_step. apply to_int32_range.
Qed.

(** X18.  The word hash is the usual 31-multiplier string hash in 32-bit
    arithmetic: appending a code unit multiplies the hash by 31 and adds
    the unit, wrapped to a signed 32-bit integer; the shift, the
    subtraction and the [a & a] of the reducer have no other effect.
    The index derived from it is always a position of the array. *)
Theorem word_hash_is_times_31_wrapped (word : list Z) (code : Z) :
  word_hash (word ++ [code]) = to_int32 (31 * word_hash word + code) /\
  (- 2 ^ 31 <= word_hash word < 2 ^ 31)%Z /\
  (0 <= index_of (word_hash word) (Z.of_nat dimension) < Z.of_nat dimension)%Z.
Proof.
  split; [|split].
  - rewrite word_hash_snoc. apply hash_step_times_31.
  - apply word_hash_range.
  - unfold index_of. apply Z.rem_bound_pos; [lia|reflexivity].
Qed.

Lemma add_at_filled embedding i x :
  filled embedding -> (i < dimension)%nat -> filled (add_at embedding i x).
Proof.
  intros [Hlen Hall] Hi. unfold add_at.
  match goal with
  | |- filled (match ?t with _ => _ end) => destruct t as [[y|]|] eqn:Hv
  end.
  - split; [rewrite length_insert; exact Hlen|].
    apply Forall_insert; [exact Hall|eexists; reflexivity].
  - exfalso. rewrite Forall_lookup in Hall. destruct (Hall i None Hv) as [? H].
    discriminate H.
  - exfalso. apply lookup_ge_None in Hv.
    apply (Nat.lt_irrefl i). eapply Nat.lt_le_trans; [exact Hi|].
    rewrite <- Hlen. exact Hv.
Qed.

Lemma fold_left_filled (x : JS.number) (words : list (list Z)) : forall embedding,
  filled embedding ->
  filled (fold_left
            (fun embedding word =>
               add_at embedding
                 (Z.to_nat (index_of (word_hash word) (Z.of_nat (length embedding))))
                 x)
            words embedding).
Proof.
  induction words as [|w words IH]; intros embedding Hf; [exact Hf|].
  cbn [fold_left]. apply IH. apply add_at_filled; [exact Hf|].
  destruct Hf as [Hlen _]. rewrite Hlen. unfold index_of.
  pose proof (Z.rem_bound_pos (Z.abs (word_hash w)) (Z.of_nat dimension)
                ltac:(lia) ltac:(reflexivity)).
  lia.
Qed.

(** X19.  Whatever the words, the embedding has exactly 1536 entries
    and no holes: every update lands inside the array, so the array is
    never extended and no entry is left undefined. *)
Theorem embedding_has_fixed_dimension (words : list (list Z)) :
  length (generateSimpleEmbedding words) = 1536%nat /\
  Forall is_Some (generateSimpleEmbedding words).
Proof.
  apply (fold_left_filled _ words). split; [reflexivity|].
  apply Forall_replicate. eexists. reflexivity.
Qed.

End EmbeddingProperties.

(** ** More on the scheduler *)

Section EaseFactorProperties.

Local Open Scope float_scope.

Import Scheduler.

Lemma ge_one_not_nan x : ge_one (Prim2SF x) -> is_nan x = false.
Proof.
  intros H. unfold is_nan. rewrite FloatAxioms.eqb_spec, SFeqb_refl; [reflexivity|].
  destruct H as [->|(m & e & -> & _)]; discriminate.
Qed.

Lemma add_zero_r x : ge_one (Prim2SF x) -> x + 0 = x.
Proof.
  intros H. apply Prim2SF_inj. rewrite FloatAxioms.add_spec.
  change (Prim2SF 0) with (S754_zero false).
  destruct H as [->|(m & e & -> & _)]; reflexivity.
Qed.

Lemma SFcompare_Eq_finite s m e y :
  SFcompare (S754_finite s m e) y = Some Eq -> y = S754_finite s m e.
Proof.
  destruct y as [sy|sy| |sy my ey]; cbn [SFcompare];
    try (destruct s; discriminate); try (destruct sy; discriminate);
    try discriminate.
  intros H. injection H as H.
  destruct s, sy; try discriminate H;
    destruct (Z.compare_spec e ey) as [->| |]; try discriminate H;
    fold (Pos.compare m my) in H;
    (destruct (Pos.compare_spec m my) as [->| |]; [reflexivity|discriminate H..]).
Qed.

Lemma leb_not_ltb a x :
  (a <=? x) = true -> (a <? x) = false ->
  SFcompare (Prim2SF a) (Prim2SF x) = Some Eq.
Proof.
  rewrite FloatAxioms.leb_spec, FloatAxioms.ltb_spec. unfold SFleb, SFltb.
  destruct (SFcompare _ _) as [[]|]; congruence.
Qed.

Lemma Math_max_above x : (1.3 <=? x) = true -> JS.Math_max 1.3 x = x.
Proof.
  intros Hx. unfold JS.Math_max.
  rewrite (ge_one_not_nan x (leb_floor_ge_one x Hx)).
  change (is_nan 1.3) with false. cbn [orb].
  destruct (1.3 <? x) eqn:E1; [reflexivity|].
  pose proof (leb_not_ltb 1.3 x Hx E1) as Heq.
  assert (Hx13 : x = 1.3).
  { apply Prim2SF_inj. revert Heq.
    change (Prim2SF 1.3) with (S754_finite false 5854679515581645 (-52)).
    apply SFcompare_Eq_finite. }
  rewrite Hx13. reflexivity.
Qed.

(** X20.  A review with quality 4 leaves an ease factor of at least 1.3
    exactly as it is: the adjustment
    [0.1 - (5 - 4) * (0.08 + (5 - 4) * 0.02)] is 0 in binary64. *)
Theorem quality_four_keeps_ease_factor (now reps ef iv : JS.number) :
  (1.3 <=? ef) = true ->
  easeFactor (calculateSpacedRepetition now 4 reps ef iv) = ef.
Proof.
  intros Hef. unfold calculateSpacedRepetition.
  change (4 <? 3) with false. cbn iota.
  assert (Hup : ease_update 4 ef = ef).
  { unfold ease_update.
    change (0.1 - (5 - 4) * (0.08 + (5 - 4) * 0.02)) with 0.
    apply add_zero_r, leb_floor_ge_one, Hef. }
  cbn [easeFactor]. rewrite Hup. apply Math_max_above, Hef.
Qed.

Lemma quality_four_keeps_ease_factor_witness :
  easeFactor (calculateSpacedRepetition 1000 4 3 2.36 15) = 2.36.
Proof.
  apply (quality_four_keeps_ease_factor 1000 3 2.36 15). reflexivity.
Defined.

End EaseFactorProperties.

(** ** Numbering of the questions of a session *)

Section SessionIndexes.

Import Sessions SessionUpdate SessionRuns.

Lemma batches_of_app bs1 bs2 id :
  batches_of (bs1 ++ bs2) id = batches_of bs1 id ++ batches_of bs2 id.
Proof. apply List.filter_app. Qed.

Lemma batches_of_one b id :
  batches_of [b] id = if (b_sessionId b =? id)%N then [b] else [].
Proof. reflexivity. Qed.

Lemma index_mark_by_id ids now qs :
  map index (map (mark_by_id ids now) qs) = map index qs.
Proof.
  rewrite map_map. apply map_ext. intros q. unfold mark_by_id.
  destruct (in_ids ids (q_id q)); reflexivity.
Qed.

(** Marking questions shown changes neither the batches of a session
    nor the indexes stored in them. *)
Lemma mark_keeps_indexes bs bid ids now id :
  length (batches_of (mark_in_batch bs bid ids now) id) =
    length (batches_of bs id) /\
  stored_indexes (mark_in_batch bs bid ids now) id = stored_indexes bs id.
Proof.
  unfold stored_indexes.
  induction bs as [|b bs [IH1 IH2]]; [split; reflexivity|].
  rewrite mark_in_batch_updated.
  destruct (b_id b =? bid)%N.
  - unfold batches_of. cbn [List.filter updated b_sessionId].
    destruct (b_sessionId b =? id)%N; [|split; reflexivity].
    cbn [length map updated questions]. rewrite index_mark_by_id.
    split; reflexivity.
  - unfold batches_of in *. cbn [List.filter].
    destruct (b_sessionId b =? id)%N; cbn [length map];
      [rewrite IH1, IH2; split; reflexivity|split; assumption].
Qed.

Lemma index_new_questions first offset qs :
  map index (new_questions first offset qs) =
  map (fun i => (Z.of_nat i + offset)%Z) (seq 0 (length qs)).
Proof.
  unfold new_questions.
  assert (H : forall (k : nat) (l : list payload),
    map index (imap (fun idx q => SessionQuestion (first + N.of_nat (k + idx)) q
                                     unseen (Z.of_nat (k + idx) + offset) None) l) =
    map (fun i => (Z.of_nat i + offset)%Z) (seq k (length l))).
  { intros k l. revert k. induction l as [|q l IH]; intros k; [reflexivity|].
    cbn [imap map index length seq]. rewrite Nat.add_0_r. f_equal.
    rewrite <- IH. f_equal. apply imap_ext. intros i x _. cbn.
    replace (k + S i)%nat with (S k + i)%nat by lia. reflexivity. }
  exact (H 0%nat qs).
Qed.

Lemma seq_extend (k : nat) :
  map Z.of_nat (seq 0 (20 * k)) ++
    map (fun i => (Z.of_nat i + 20 * Z.of_nat k)%Z) (seq 0 20) =
  map Z.of_nat (seq 0 (20 * (k + 1))).
Proof.
  replace (20 * (k + 1))%nat with (20 * k + 20)%nat by lia.
  rewrite seq_app, map_app. f_equal. cbn [Nat.add].
  transitivity (map Z.of_nat (map (Nat.add (20 * k)) (seq 0 20))).
  - rewrite map_map. apply map_ext. intros i. lia.
  - f_equal. etransitivity; [apply (fmap_add_seq (20 * k) 0 20)|].
    f_equal. lia.
Qed.

Lemma empty_indexed fs first_oid : indexed (empty_db fs first_oid).
Proof.
  split; cbn [empty_db study_sessions question_batches].
  - intros id _. split; [apply lookup_empty|reflexivity].
  - intros id sess H. rewrite lookup_empty in H. discriminate H.
  - intros id sess H. rewrite lookup_empty in H. discriminate H.
Qed.

Section Step.

Variable gen : generator.
Hypothesis gen_twenty : forall rq qs, gen rq = Some qs -> length qs = 20%nat.

Lemma create_indexed st userId fileIds topic now :
  indexed st -> indexed (create gen st userId fileIds topic now).1.
Proof.
  intros [Hfresh Htotal Hidx]. unfold create.
  destruct (List.filter _ (files st)) as [|f fs]; [split; assumption|].
  set (sid := next_oid st).
  destruct (Hfresh sid ltac:(unfold sid; lia)) as [Hnone Hnob].
  destruct (gen _) as [qs|] eqn:Hgen; cbn [fst].
  - pose proof (gen_twenty _ _ Hgen) as Hlen.
    split; cbn [study_sessions question_batches next_oid].
    + intros id Hid. rewrite !lookup_insert_ne by lia.
      destruct (Hfresh id ltac:(unfold sid in *; lia)) as [H1 H2].
      split; [exact H1|].
      rewrite batches_of_app, H2, batches_of_one. cbn [b_sessionId].
      destruct (N.eqb_spec sid id); [lia|reflexivity].
    + intros id sess. rewrite batches_of_app, batches_of_one. cbn [b_sessionId].
      destruct (N.eqb_spec sid id) as [<-|Hne].
      * rewrite lookup_insert_eq. intros H. injection H as <-.
        rewrite Hnob. reflexivity.
      * rewrite !lookup_insert_ne by exact Hne. rewrite app_nil_r. apply Htotal.
    + intros id sess. unfold stored_indexes.
      rewrite batches_of_app, batches_of_one. cbn [b_sessionId].
      destruct (N.eqb_spec sid id) as [<-|Hne].
      * intros _. rewrite Hnob. cbn [app map concat questions length].
        rewrite app_nil_r, index_new_questions, Hlen.
        apply map_ext. intros i. lia.
      * rewrite !lookup_insert_ne by exact Hne. rewrite app_nil_r. apply Hidx.
  - split; cbn [study_sessions question_batches next_oid].
    + intros id Hid. rewrite lookup_insert_ne by lia.
      apply Hfresh. unfold sid in *. lia.
    + intros id sess. destruct (N.eq_dec sid id) as [<-|Hne].
      * rewrite lookup_insert_eq. intros H. injection H as <-.
        rewrite Hnob. reflexivity.
      * rewrite lookup_insert_ne by exact Hne. apply Htotal.
    + intros id sess. destruct (N.eq_dec sid id) as [<-|Hne].
      * intros _. unfold stored_indexes. rewrite Hnob. reflexivity.
      * rewrite lookup_insert_ne by exact Hne. apply Hidx.
Qed.

Lemma next_generate_indexed st id0 limit now :
  indexed st -> indexed (next_generate gen st id0 limit now).1.
Proof.
  intros Hinv. pose proof Hinv as [Hfresh Htotal Hidx]. unfold next_generate.
  destruct (study_sessions st !! id0) as [sess0|] eqn:Hs; [|exact Hinv].
  destruct (gen _) as [qs|] eqn:Hgen; [|exact Hinv].
  pose proof (gen_twenty _ _ Hgen) as Hlen. cbn [fst].
  assert (Hold : (id0 < next_oid st)%N).
  { destruct (N.lt_ge_cases id0 (next_oid st)) as [|Hge]; [assumption|].
    destruct (Hfresh id0 Hge) as [H _]. congruence. }
  set (k := length (batches_of (question_batches st) id0)).
  split; cbn [study_sessions question_batches next_oid].
  - intros id Hid. rewrite lookup_insert_ne by lia.
    destruct (Hfresh id ltac:(lia)) as [H1 H2]. split; [exact H1|].
    rewrite batches_of_app, H2, batches_of_one. cbn [b_sessionId].
    destruct (N.eqb_spec id0 id); [lia|reflexivity].
  - intros id sess. rewrite batches_of_app, batches_of_one. cbn [b_sessionId].
    destruct (N.eqb_spec id0 id) as [<-|Hne].
    + rewrite lookup_insert_eq. intros H. injection H as <-.
      cbn [totalGenerated]. rewrite (Htotal id0 sess0 Hs), length_app.
      cbn [length]. lia.
    + rewrite lookup_insert_ne by exact Hne. rewrite app_nil_r. apply Htotal.
  - intros id sess. unfold stored_indexes.
    rewrite batches_of_app, batches_of_one. cbn [b_sessionId].
    destruct (N.eqb_spec id0 id) as [<-|Hne].
    + intros _. rewrite map_app, concat_app, length_app.
      fold (stored_indexes (question_batches st) id0).
      rewrite (Hidx id0 sess0 Hs). fold k.
      cbn [map concat questions length]. rewrite app_nil_r.
      rewrite index_new_questions, Hlen, (Htotal id0 sess0 Hs). fold k.
      apply seq_extend.
    + rewrite lookup_insert_ne by exact Hne. rewrite app_nil_r. apply Hidx.
Qed.

Lemma next_indexed st id0 limit now :
  indexed st -> indexed (next gen st id0 limit now).1.
Proof.
  intros Hinv. pose proof Hinv as [Hfresh Htotal Hidx]. unfold next.
  destruct (next_from_cache st id0 (effective_limit limit)) as [[st' r]|] eqn:Ec.
  - unfold next_from_cache in Ec.
    destruct (questionSessionCache st !! id0) as [c|]; [|discriminate].
    destruct (slice0 _ _); [discriminate|].
    injection Ec as <- _. cbn [fst]. split; assumption.
  - unfold next_from_db.
    destruct (find_unseen_batch (question_batches st) id0) as [b|];
      [|apply next_generate_indexed, Hinv].
    destruct (slice0 _ _) as [|q sel] eqn:Es; [exact Hinv|]. cbn [fst].
    split; cbn [study_sessions question_batches next_oid].
    + intros id Hid. destruct (Hfresh id Hid) as [H1 H2]. split; [exact H1|].
      pose proof (proj1 (mark_keeps_indexes (question_batches st) (b_id b)
                           (map q_id (q :: sel)) now id)) as Hl.
      rewrite H2 in Hl. exact (nil_length_inv _ Hl).
    + intros id sess H.
      rewrite (proj1 (mark_keeps_indexes _ _ _ _ _)). apply (Htotal id sess H).
    + intros id sess H.
      rewrite (proj2 (mark_keeps_indexes _ _ _ _ _)),
              (proj1 (mark_keeps_indexes _ _ _ _ _)).
      apply (Hidx id sess H).
Qed.

Lemma in_turn_indexed calls : forall st, indexed st -> indexed (handled_in_turn gen st calls).
Proof.
  induction calls as [|c calls IH]; intros st Hinv; [exact Hinv|].
  cbn [handled_in_turn fold_left]. apply IH. destruct c; cbn [handle].
  - apply create_indexed, Hinv.
  - apply next_indexed, Hinv.
Qed.

End Step.

(** X23.  For create and next requests handled in turn, each answered
    before the next one is taken up.  (Requests that overlap in time
    are not covered: two next calls that both read the session before
    either writes store two batches with the same indexes.)  When every
    generated batch has 20 questions, as the response schema requires,
    then in every state such requests reach from a database without
    sessions, the questions stored for a session are numbered
    consecutively from 0 in storage order across its batches, and the
    session's [totalGenerated] is the number of questions stored for
    it. *)
Theorem requests_in_turn_number_questions_consecutively
    (gen : generator) (fs : list file) (first_oid : N) (calls : list call)
    (id : N) (sess : session) :
  (forall rq qs, gen rq = Some qs -> length qs = 20%nat) ->
  study_sessions (handled_in_turn gen (empty_db fs first_oid) calls) !! id = Some sess ->
  let bs := question_batches (handled_in_turn gen (empty_db fs first_oid) calls) in
  concat (stored_indexes bs id) =
    map Z.of_nat (seq 0 (20 * length (batches_of bs id))) /\
  totalGenerated sess = Z.of_nat (length (concat (stored_indexes bs id))).
Proof.
  intros Hgen Hs bs.
  pose proof (in_turn_indexed gen Hgen calls _ (empty_indexed fs first_oid))
    as [_ Htotal Hidx].
  split; [exact (Hidx id sess Hs)|].
  unfold bs. rewrite (Hidx id sess Hs), length_map, length_seq.
  rewrite (Htotal id sess Hs). lia.
Qed.

Lemma requests_in_turn_number_questions_consecutively_witness :
  let gen := Examples.twenty_questions in
  let fs := [File 1 "u1" "Photosynthesis converts light energy into chemical energy."] in
  let first_oid := 100%N in
  let calls := Create "u1" [1%N] (Some "biology") 1000 :: map (fun t => Next 100 None (2000 + Z.of_nat t)) (seq 0 9) in
  let id := 100%N in
  let sess := default (Session "" "" [] "" 0 0 [] 0 0) (study_sessions (handled_in_turn gen (empty_db fs first_oid) calls) !! id) in
  let bs := question_batches (handled_in_turn gen (empty_db fs first_oid) calls) in
  concat (stored_indexes bs id) =
    map Z.of_nat (seq 0 (20 * length (batches_of bs id))) /\
  totalGenerated sess = Z.of_nat (length (concat (stored_indexes bs id))).
Proof.
  intros gen fs first_oid calls id sess.
  apply (requests_in_turn_number_questions_consecutively gen fs first_oid calls id sess).
  - intros rq qs H. unfold gen, Examples.twenty_questions in H. injection H as <-. reflexivity.
  - vm_compute. reflexivity.
Defined.

End SessionIndexes.
